(** * Query governor and plan analyzer of libredb-studio

    A shallow embedding of
      - [src/lib/db/utils/query-limiter.ts]  (statement classifier, limit rewriter),
      - [src/app/api/db/estimate/route.ts]   (cardinality estimator),
      - [src/components/VisualExplain.tsx]   (plan analyzer),
      - [unnamed/part_011]                   (the route that runs a statement),
    followed by the properties established about them.

    Conventions of the embedding.
      - SQL text is a [list ascii] ([text]); string literals are read through
        [list_ascii_of_string].  The character classes, [trim], [toUpperCase]
        and the [i] flag are those of JavaScript on 7-bit ASCII text
        ([ascii_text]); a character above 127 is taken as an ordinary
        character, which leaves out the white space and the letters that
        JavaScript knows beyond ASCII.
      - The regular expressions of the source are kept as syntax trees
        ([regex]) and run by a backtracking matcher that enumerates the
        matches in the priority order of the JavaScript semantics.
      - The limits and offsets of the rewriter are natural numbers, printed
        and parsed digit by digit: what the program does with the integers
        from 0 to 2^53 - 1 ([safe]).
      - The numbers of the plan analyzer come twice: as the rationals they
        denote, with exact arithmetic ([VisualExplain]), for what does not
        depend on rounding, and as IEEE 754 doubles ([Double],
        [VisualExplain64]), with the roundings, the infinities and the NaN
        of the program. *)

From Stdlib Require Import Ascii String Bool Arith NArith ZArith QArith Lia List.
From Stdlib Require Import SpecFloat.
Import ListNotations.

Close Scope Q_scope.
Open Scope list_scope.

(** ** Text *)

Definition text := list ascii.

Definition str (s : string) : text := list_ascii_of_string s.
Coercion str : string >-> text.

Definition code (c : ascii) : N := N_of_ascii c.

(** [\s] on ASCII: tab, line feed, vertical tab, form feed, carriage return,
    space. *)
Definition is_space (c : ascii) : bool :=
  ((9 <=? code c) && (code c <=? 13))%N || (code c =? 32)%N.

(** [\d] *)
Definition is_digit (c : ascii) : bool :=
  ((48 <=? code c) && (code c <=? 57))%N.

Definition is_lower (c : ascii) : bool :=
  ((97 <=? code c) && (code c <=? 122))%N.

Definition is_upper (c : ascii) : bool :=
  ((65 <=? code c) && (code c <=? 90))%N.

(** [\w] *)
Definition is_word (c : ascii) : bool :=
  is_lower c || is_upper c || is_digit c || (code c =? 95)%N.

Definition upper (c : ascii) : ascii :=
  if is_lower c then ascii_of_N (code c - 32) else c.

(** [String.prototype.toUpperCase], on ASCII *)
Definition toUpperCase (s : text) : text := map upper s.

Fixpoint drop_space (s : text) : text :=
  match s with
  | c :: t => if is_space c then drop_space t else s
  | [] => []
  end.

(** [String.prototype.trim], of ASCII white space *)
Definition trim (s : text) : text := rev (drop_space (rev (drop_space s))).

(** [s.endsWith(';')] *)
Definition endsWith (s : text) (c : ascii) : bool :=
  match rev s with
  | x :: _ => Ascii.eqb x c
  | [] => false
  end.

(** [s.slice(0, -1)] *)
Definition slice_0_m1 (s : text) : text := removelast s.

(** Decimal digits of a natural number, as the template literal [`${n}`]
    prints a non-negative integer below 10^21. *)
Fixpoint digits_fuel (fuel : nat) (n : N) (acc : text) : text :=
  match fuel with
  | O => acc
  | S f =>
      let d := ascii_of_N (48 + n mod 10) in
      if (n <? 10)%N then d :: acc else digits_fuel f (n / 10) (d :: acc)
  end.

Definition dec (n : N) : text := digits_fuel (S (N.to_nat (N.log2 n))) n [].

(** [parseInt] on a capture of [\d+]: the decimal value of the digits,
    which the program rounds to a double when it is above 2^53. *)
Definition parseDigits (s : text) : N :=
  fold_left (fun acc c => (10 * acc + (code c - 48))%N) s 0%N.

(** ** Regular expressions *)

Inductive regex : Type :=
| Eps
| Lit (c : ascii)
| Space
| Digit
| WordB
| Bol
| Eol
| Cat (a b : regex)
| Alt (a b : regex)
| Opt (a : regex)
| Star (a : regex)
| Plus (a : regex)
| Group (n : nat) (a : regex).

Definition seq (l : list regex) : regex := fold_right Cat Eps l.

(** The letters of a keyword, one [Lit] each. *)
Definition lits (s : string) : regex := seq (map Lit (str s)).

(** A position of the matcher: the character before it (none at the start of
    the input), the input from it on, and the captures made so far. *)
Record mstate : Type := MState {
  prev : option ascii;
  rest : text;
  caps : list (nat * text)
}.

Definition at_boundary (st : mstate) : bool :=
  let before := match prev st with Some c => is_word c | None => false end in
  let after := match rest st with c :: _ => is_word c | [] => false end in
  xorb before after.

Definition step_char (ok : ascii -> bool) (st : mstate) : list mstate :=
  match rest st with
  | c :: t => if ok c then [MState (Some c) t (caps st)] else []
  | [] => []
  end.

Definition guard (b : bool) (st : mstate) : list mstate :=
  if b then [st] else [].

(** Greedy iteration; an iteration that consumes nothing is rejected, as in
    the JavaScript semantics.  The fuel bounds the number of iterations by
    the length of the remaining input. *)
Fixpoint star (step : mstate -> list mstate) (fuel : nat) (st : mstate)
  : list mstate :=
  match fuel with
  | O => [st]
  | S f =>
      flat_map
        (fun st' =>
           if length (rest st') <? length (rest st) then star step f st' else [])
        (step st)
      ++ [st]
  end.

Definition set_cap (n : nat) (from to : mstate) : mstate :=
  MState (prev to) (rest to)
    ((n, firstn (length (rest from) - length (rest to)) (rest from)) :: caps to).

Section Matcher.

(** The [i] flag. *)
Variable icase : bool.

Definition lit_ok (p c : ascii) : bool :=
  if icase then Ascii.eqb (upper c) (upper p) else Ascii.eqb c p.

(** All the ways [r] matches from [st], the preferred one first. *)
Fixpoint run (r : regex) (st : mstate) : list mstate :=
  match r with
  | Eps => [st]
  | Lit p => step_char (lit_ok p) st
  | Space => step_char is_space st
  | Digit => step_char is_digit st
  | WordB => guard (at_boundary st) st
  | Bol => guard (match prev st with None => true | Some _ => false end) st
  | Eol => guard (match rest st with [] => true | _ :: _ => false end) st
  | Cat a b => flat_map (run b) (run a st)
  | Alt a b => run a st ++ run b st
  | Opt a => run a st ++ [st]
  | Star a => star (run a) (S (length (rest st))) st
  | Plus a =>
      flat_map (fun st' => star (run a) (S (length (rest st'))) st') (run a st)
  | Group n a => map (set_cap n st) (run a st)
  end.

(** [RegExp.prototype.exec] without the [g] flag: the first start position,
    from the left, at which the pattern matches.  Returns the text before
    the match and the final position of the match. *)
Fixpoint exec_at (r : regex) (before : text) (p : option ascii) (s : text)
  : option (text * mstate) :=
  match run r (MState p s []) with
  | m :: _ => Some (before, m)
  | [] =>
      match s with
      | [] => None
      | c :: t => exec_at r (before ++ [c]) (Some c) t
      end
  end.

Definition exec (r : regex) (s : text) : option (text * mstate) :=
  exec_at r [] None s.

(** [re.test(s)] *)
Definition test (r : regex) (s : text) : bool :=
  match exec r s with Some _ => true | None => false end.

(** [s.replace(re, '')] for a pattern without the [g] flag. *)
Definition replace_first_empty (r : regex) (s : text) : text :=
  match exec r s with
  | Some (before, m) => before ++ rest m
  | None => s
  end.

(** The successive matches of a pattern with the [g] flag: the unmatched
    text before each match, and the unmatched text after the last one.
    After an empty match the search resumes one character further. *)
Fixpoint global (fuel : nat) (r : regex) (p : option ascii) (s : text)
  : list text * text :=
  match fuel with
  | O => ([], s)
  | S f =>
      match exec_at r [] p s with
      | None => ([], s)
      | Some (before, m) =>
          if length (rest m) <? length s - length before then
            let (gaps, tail) := global f r (prev m) (rest m) in
            (before :: gaps, tail)
          else
            match rest m with
            | [] => ([before], [])
            | c :: t =>
                let (gaps, tail) := global f r (Some c) t in
                match gaps with
                | [] => ([before], c :: tail)
                | g :: gs => (before :: (c :: g) :: gs, tail)
                end
            end
      end
  end.

(** [s.replace(re, by)] for a pattern with the [g] flag. *)
Definition replace_all (r : regex) (by_ : text) (s : text) : text :=
  let (gaps, tail) := global (S (length s)) r None s in
  concat (map (fun g => g ++ by_) gaps) ++ tail.

(** [(s.match(re) || []).length] for a pattern with the [g] flag. *)
Definition count_matches (r : regex) (s : text) : nat :=
  length (fst (global (S (length s)) r None s)).

End Matcher.

(** The text captured by group [n], [None] when the group took no part in
    the match ([undefined]). *)
Fixpoint capture (n : nat) (cs : list (nat * text)) : option text :=
  match cs with
  | (k, t) :: cs' => if Nat.eqb k n then Some t else capture n cs'
  | [] => None
  end.

(** ** src/lib/db/utils/query-limiter.ts *)

Module QueryLimiter.

Definition DEFAULT_QUERY_LIMIT : N := 500.
Definition MAX_UNLIMITED_ROWS : N := 100000.

Inductive QueryType : Type :=
| SELECT | INSERT | UPDATE | DELETE | DDL | OTHER.

Definition QueryType_eqb (a b : QueryType) : bool :=
  match a, b with
  | SELECT, SELECT | INSERT, INSERT | UPDATE, UPDATE
  | DELETE, DELETE | DDL, DDL | OTHER, OTHER => true
  | _, _ => false
  end.

Record ParsedQueryInfo : Type := {
  type : QueryType;
  hasLimit : bool;
  existingLimit : option N;
  hasOffset : bool;
  existingOffset : option N;
  isUnion : bool;
  hasCTE : bool;
  hasSubquery : bool
}.

Record LimitedQueryResult : Type := {
  sql : text;
  wasLimited : bool;
  originalLimit : option N;
  appliedLimit : N;
  appliedOffset : N
}.

(** [/^\s*KEYWORD\b/i] *)
Definition re_leading (kw : string) : regex :=
  seq [Bol; Star Space; lits kw; WordB].

(** [/^\s*(CREATE|ALTER|DROP|TRUNCATE)\b/i] *)
Definition re_ddl : regex :=
  seq [Bol; Star Space;
       Group 1 (Alt (lits "CREATE")
               (Alt (lits "ALTER") (Alt (lits "DROP") (lits "TRUNCATE"))));
       WordB].

(** [/\bKEYWORD\b/] *)
Definition re_word (kw : string) : regex := seq [WordB; lits kw; WordB].

(** [/\bLIMIT\s+(\d+)(?:\s*,\s*(\d+)|\s+OFFSET\s+(\d+))?\s*;?\s*$/i] *)
Definition re_limit : regex :=
  seq [WordB; lits "LIMIT"; Plus Space; Group 1 (Plus Digit);
       Opt (Alt (seq [Star Space; Lit ","; Star Space; Group 2 (Plus Digit)])
                (seq [Plus Space; lits "OFFSET"; Plus Space;
                      Group 3 (Plus Digit)]));
       Star Space; Opt (Lit ";"); Star Space; Eol].

(** [/\bOFFSET\s+(\d+)\s*;?\s*$/i] *)
Definition re_offset : regex :=
  seq [WordB; lits "OFFSET"; Plus Space; Group 1 (Plus Digit);
       Star Space; Opt (Lit ";"); Star Space; Eol].

(** [/\bLIMIT\s+\d+\s*,\s*\d+\s*;?\s*$/i] *)
Definition re_strip_mysql : regex :=
  seq [WordB; lits "LIMIT"; Plus Space; Plus Digit; Star Space; Lit ",";
       Star Space; Plus Digit; Star Space; Opt (Lit ";"); Star Space; Eol].

(** [/\bLIMIT\s+\d+(?:\s+OFFSET\s+\d+)?\s*;?\s*$/i] *)
Definition re_strip_standard : regex :=
  seq [WordB; lits "LIMIT"; Plus Space; Plus Digit;
       Opt (seq [Plus Space; lits "OFFSET"; Plus Space; Plus Digit]);
       Star Space; Opt (Lit ";"); Star Space; Eol].

(** The groups of [s.match(re)] for a pattern without the [g] flag. *)
Definition groups (r : regex) (s : text) : option (list (nat * text)) :=
  match exec true r s with
  | Some (_, m) => Some (caps m)
  | None => None
  end.

Definition analyzeQuery (sql : text) : ParsedQueryInfo :=
  let trimmed := trim sql in
  let normalized := toUpperCase (replace_all false (Plus Space) (str " ") trimmed) in
  (* Query type detection *)
  let type :=
    if test true (re_leading "SELECT") trimmed then SELECT
    else if test true (re_leading "INSERT") trimmed then INSERT
    else if test true (re_leading "UPDATE") trimmed then UPDATE
    else if test true (re_leading "DELETE") trimmed then DELETE
    else if test true re_ddl trimmed then DDL
    else if test true (re_leading "WITH") trimmed
            && test true (re_word "SELECT") trimmed then SELECT
    else OTHER in
  (* LIMIT/OFFSET detection *)
  let limitMatch := groups re_limit trimmed in
  let '(hasLimit, existingLimit, existingOffset) :=
    match limitMatch with
    | Some g =>
        match capture 2 g with
        | Some g2 =>
            (* LIMIT offset, count *)
            (true, Some (parseDigits g2),
             option_map parseDigits (capture 1 g))
        | None =>
            (* a captured [\d+] is never the empty string, so it is truthy *)
            (true, option_map parseDigits (capture 1 g),
             option_map parseDigits (capture 3 g))
        end
    | None => (false, None, None)
    end in
  (* OFFSET without LIMIT *)
  let offsetOnlyMatch :=
    if hasLimit then None else groups re_offset trimmed in
  let hasOffset :=
    if hasLimit
    then match existingOffset with Some _ => true | None => false end
    else match offsetOnlyMatch with Some _ => true | None => false end in
  let existingOffset :=
    match offsetOnlyMatch with
    | Some g => option_map parseDigits (capture 1 g)
    | None => existingOffset
    end in
  let isUnion := test true (re_word "UNION") normalized in
  let hasCTE := test true (re_leading "WITH") trimmed in
  let selectCount := count_matches false (re_word "SELECT") normalized in
  let hasSubquery := 1 <? selectCount in
  {| type := type;
     hasLimit := hasLimit;
     existingLimit := existingLimit;
     hasOffset := hasOffset;
     existingOffset := existingOffset;
     isUnion := isUnion;
     hasCTE := hasCTE;
     hasSubquery := hasSubquery |}.

(** [info.existingLimit || 0] *)
Definition or_zero (x : option N) : N :=
  match x with Some n => n | None => 0%N end.

(** [offset > 0 ? `LIMIT ${limit} OFFSET ${offset}` : `LIMIT ${limit}`] *)
Definition limitClause (limit offset : N) : text :=
  if (0 <? offset)%N
  then str "LIMIT " ++ dec limit ++ str " OFFSET " ++ dec offset
  else str "LIMIT " ++ dec limit.

Definition applyQueryLimit
           (sql : text) (limit offset : N) (forceLimit : bool)
  : LimitedQueryResult :=
  let info := analyzeQuery sql in
  if negb (QueryType_eqb (type info) SELECT) then
    {| sql := sql; wasLimited := false; originalLimit := None;
       appliedLimit := 0; appliedOffset := 0 |}
  else if hasLimit info && negb forceLimit then
    {| sql := sql; wasLimited := false;
       originalLimit := existingLimit info;
       appliedLimit := or_zero (existingLimit info);
       appliedOffset := or_zero (existingOffset info) |}
  else
    let modifiedSql := trim sql in
    let modifiedSql :=
      if hasLimit info && forceLimit then
        let m := trim (replace_first_empty true re_strip_mysql modifiedSql) in
        trim (replace_first_empty true re_strip_standard m)
      else modifiedSql in
    let hasSemicolon := endsWith modifiedSql ";" in
    let modifiedSql :=
      if hasSemicolon then trim (slice_0_m1 modifiedSql) else modifiedSql in
    let modifiedSql := modifiedSql ++ str " " ++ limitClause limit offset in
    let modifiedSql :=
      if hasSemicolon then modifiedSql ++ str ";" else modifiedSql in
    {| sql := modifiedSql; wasLimited := true;
       originalLimit := existingLimit info;
       appliedLimit := limit; appliedOffset := offset |}.

Definition hasQueryLimit (sql : text) : bool := hasLimit (analyzeQuery sql).

Definition isSelectQuery (sql : text) : bool :=
  QueryType_eqb (type (analyzeQuery sql)) SELECT.

End QueryLimiter.

(** ** Numbers

    A JavaScript number is modelled here by the rational it denotes, with
    exact arithmetic; the doubles themselves come with [Double] below.
    Division is the one partial operation: with a zero denominator it has no
    rational value (JavaScript gives NaN or an infinity), so code that
    divides is written in the option monad and a division by zero shows in
    its result. *)

Notation "x <- a ;; b" :=
  (match a with Some x => b | None => None end)
  (at level 61, a at next level, right associativity).

Definition Qgtb (a b : Q) : bool := negb (Qle_bool a b).
Definition Qltb (a b : Q) : bool := negb (Qle_bool b a).
Definition Qgeb (a b : Q) : bool := Qle_bool b a.

Definition div (a b : Q) : option Q :=
  if Qeq_bool b 0%Q then None else Some (a / b)%Q.

(** [x || d] on an optional number: [undefined] and [0] are falsy. *)
Definition num_or (x : option Q) (d : Q) : Q :=
  match x with
  | Some q => if Qeq_bool q 0%Q then d else q
  | None => d
  end.

(** [x ?? d] *)
Definition num_nullish (x : option Q) (d : Q) : Q :=
  match x with Some q => q | None => d end.

(** [x.toFixed(f)] of the exact value [x]: the integer [n] for which
    [n / 10^f] is nearest to [|x|], the larger one on a tie, printed with
    [f] decimals (for [|x| < 10^21]). *)
Definition toFixed (f : nat) (x : Q) : text :=
  let num := Z.abs (Qnum x) in
  let den := Zpos (Qden x) in
  let n := ((2 * num * 10 ^ Z.of_nat f + den) / (2 * den))%Z in
  let m := dec (Z.to_N n) in
  let m := repeat "0"%char (S f - length m) ++ m in
  let k := length m - f in
  (if Qltb x 0%Q then str "-" else [])
  ++ (if Nat.eqb f 0 then m else firstn k m ++ str "." ++ skipn k m).

Fixpoint prefix_eqb (p s : text) : bool :=
  match p, s with
  | [], _ => true
  | a :: p', b :: s' => Ascii.eqb a b && prefix_eqb p' s'
  | _ :: _, [] => false
  end.

(** [s.includes(sub)] *)
Fixpoint includes (s sub : text) : bool :=
  prefix_eqb sub s
  || match s with
     | [] => false
     | _ :: t => includes t sub
     end.

(** ** src/components/VisualExplain.tsx *)

Module VisualExplain.

(** [ExplainPlanNode]; absent optional fields are [None]. *)
Inductive ExplainPlanNode : Type := PlanNode {
  Node_Type : option text;
  Actual_Rows : option Q;
  Plan_Rows : option Q;
  Actual_Total_Time : option Q;
  Total_Cost : option Q;
  Shared_Hit_Blocks : option Q;
  Shared_Read_Blocks : option Q;
  Relation_Name : option text;
  Actual_Loops : option Q;
  Filter : option text;
  Index_Name : option text;
  Plans : option (list ExplainPlanNode)
}.

Record ExplainPlanResult : Type := {
  Plan : option ExplainPlanNode;
  Execution_Time : option Q;
  Planning_Time : option Q
}.

Inductive WarningType : Type := w_critical | w_warning | w_info.

Inductive InsightStatus : Type := good | warning | critical.

Record Warning : Type := {
  type : WarningType;
  title : text;
  description : text;
  node : option text
}.

Record Insight : Type := {
  label : text;
  value : text;
  status : InsightStatus
}.

Record PlanAnalysis : Type := {
  totalTime : Q;
  planningTime : Q;
  executionTime : Q;
  totalRows : Q;
  totalCost : Q;
  bufferHits : Q;
  bufferReads : Q;
  nodeCount : N;
  warnings : list Warning;
  insights : list Insight
}.

Definition formatNumber (num : Q) : option text :=
  if Qgeb num 1000000 then
    q <- div num 1000000 ;; Some (toFixed 1 q ++ str "M")
  else if Qgeb num 1000 then
    q <- div num 1000 ;; Some (toFixed 1 q ++ str "K")
  else Some (toFixed 0 num).

Definition formatTime (ms : Q) : option text :=
  if Qgeb ms 1000 then
    q <- div ms 1000 ;; Some (toFixed 2 q ++ str "s")
  else if Qgeb ms 1 then Some (toFixed 2 ms ++ str "ms")
  else Some (toFixed 0 (ms * 1000) ++ str "μs").

(** The double quote character. *)
Definition dquote : ascii := ascii_of_nat 34.

(** [x || d] on an optional string: [undefined] and [''] are falsy. *)
Definition text_or (x : option text) (d : text) : text :=
  match x with
  | Some (c :: t) => c :: t
  | _ => d
  end.

(** The variables of [analyzePlan] that [analyzeNode] updates. *)
Record Acc : Type := {
  acc_warnings : list Warning;
  acc_totalRows : Q;
  acc_nodeCount : N;
  acc_bufferHits : Q;
  acc_bufferReads : Q
}.

Definition push (w : Warning) (a : Acc) : Acc :=
  {| acc_warnings := acc_warnings a ++ [w];
     acc_totalRows := acc_totalRows a;
     acc_nodeCount := acc_nodeCount a;
     acc_bufferHits := acc_bufferHits a;
     acc_bufferReads := acc_bufferReads a |}.

(** The body of [analyzeNode] before it recurses into the children. *)
Definition visit (node : ExplainPlanNode) (a : Acc) : option Acc :=
  let nodeType := text_or (Node_Type node) [] in
  let actualRows := num_or (Actual_Rows node) 0 in
  let planRows := num_or (Plan_Rows node) 0 in
  let actualTime := num_or (Actual_Total_Time node) 0 in
  let a :=
    {| acc_warnings := acc_warnings a;
       acc_totalRows := acc_totalRows a + actualRows;
       acc_nodeCount := acc_nodeCount a + 1;
       acc_bufferHits := acc_bufferHits a + num_or (Shared_Hit_Blocks node) 0;
       acc_bufferReads :=
         acc_bufferReads a + num_or (Shared_Read_Blocks node) 0 |} in
  (* Sequential scan on large tables *)
  a <- (if includes nodeType (str "Seq Scan") && Qgtb actualRows 10000 then
          rows <- formatNumber actualRows ;;
          Some (push
            {| type := w_warning;
               title := str "Sequential Scan";
               description :=
                 str "Full table scan on " ++ [dquote]
                 ++ text_or (Relation_Name node) (str "table")
                 ++ [dquote] ++ str " (" ++ rows
                 ++ str " rows). Consider adding an index.";
               node := Some nodeType |} a)
        else Some a) ;;
  (* Row estimate mismatch *)
  a <- (if Qgtb planRows 0 && Qgtb actualRows 0 then
          ratio <- div actualRows planRows ;;
          if Qgtb ratio 10 || Qltb ratio 0.1 then
            expected <- formatNumber planRows ;;
            got <- formatNumber actualRows ;;
            Some (push
              {| type := w_info;
                 title := str "Estimate Mismatch";
                 description :=
                   str "Expected " ++ expected ++ str " rows, got " ++ got
                   ++ str ". Statistics may be outdated.";
                 node := Some nodeType |} a)
          else Some a
        else Some a) ;;
  (* Expensive sorts *)
  a <- (if includes nodeType (str "Sort") && Qgtb actualTime 100 then
          took <- formatTime actualTime ;;
          Some (push
            {| type := w_warning;
               title := str "Expensive Sort";
               description :=
                 str "Sort operation took " ++ took
                 ++ str ". Consider adding an index for ordered access.";
               node := Some nodeType |} a)
        else Some a) ;;
  (* Nested loops with high iterations *)
  let actualLoops := num_nullish (Actual_Loops node) 1 in
  if includes nodeType (str "Nested Loop") && Qgtb actualLoops 1000 then
    times <- formatNumber actualLoops ;;
    Some (push
      {| type := w_critical;
         title := str "High Loop Count";
         description :=
           str "Nested loop executed " ++ times
           ++ str " times. This could indicate an N+1 problem.";
         node := Some nodeType |} a)
  else Some a.

(** [analyzeNode]: visit the node, then its children from left to right.
    ([depth] is carried as in the source and never read.) *)
Fixpoint analyzeNode (node : ExplainPlanNode) (depth : nat) (a : Acc)
  {struct node} : option Acc :=
  a <- visit node a ;;
  match Plans node with
  | Some children =>
      (fix forEach (children : list ExplainPlanNode) (a : Acc)
         : option Acc :=
         match children with
         | [] => Some a
         | child :: children' =>
             a <- analyzeNode child (depth + 1) a ;; forEach children' a
         end) children a
  | None => Some a (* [[].forEach(...)] *)
  end.

(** The initial values of the variables of [analyzePlan]. *)
Definition start : Acc :=
  {| acc_warnings := []; acc_totalRows := 0; acc_nodeCount := 0;
     acc_bufferHits := 0; acc_bufferReads := 0 |}.

(** [plan?.[0]] *)
Definition first_result (plan : option (list ExplainPlanResult))
  : option ExplainPlanResult :=
  match plan with Some (r :: _) => Some r | _ => None end.

(** [plan?.[0]?.Plan] *)
Definition rootPlan (plan : option (list ExplainPlanResult))
  : option ExplainPlanNode :=
  match first_result plan with Some r => Plan r | None => None end.

Definition analyzePlan (plan : option (list ExplainPlanResult))
  : option PlanAnalysis :=
  let first := first_result plan in
  let rootPlan := rootPlan plan in
  let executionTime :=
    num_or (match first with Some r => Execution_Time r | None => None end)
      (num_or
         (match rootPlan with
          | Some n => Actual_Total_Time n
          | None => None
          end) 0) in
  let planningTime :=
    num_or (match first with Some r => Planning_Time r | None => None end)
      0 in
  let totalCost :=
    num_or (match rootPlan with Some n => Total_Cost n | None => None end)
      0 in
  a <- (match rootPlan with
        | Some n => analyzeNode n 0 start
        | None => Some start
        end) ;;
  let bufferHits := acc_bufferHits a in
  let bufferReads := acc_bufferReads a in
  let nodeCount := acc_nodeCount a in
  (* Build insights *)
  rate <- (if Qgtb (bufferHits + bufferReads) 0 then
             q <- div bufferHits (bufferHits + bufferReads) ;;
             Some (toFixed 1 (q * 100) ++ str "%")
           else Some (str "N/A")) ;;
  ratio <- div bufferHits
             (if Qeq_bool (bufferHits + bufferReads) 0 then 1
              else bufferHits + bufferReads) ;;
  execution <- formatTime executionTime ;;
  Some
    {| totalTime := executionTime + planningTime;
       planningTime := planningTime;
       executionTime := executionTime;
       totalRows := acc_totalRows a;
       totalCost := totalCost;
       bufferHits := bufferHits;
       bufferReads := bufferReads;
       nodeCount := nodeCount;
       warnings := acc_warnings a;
       insights :=
         [ {| label := str "Cache Hit Rate";
              value := rate;
              status := if Qgtb ratio 0.95 then good else warning |};
           {| label := str "Operations";
              value := dec nodeCount;
              status := if (20 <? nodeCount)%N then warning else good |};
           {| label := str "Execution";
              value := execution;
              status :=
                if Qgtb executionTime 1000 then critical
                else if Qgtb executionTime 100 then warning
                else good |} ] |}.

End VisualExplain.

(** ** Numbers as the program has them: IEEE 754 doubles *)

Module Double.

Definition prec : Z := 53.
Definition emax : Z := 1024.

(** A JavaScript number: a binary64 value, a zero, an infinity or NaN. *)
Definition double : Type := spec_float.

(** The double nearest to an integer: an integer literal. *)
Definition of_Z (z : Z) : double := binary_normalize prec emax z 0 false.

Definition add : double -> double -> double := SFadd prec emax.
Definition mul : double -> double -> double := SFmul prec emax.

(** [a / b] *)
Definition quot : double -> double -> double := SFdiv prec emax.

(** The decimal literal [n / d], for integers the doubles hold exactly:
    the double nearest to the quotient. *)
Definition literal (n d : Z) : double := quot (of_Z n) (of_Z d).

(** [a > b], [a >= b], [a < b]: false when an operand is NaN. *)
Definition gtb (a b : double) : bool := SFltb b a.
Definition geb (a b : double) : bool := SFleb b a.
Definition ltb (a b : double) : bool := SFltb a b.

Definition is_zero (x : double) : bool :=
  match x with S754_zero _ => true | _ => false end.

Definition is_nan (x : double) : bool :=
  match x with S754_nan => true | _ => false end.

Definition is_finite (x : double) : bool :=
  match x with S754_zero _ | S754_finite _ _ _ => true | _ => false end.

(** Division, with a zero denominator made visible: [None] where the
    program gets an infinity or NaN from a division by zero. *)
Definition div (a b : double) : option double :=
  if is_zero b then None else Some (quot a b).

(** [x || d] on a number: zero and NaN are falsy. *)
Definition or_else (x d : double) : double :=
  if is_zero x || is_nan x then d else x.

(** [x || d] on an optional number. *)
Definition num_or (x : option double) (d : double) : double :=
  match x with
  | Some q => or_else q d
  | None => d
  end.

(** [x ?? d] *)
Definition num_nullish (x : option double) (d : double) : double :=
  match x with Some q => q | None => d end.

(** The rational a finite double denotes. *)
Definition to_Q (x : double) : Q :=
  match x with
  | S754_finite s m e =>
      let n := if s then Zneg m else Zpos m in
      match e with
      | Z0 => n # 1
      | Zpos p => (n * 2 ^ Zpos p) # 1
      | Zneg p => n # (2 ^ p)
      end
  | _ => 0
  end.

Fixpoint drop_zeros (s : text) : text :=
  match s with
  | c :: t => if Ascii.eqb c "0" then drop_zeros t else s
  | [] => []
  end.

(** The multiple of a power of ten with the fewest significant digits that
    the double [x], of integer value [X], is the nearest double to: the
    digits [Number::toString] prints.  [n] is the number of digits of [X],
    [k] the number of significant digits tried. *)
Fixpoint shortest (fuel : nat) (k : nat) (x : double) (X : Z) (n : nat) : Z :=
  match fuel with
  | O => X
  | S fuel' =>
      let p := (10 ^ Z.of_nat (n - k))%Z in
      let lo := (X / p * p)%Z in
      let hi := (lo + p)%Z in
      let ok v := SFeqb (of_Z v) x in
      if ok lo && ok hi then (if (X - lo <=? hi - X)%Z then lo else hi)
      else if ok lo then lo
      else if ok hi then hi
      else shortest fuel' (S k) x X n
  end.

(** [Number::toString] of a double of integer value [X >= 10^21]: the
    exponent notation. *)
Definition exponent_form (x : double) (X : Z) : text :=
  let n := length (dec (Z.to_N X)) in
  let v := dec (Z.to_N (shortest 17 1 x X n)) in
  let e := str "e+" ++ dec (N.of_nat (length v - 1)) in
  match rev (drop_zeros (rev v)) with
  | [] => []
  | [d] => d :: e
  | d :: ds => d :: str "." ++ ds ++ e
  end.

(** [x.toFixed(f)] *)
Definition toFixed (f : nat) (x : double) : text :=
  match x with
  | S754_nan => str "NaN"
  | S754_infinity s => (if s then str "-" else []) ++ str "Infinity"
  | S754_zero _ => toFixed f 0%Q
  | S754_finite s m e =>
      if SFleb (of_Z (10 ^ 21)) (S754_finite false m e)
      then (if s then str "-" else [])
           ++ exponent_form (S754_finite false m e) (Z.shiftl (Zpos m) e)
      else toFixed f (to_Q x)
  end.

End Double.

(** ** src/components/VisualExplain.tsx, with the numbers of the program

    [VisualExplain] above computes with the rationals that the numbers
    denote.  This module is the same code over doubles: every sum, product
    and quotient is rounded, overflows to an infinity, and gives NaN where
    IEEE 754 does.  The numbers of a plan come from JSON: finite doubles,
    and the infinities for numerals beyond the range. *)

Module VisualExplain64.

Import Double.

(** [ExplainPlanNode]; absent optional fields are [None]. *)
Inductive ExplainPlanNode : Type := PlanNode {
  Node_Type : option text;
  Actual_Rows : option double;
  Plan_Rows : option double;
  Actual_Total_Time : option double;
  Total_Cost : option double;
  Shared_Hit_Blocks : option double;
  Shared_Read_Blocks : option double;
  Relation_Name : option text;
  Actual_Loops : option double;
  Filter : option text;
  Index_Name : option text;
  Plans : option (list ExplainPlanNode)
}.

Record ExplainPlanResult : Type := {
  Plan : option ExplainPlanNode;
  Execution_Time : option double;
  Planning_Time : option double
}.

Record PlanAnalysis : Type := {
  totalTime : double;
  planningTime : double;
  executionTime : double;
  totalRows : double;
  totalCost : double;
  bufferHits : double;
  bufferReads : double;
  nodeCount : N;
  warnings : list VisualExplain.Warning;
  insights : list VisualExplain.Insight
}.

Definition formatNumber (num : double) : option text :=
  if geb num (of_Z 1000000) then
    q <- div num (of_Z 1000000) ;; Some (toFixed 1 q ++ str "M")
  else if geb num (of_Z 1000) then
    q <- div num (of_Z 1000) ;; Some (toFixed 1 q ++ str "K")
  else Some (toFixed 0 num).

Definition formatTime (ms : double) : option text :=
  if geb ms (of_Z 1000) then
    q <- div ms (of_Z 1000) ;; Some (toFixed 2 q ++ str "s")
  else if geb ms (of_Z 1) then Some (toFixed 2 ms ++ str "ms")
  else Some (toFixed 0 (mul ms (of_Z 1000)) ++ str "μs").

(** The variables of [analyzePlan] that [analyzeNode] updates. *)
Record Acc : Type := {
  acc_warnings : list VisualExplain.Warning;
  acc_totalRows : double;
  acc_nodeCount : N;
  acc_bufferHits : double;
  acc_bufferReads : double
}.

Definition push (w : VisualExplain.Warning) (a : Acc) : Acc :=
  {| acc_warnings := acc_warnings a ++ [w];
     acc_totalRows := acc_totalRows a;
     acc_nodeCount := acc_nodeCount a;
     acc_bufferHits := acc_bufferHits a;
     acc_bufferReads := acc_bufferReads a |}.

(** The body of [analyzeNode] before it recurses into the children. *)
Definition visit (node : ExplainPlanNode) (a : Acc) : option Acc :=
  let nodeType := VisualExplain.text_or (Node_Type node) [] in
  let actualRows := num_or (Actual_Rows node) (of_Z 0) in
  let planRows := num_or (Plan_Rows node) (of_Z 0) in
  let actualTime := num_or (Actual_Total_Time node) (of_Z 0) in
  let a :=
    {| acc_warnings := acc_warnings a;
       acc_totalRows := add (acc_totalRows a) actualRows;
       acc_nodeCount := acc_nodeCount a + 1;
       acc_bufferHits :=
         add (acc_bufferHits a) (num_or (Shared_Hit_Blocks node) (of_Z 0));
       acc_bufferReads :=
         add (acc_bufferReads a)
           (num_or (Shared_Read_Blocks node) (of_Z 0)) |} in
  (* Sequential scan on large tables *)
  a <- (if includes nodeType (str "Seq Scan")
           && gtb actualRows (of_Z 10000) then
          rows <- formatNumber actualRows ;;
          Some (push
            {| VisualExplain.type := VisualExplain.w_warning;
               VisualExplain.title := str "Sequential Scan";
               VisualExplain.description :=
                 str "Full table scan on " ++ [VisualExplain.dquote]
                 ++ VisualExplain.text_or (Relation_Name node) (str "table")
                 ++ [VisualExplain.dquote] ++ str " (" ++ rows
                 ++ str " rows). Consider adding an index.";
               VisualExplain.node := Some nodeType |} a)
        else Some a) ;;
  (* Row estimate mismatch *)
  a <- (if gtb planRows (of_Z 0) && gtb actualRows (of_Z 0) then
          ratio <- div actualRows planRows ;;
          if gtb ratio (of_Z 10) || ltb ratio (literal 1 10) then
            expected <- formatNumber planRows ;;
            got <- formatNumber actualRows ;;
            Some (push
              {| VisualExplain.type := VisualExplain.w_info;
                 VisualExplain.title := str "Estimate Mismatch";
                 VisualExplain.description :=
                   str "Expected " ++ expected ++ str " rows, got " ++ got
                   ++ str ". Statistics may be outdated.";
                 VisualExplain.node := Some nodeType |} a)
          else Some a
        else Some a) ;;
  (* Expensive sorts *)
  a <- (if includes nodeType (str "Sort") && gtb actualTime (of_Z 100) then
          took <- formatTime actualTime ;;
          Some (push
            {| VisualExplain.type := VisualExplain.w_warning;
               VisualExplain.title := str "Expensive Sort";
               VisualExplain.description :=
                 str "Sort operation took " ++ took
                 ++ str ". Consider adding an index for ordered access.";
               VisualExplain.node := Some nodeType |} a)
        else Some a) ;;
  (* Nested loops with high iterations *)
  let actualLoops := num_nullish (Actual_Loops node) (of_Z 1) in
  if includes nodeType (str "Nested Loop")
     && gtb actualLoops (of_Z 1000) then
    times <- formatNumber actualLoops ;;
    Some (push
      {| VisualExplain.type := VisualExplain.w_critical;
         VisualExplain.title := str "High Loop Count";
         VisualExplain.description :=
           str "Nested loop executed " ++ times
           ++ str " times. This could indicate an N+1 problem.";
         VisualExplain.node := Some nodeType |} a)
  else Some a.

(** [analyzeNode]: visit the node, then its children from left to right.
    ([depth] is carried as in the source and never read.) *)
Fixpoint analyzeNode (node : ExplainPlanNode) (depth : nat) (a : Acc)
  {struct node} : option Acc :=
  a <- visit node a ;;
  match Plans node with
  | Some children =>
      (fix forEach (children : list ExplainPlanNode) (a : Acc)
         : option Acc :=
         match children with
         | [] => Some a
         | child :: children' =>
             a <- analyzeNode child (depth + 1) a ;; forEach children' a
         end) children a
  | None => Some a (* [[].forEach(...)] *)
  end.

(** The initial values of the variables of [analyzePlan]. *)
Definition start : Acc :=
  {| acc_warnings := []; acc_totalRows := of_Z 0; acc_nodeCount := 0;
     acc_bufferHits := of_Z 0; acc_bufferReads := of_Z 0 |}.

(** [plan?.[0]] *)
Definition first_result (plan : option (list ExplainPlanResult))
  : option ExplainPlanResult :=
  match plan with Some (r :: _) => Some r | _ => None end.

(** [plan?.[0]?.Plan] *)
Definition rootPlan (plan : option (list ExplainPlanResult))
  : option ExplainPlanNode :=
  match first_result plan with Some r => Plan r | None => None end.

Definition analyzePlan (plan : option (list ExplainPlanResult))
  : option PlanAnalysis :=
  let first := first_result plan in
  let rootPlan := rootPlan plan in
  let executionTime :=
    num_or (match first with Some r => Execution_Time r | None => None end)
      (num_or
         (match rootPlan with
          | Some n => Actual_Total_Time n
          | None => None
          end) (of_Z 0)) in
  let planningTime :=
    num_or (match first with Some r => Planning_Time r | None => None end)
      (of_Z 0) in
  let totalCost :=
    num_or (match rootPlan with Some n => Total_Cost n | None => None end)
      (of_Z 0) in
  a <- (match rootPlan with
        | Some n => analyzeNode n 0 start
        | None => Some start
        end) ;;
  let bufferHits := acc_bufferHits a in
  let bufferReads := acc_bufferReads a in
  let nodeCount := acc_nodeCount a in
  (* Build insights *)
  rate <- (if gtb (add bufferHits bufferReads) (of_Z 0) then
             q <- div bufferHits (add bufferHits bufferReads) ;;
             Some (toFixed 1 (mul q (of_Z 100)) ++ str "%")
           else Some (str "N/A")) ;;
  ratio <- div bufferHits (or_else (add bufferHits bufferReads) (of_Z 1)) ;;
  execution <- formatTime executionTime ;;
  Some
    {| totalTime := add executionTime planningTime;
       planningTime := planningTime;
       executionTime := executionTime;
       totalRows := acc_totalRows a;
       totalCost := totalCost;
       bufferHits := bufferHits;
       bufferReads := bufferReads;
       nodeCount := nodeCount;
       warnings := acc_warnings a;
       insights :=
         [ {| VisualExplain.label := str "Cache Hit Rate";
              VisualExplain.value := rate;
              VisualExplain.status :=
                if gtb ratio (literal 95 100) then VisualExplain.good
                else VisualExplain.warning |};
           {| VisualExplain.label := str "Operations";
              VisualExplain.value := dec nodeCount;
              VisualExplain.status :=
                if (20 <? nodeCount)%N then VisualExplain.warning
                else VisualExplain.good |};
           {| VisualExplain.label := str "Execution";
              VisualExplain.value := execution;
              VisualExplain.status :=
                if gtb executionTime (of_Z 1000) then VisualExplain.critical
                else if gtb executionTime (of_Z 100)
                     then VisualExplain.warning
                     else VisualExplain.good |} ] |}.

End VisualExplain64.

(** ** src/app/api/db/estimate/route.ts *)

Module Estimate.

Import QueryLimiter.

Definition LARGE_RESULT_THRESHOLD : Z := 10000.

(** [num.toString()] for an integer. *)
Definition toString (num : Z) : text :=
  if (num <? 0)%Z then str "-" ++ dec (Z.to_N (- num)) else dec (Z.to_N num).

(** The denominators are non-zero literals.  The quotient is taken exactly;
    the program rounds it to a double before [toFixed], which moves the
    decimal printed by one unit when the quotient lies halfway between two
    decimals (10350 / 1000). *)
Definition formatNumber (num : Z) : text :=
  if (1000000 <=? num)%Z then
    toFixed 1 (inject_Z num / 1000000)%Q ++ str "M"
  else if (1000 <=? num)%Z then
    toFixed 1 (inject_Z num / 1000)%Q ++ str "K"
  else toString num.

Fixpoint text_eqb (a b : text) : bool :=
  match a, b with
  | [], [] => true
  | x :: a', y :: b' => Ascii.eqb x y && text_eqb a' b'
  | _, _ => false
  end.

(** The value of a column of an EXPLAIN row, as far as [parseInt] tells
    values apart: absent, an integer, or a string. *)
Inductive column : Type :=
| Undefined
| Number (z : Z)
| Text (t : text).

Fixpoint take_while (ok : ascii -> bool) (s : text) : text :=
  match s with
  | c :: t => if ok c then c :: take_while ok t else []
  | [] => []
  end.

Definition is_hex (c : ascii) : bool :=
  is_digit c
  || ((97 <=? code c) && (code c <=? 102))%N
  || ((65 <=? code c) && (code c <=? 70))%N.

Definition hex_value (c : ascii) : N :=
  if is_digit c then code c - 48
  else if is_lower c then code c - 87
  else code c - 55.

(** [parseInt(v)] without a radix; [None] is NaN.  The value is the exact
    integer, which the program rounds to a double when it is above 2^53. *)
Definition parseInt (v : column) : option Z :=
  match v with
  | Undefined => None
  | Number z => Some z
  | Text t =>
      let t := drop_space t in
      let '(sign, t) :=
        match t with
        | "-"%char :: r => ((-1)%Z, r)
        | "+"%char :: r => (1%Z, r)
        | _ => (1%Z, t)
        end in
      let hex r :=
        match take_while is_hex r with
        | [] => None
        | ds =>
            Some (sign * Z.of_N
                    (fold_left (fun a c => (16 * a + hex_value c)%N) ds 0%N))%Z
        end in
      match t with
      | "0"%char :: "x"%char :: r => hex r
      | "0"%char :: "X"%char :: r => hex r
      | _ =>
          match take_while is_digit t with
          | [] => None
          | ds => Some (sign * Z.of_N (parseDigits ds))%Z
          end
      end
  end.

(** [x || 0] on a number that may be absent or NaN. *)
Definition int_or_zero (x : option Z) : Z :=
  match x with Some z => z | None => 0%Z end.

Record PlanObject : Type := { Plan_Rows : option Z }.

Record QueryPlanEntry : Type := { Plan : option PlanObject }.

(** A row of the result of an EXPLAIN: the PostgreSQL form has the column
    [QUERY PLAN], the MySQL form the column [rows]. *)
Record Row : Type := {
  QUERY_PLAN : option (list QueryPlanEntry);
  rows_column : column
}.

Record QueryResult : Type := { rows : option (list Row) }.

Record DatabaseConnection : Type := { conn_type : text }.

Record RequestBody : Type := {
  connection : option DatabaseConnection;
  sql : option text
}.

(** The JSON body of a response of the estimator. *)
Record RowEstimateResult : Type := {
  estimatedRows : Z;
  isLargeResult : bool;
  warning : option text;
  error : option text
}.

Inductive Response : Type :=
| Status400 (error : text)
| Status200 (body : RowEstimateResult).

Section Route.

(** The exceptions a call can throw.  The error classes of ['@/lib/db']
    are known to the route through their tests only. *)
Variable exn : Type.
Variable instanceof_QueryError : exn -> bool.
Variable instanceof_TimeoutError : exn -> bool.
Variable isDatabaseError : exn -> bool.

(** The outcome of an awaited call. *)
Inductive outcome (A : Type) : Type :=
| Returns (a : A)
| Throws (e : exn).
Arguments Returns {A} a.
Arguments Throws {A} e.

Definition bind {A B : Type} (x : outcome A) (k : A -> outcome B)
  : outcome B :=
  match x with
  | Returns a => k a
  | Throws e => Throws e
  end.

Record Provider : Type := { query : text -> outcome QueryResult }.

(** The collaborators of one request: [req.json()] and
    [getOrCreateProvider]. *)
Variable req_json : outcome RequestBody.
Variable getOrCreateProvider : DatabaseConnection -> outcome Provider.

Definition estimate (dbType : text) (provider : Provider) (sql : text)
  : outcome Z :=
  if text_eqb dbType (str "postgres") then
    let explainSql := str "EXPLAIN (FORMAT JSON) " ++ sql in
    bind (query provider explainSql) (fun result =>
    Returns
      match rows result with
      | Some (r :: _) =>
          match QUERY_PLAN r with
          | Some (e :: _) =>
              match Plan e with
              | Some p => int_or_zero (Plan_Rows p)
              | None => 0%Z
              end
          | _ => 0%Z
          end
      | _ => 0%Z
      end)
  else if text_eqb dbType (str "mysql") then
    let explainSql := str "EXPLAIN " ++ sql in
    bind (query provider explainSql) (fun result =>
    Returns
      match rows result with
      | Some (r :: rs) =>
          fold_left
            (fun sum row =>
               (sum + int_or_zero (parseInt (rows_column row)))%Z)
            (r :: rs) 0%Z
      | _ => 0%Z
      end)
  else if text_eqb dbType (str "sqlite") then Returns 0%Z
  else Returns 0%Z.

(** The [try] block. *)
Definition attempt : outcome Response :=
  bind req_json (fun body =>
  match connection body, sql body with
  | Some connection, Some (c :: q) =>
      let sql := c :: q in
      if negb (isSelectQuery sql) then
        Returns (Status200
          {| estimatedRows := 0; isLargeResult := false;
             warning := None; error := None |})
      else
        bind (getOrCreateProvider connection) (fun provider =>
        let dbType := conn_type connection in
        bind (estimate dbType provider sql) (fun estimatedRows =>
        let isLargeResult :=
          (LARGE_RESULT_THRESHOLD <? estimatedRows)%Z in
        let warning :=
          if isLargeResult then
            Some (str "This query may return ~"
                  ++ formatNumber estimatedRows
                  ++ str " rows. Consider adding filters or using LIMIT.")
          else None in
        Returns (Status200
          {| estimatedRows := estimatedRows;
             isLargeResult := isLargeResult;
             warning := warning; error := None |})))
  | _, _ => Returns (Status400 (str "Connection and SQL query are required"))
  end).

(** The [catch] block. *)
Definition handler (e : exn) : Response :=
  if instanceof_QueryError e then
    Status200 {| estimatedRows := 0; isLargeResult := false;
                 warning := None;
                 error := Some (str "Could not estimate row count") |}
  else if instanceof_TimeoutError e then
    Status200 {| estimatedRows := 0; isLargeResult := false;
                 warning := None;
                 error := Some (str "Estimate timed out") |}
  else if isDatabaseError e then
    Status200 {| estimatedRows := 0; isLargeResult := false;
                 warning := None;
                 error := Some (str "Could not estimate row count") |}
  else
    Status200 {| estimatedRows := 0; isLargeResult := false;
                 warning := None; error := None |}.

Definition POST : Response :=
  match attempt with
  | Returns r => r
  | Throws e => handler e
  end.

End Route.

Arguments Returns {exn A} a.
Arguments Throws {exn A} e.
Arguments bind {exn A B} x k.
Arguments query {exn} p explainSql.
Arguments estimate {exn} dbType provider sql.
Arguments attempt {exn} req_json getOrCreateProvider.
Arguments handler {exn} instanceof_QueryError instanceof_TimeoutError
  isDatabaseError e.
Arguments POST {exn} instanceof_QueryError instanceof_TimeoutError
  isDatabaseError req_json getOrCreateProvider.

End Estimate.

(** ** unnamed/part_011, the route that runs a statement

    [POST] classifies the statement of the request, limits it when it is
    a SELECT statement, runs the result on the provider and reports the
    pagination.  The limit and the offset of the options are natural
    numbers, as the client sends them. *)

Module QueryRoute.

Import QueryLimiter.

(** The [options] of a request; an absent field is [None].  The route does
    not check the fields it reads: [limit] and [offset] are taken here to
    be non-negative integers, the values the pagination of the client
    sends. *)
Record QueryOptions : Type := {
  limit : option N;
  offset : option N;
  unlimited : option bool
}.

(** [pagination] in the body of the answer. *)
Record Pagination : Type := {
  page_limit : N;
  page_offset : N;
  hasMore : bool;
  totalReturned : nat;
  page_wasLimited : bool
}.

Section Route.

(** The exceptions a call can throw, known to the route through the tests
    of its [catch] block and through [message] and [code]. *)
Variable exn : Type.
Variable instanceof_QueryError : exn -> bool.
Variable instanceof_TimeoutError : exn -> bool.
Variable isDatabaseError : exn -> bool.
Variable instanceof_Error : exn -> bool.
Variable message : exn -> text.
Variable code : exn -> option text.

(** The connection of a request, which the route passes on, and the
    result of the provider, of which the route reads [rows.length]. *)
Variable DatabaseConnection : Type.
Variable QueryResult : Type.
Variable rows_length : QueryResult -> nat.

Record RequestBody : Type := {
  connection : option DatabaseConnection;
  sql : option text;
  options : option QueryOptions
}.

Inductive Response : Type :=
| Json200 (result : QueryResult) (pagination : Pagination)
| JsonError (status : N) (error : text) (error_code : option text).

Record Provider : Type := {
  query : text -> Estimate.outcome exn QueryResult
}.

(** The collaborators of one request: [req.json()] and
    [getOrCreateProvider]. *)
Variable req_json : Estimate.outcome exn RequestBody.
Variable getOrCreateProvider :
  DatabaseConnection -> Estimate.outcome exn Provider.

(** The [try] block. *)
Definition attempt : Estimate.outcome exn Response :=
  Estimate.bind req_json (fun body =>
  match connection body, sql body with
  | Some connection, Some (c :: q) =>
      let sql := c :: q in
      let options :=
        match options body with
        | Some o => o
        | None => {| limit := None; offset := None; unlimited := None |}
        end in
      let limit :=
        match limit options with
        | Some l => l
        | None => DEFAULT_QUERY_LIMIT
        end in
      let offset := match offset options with Some o => o | None => 0%N end in
      let unlimited :=
        match unlimited options with Some u => u | None => false end in
      let effectiveLimit := if unlimited then MAX_UNLIMITED_ROWS else limit in
      let queryInfo := analyzeQuery sql in
      let '(finalSql, wasLimited) :=
        if QueryType_eqb (type queryInfo) SELECT then
          let limitResult := applyQueryLimit sql effectiveLimit offset false in
          (QueryLimiter.sql limitResult, QueryLimiter.wasLimited limitResult)
        else (sql, false) in
      Estimate.bind (getOrCreateProvider connection) (fun provider =>
      Estimate.bind (query provider finalSql) (fun result =>
      let hasMore :=
        (N.of_nat (rows_length result) =? effectiveLimit)%N in
      Estimate.Returns
        (Json200 result
           {| page_limit := effectiveLimit;
              page_offset := offset;
              hasMore := hasMore;
              totalReturned := rows_length result;
              page_wasLimited := wasLimited |})))
  | _, _ =>
      Estimate.Returns
        (JsonError 400 (str "Connection and SQL query are required") None)
  end).

(** The [catch] block. *)
Definition handler (e : exn) : Response :=
  if instanceof_QueryError e then JsonError 400 (message e) (code e)
  else if instanceof_TimeoutError e then
    JsonError 408
      (str "Query timed out. Please try a simpler query or increase timeout.")
      None
  else if isDatabaseError e then JsonError 500 (message e) (code e)
  else
    let errorMessage :=
      if instanceof_Error e then message e else str "Unknown error" in
    JsonError 500 errorMessage None.

Definition POST : Response :=
  match attempt with
  | Estimate.Returns r => r
  | Estimate.Throws e => handler e
  end.

End Route.

Arguments connection {DatabaseConnection} r.
Arguments sql {DatabaseConnection} r.
Arguments options {DatabaseConnection} r.
Arguments Json200 {QueryResult} result pagination.
Arguments JsonError {QueryResult} status error error_code.
Arguments query {exn QueryResult} p finalSql.

End QueryRoute.

(** * Notions used in the statements and their proofs *)

(** ** The inputs the embedding is exact on *)

(** The integers from 0 to [Number.MAX_SAFE_INTEGER], 2^53 - 1: the numbers
    that a template literal prints with all their digits and that
    [parseInt] reads without rounding. *)
Definition MAX_SAFE_INTEGER : N := 9007199254740991.

Definition safe (n : N) : bool := (n <=? MAX_SAFE_INTEGER)%N.

(** Text of 7-bit ASCII characters, on which [\s], [trim], [toUpperCase]
    and the [i] flag are those of [is_space], [trim], [toUpperCase] and
    [like]. *)
Definition ascii_text (s : text) : bool :=
  forallb (fun c => (code c <? 128)%N) s.

(** ** Text and patterns *)

Definition prefix_of (a b : text) : Prop := exists z, b = a ++ z.

(** [hd_ok ok s]: [s] is empty or starts with a character satisfying [ok]. *)
Definition hd_ok (ok : ascii -> bool) (s : text) : bool :=
  match s with
  | c :: _ => ok c
  | [] => true
  end.

Definition not_space (c : ascii) : bool := negb (is_space c).

Fixpoint lastp (p : option ascii) (w : text) : option ascii :=
  match w with
  | [] => p
  | c :: w' => lastp (Some c) w'
  end.

(** The characters a pattern can consume. *)
Fixpoint alpha (icase : bool) (r : regex) (c : ascii) : bool :=
  match r with
  | Eps | WordB | Bol | Eol => false
  | Lit p => lit_ok icase p c
  | Space => is_space c
  | Digit => is_digit c
  | Cat a b | Alt a b => alpha icase a c || alpha icase b c
  | Opt a | Star a | Plus a | Group _ a => alpha icase a c
  end.

(** [st'] is [st] moved over the text [w], all of whose characters
    satisfy [ok]. *)
Definition moved (ok : ascii -> bool) (st st' : mstate) : Prop :=
  exists w,
    rest st = w ++ rest st'
    /\ forallb ok w = true
    /\ prev st' = lastp (prev st) w.

(** A pattern that ends with [$]. *)
Fixpoint anchored (r : regex) : bool :=
  match r with
  | Eol => true
  | Cat a Eps => anchored a
  | Cat a b => anchored b
  | _ => false
  end.

(** [r] can match the text [w] in front of [u], after the character [p]. *)
Definition reaches (icase : bool) (r : regex) (p : option ascii) (w u : text)
  : Prop :=
  forall cs, exists cs',
    In (MState (lastp p w) u cs') (run icase r (MState p (w ++ u) cs)).

Fixpoint kw_match (icase : bool) (kw k : text) : bool :=
  match kw, k with
  | [], [] => true
  | a :: kw', c :: k' => lit_ok icase a c && kw_match icase kw' k'
  | _, _ => false
  end.

Fixpoint chain (icase : bool) (p : option ascii) (l : list (regex * text))
         (u : text) : Prop :=
  match l with
  | [] => True
  | (r, w) :: l' =>
      reaches icase r p w (concat (map snd l') ++ u)
      /\ chain icase (lastp p w) l' u
  end.

(** What follows [\b] and the keyword in a pattern. *)
Definition after_keyword (r : regex) : regex :=
  match r with
  | Cat WordB (Cat _ t) => t
  | _ => r
  end.

(** [c] is the letter [q], in either case. *)
Definition like (q c : ascii) : bool := Ascii.eqb (upper c) q.

Definition unlike (q c : ascii) : bool := negb (like q c).

(** The character before a position is not a word character. *)
Definition after_non_word (p : option ascii) : Prop :=
  match p with
  | Some c => is_word c = false
  | None => True
  end.

Definition semicolon (b : bool) : text := if b then str ";" else [].

(** The pieces of a clause [LIMIT n] or [LIMIT n OFFSET m]. *)
Definition offset_part (offset : N) : text :=
  if (0 <? offset)%N then str " OFFSET " ++ dec offset else [].

Definition no_comma (c : ascii) : bool := negb (Ascii.eqb c ",").

(** The body of a statement, as the rewriter leaves it: trimmed and not
    empty. *)
Definition body (b : text) : Prop := b <> [] /\ trim b = b.

Definition non_word (c : ascii) : bool := negb (is_word c).

(** The first character of a text is the letter [q], in either case. *)
Definition first_like (q : ascii) (t : text) : bool :=
  match t with
  | c :: _ => like q c
  | [] => false
  end.

(** [SELECT] stands in the text after [x1], which is empty or starts with
    the word [WITH]. *)
Definition select_at (x1 sel : text) : Prop :=
  kw_match true (str "SELECT") sel = true
  /\ after_non_word (lastp None x1)
  /\ (x1 = []
      \/ exists w l,
           x1 = w ++ l /\ kw_match true (str "WITH") w = true
           /\ hd_ok non_word (l ++ sel) = true).

(** [b] still starts with [x1 ++ sel], followed by a prefix of [x2]. *)
Definition kept (x1 sel x2 b : text) : Prop :=
  exists v, b = x1 ++ sel ++ v /\ prefix_of v x2.


(** The input of the comment and string example. *)
Definition comment_input : text :=
  str "SELECT * FROM t WHERE note = 'LIMIT 10 trick' -- LIMIT 999".

Module RewriterSpec.

Import QueryLimiter.


(** The statement without its trailing clause, as the rewriter computes it
    under a forced override. *)
Definition stripped (s : text) : text :=
  if hasLimit (analyzeQuery s)
  then trim (replace_first_empty true re_strip_standard
               (trim (replace_first_empty true re_strip_mysql (trim s))))
  else trim s.

(** The body the new clause is appended to. *)
Definition statement_body (s : text) : text :=
  if endsWith (stripped s) ";"
  then trim (slice_0_m1 (stripped s))
  else stripped s.

End RewriterSpec.

(** The numeral of [k] tenths, with one decimal. *)
Definition one_decimal (k : Z) : text :=
  dec (Z.to_N (k / 10)) ++ str "." ++ dec (Z.to_N (k mod 10)).

(** [w] is the warning of a large result of about [n] rows: it quotes
    [n] in thousands below a million rows and in millions from there on,
    with one decimal, off by less than a tenth of the unit. *)
Definition magnitude_warning (n : Z) (w : text) : Prop :=
  exists (k scale : Z) (unit : string),
    w = str "This query may return ~" ++ one_decimal k ++ str unit
        ++ str " rows. Consider adding filters or using LIMIT."
    /\ ((n < 1000000 /\ scale = 1000 /\ unit = "K"%string)
        \/ (1000000 <= n /\ scale = 1000000 /\ unit = "M"%string))%Z
    /\ (Z.abs (k * scale - 10 * n) < scale)%Z.

Module EstimateSamples.

Import Estimate.

(** Sample exceptions. *)
Inductive sample_error : Type :=
| a_query_error | a_timeout | a_database_error | a_type_error.

(** The route with a provider that answers every query with [answer]. *)
Definition sample_POST (dbType : string) (q : string)
           (answer : outcome sample_error QueryResult) : Response :=
  POST
    (fun e => match e with a_query_error => true | _ => false end)
    (fun e => match e with a_timeout => true | _ => false end)
    (fun e => match e with a_type_error => false | _ => true end)
    (Returns {| connection := Some {| conn_type := str dbType |};
                sql := Some (str q) |})
    (fun _ => Returns {| query := fun _ => answer |}).

(** The rows of a PostgreSQL EXPLAIN that predicts [planRows] rows. *)
Definition postgres_answer (planRows : Z) : QueryResult :=
  {| rows :=
       Some [ {| QUERY_PLAN :=
                   Some [ {| Plan := Some {| Plan_Rows := Some planRows |} |} ];
                 rows_column := Undefined |} ] |}.

(** The warning of a large result, as the route builds it. *)
Definition large_warning (n : Z) : text :=
  str "This query may return ~" ++ formatNumber n
  ++ str " rows. Consider adding filters or using LIMIT.".

End EstimateSamples.

Module PlanSamples.

Import VisualExplain.

(** The denominator of the status ratio: [bufferHits + bufferReads || 1]. *)
Definition status_denominator (h r : Q) : Q :=
  if Qeq_bool (h + r) 0%Q then 1%Q else (h + r)%Q.

Definition no_root : option (list ExplainPlanResult) :=
  Some [ {| Plan := None; Execution_Time := None; Planning_Time := None |} ].

End PlanSamples.

Module PlanSamples64.

Import Double VisualExplain64.

(** A plan of one node with the given numbers of blocks. *)
Definition hits_reads (hits reads : Z) : option (list ExplainPlanResult) :=
  Some [ {| Plan := Some (PlanNode (Some (str "Index Scan"))
                            (Some (of_Z 10)) (Some (of_Z 10))
                            (Some (literal 5 10)) (Some (literal 85 10))
                            (Some (of_Z hits)) (Some (of_Z reads))
                            (Some (str "orders")) (Some (of_Z 1))
                            None None None);
            Execution_Time := Some (literal 75 100);
            Planning_Time := Some (literal 25 100) |} ].

(** A node that found [hits] blocks in the cache, and its children. *)
Definition cached_node (hits : Z) (children : list ExplainPlanNode)
  : ExplainPlanNode :=
  PlanNode (Some (str "Index Scan")) None None None None
    (Some (of_Z hits)) None None None None None (Some children).

(** Two nodes with 10^308 cached blocks each. *)
Definition overflow_plan : option (list ExplainPlanResult) :=
  Some [ {| Plan := Some (cached_node (10 ^ 308)
                            [cached_node (10 ^ 308) []]);
            Execution_Time := None;
            Planning_Time := None |} ].

(** The value and the status of the cache-hit insight of a plan. *)
Definition cache_hit_of (plan : option (list ExplainPlanResult))
  : option (text * VisualExplain.InsightStatus) :=
  match analyzePlan plan with
  | Some a =>
      match insights a with
      | i :: _ => Some (VisualExplain.value i, VisualExplain.status i)
      | [] => None
      end
  | None => None
  end.

End PlanSamples64.

(** The characters of the numerals [toFixed] prints. *)
Definition numeral_char (c : ascii) : bool :=
  is_digit c || Ascii.eqb c "-" || Ascii.eqb c ".".

Definition not_N (c : ascii) : bool := negb (Ascii.eqb c "N").

(** ** Notions of the further properties *)

(** *** Captures and first characters *)

(** A pattern without capture groups. *)
Fixpoint group_free (r : regex) : bool :=
  match r with
  | Group _ _ => false
  | Cat a b | Alt a b => group_free a && group_free b
  | Opt a | Star a | Plus a => group_free a
  | _ => true
  end.

(** A pattern that can match the empty text. *)
Fixpoint nullable (r : regex) : bool :=
  match r with
  | Lit _ | Space | Digit => false
  | Cat a b => nullable a && nullable b
  | Alt a b => nullable a || nullable b
  | Plus a | Group _ a => nullable a
  | _ => true
  end.

(** The characters a match of the pattern can start with. *)
Fixpoint firsts (icase : bool) (r : regex) (c : ascii) : bool :=
  match r with
  | Eps | WordB | Bol | Eol => false
  | Lit p => lit_ok icase p c
  | Space => is_space c
  | Digit => is_digit c
  | Cat a b => firsts icase a c || (nullable a && firsts icase b c)
  | Alt a b => firsts icase a c || firsts icase b c
  | Opt a | Star a | Plus a | Group _ a => firsts icase a c
  end.

(** The end of the clause patterns: [\s*;?\s*$]. *)
Definition clause_end : regex :=
  seq [Star Space; Opt (Lit ";"); Star Space; Eol].

(** The optional second number of [re_limit]:
    [(?:\s*,\s*(\d+)|\s+OFFSET\s+(\d+))]. *)
Definition second_number : regex :=
  Alt (seq [Star Space; Lit ","; Star Space; Group 2 (Plus Digit)])
      (seq [Plus Space; lits "OFFSET"; Plus Space; Group 3 (Plus Digit)]).

Definition not_digit (c : ascii) : bool := negb (is_digit c).

(** The second number of the two-argument form [LIMIT a, b]. *)
Definition count_part (count : N) : text := str ", " ++ dec count.

(** The clause of the two-argument form, [LIMIT offset, count]. *)
Definition mysqlClause (offset count : N) : text :=
  str "LIMIT " ++ dec offset ++ count_part count.


(** A statement that is not classified as SELECT, or that ends with a
    LIMIT clause. *)
Definition limited_or_not_select (q : text) : bool :=
  negb (QueryLimiter.QueryType_eqb
          (QueryLimiter.type (QueryLimiter.analyzeQuery q))
          QueryLimiter.SELECT)
  || QueryLimiter.hasLimit (QueryLimiter.analyzeQuery q).

(** The limit and the offset in force for a request of the query route:
    100000 in unlimited mode, else the requested limit, else 500; the
    requested offset, else 0. *)
Definition effective_limit (o : option QueryRoute.QueryOptions) : N :=
  let unlimited :=
    match o with
    | Some {| QueryRoute.unlimited := Some u |} => u
    | _ => false
    end in
  let limit :=
    match o with
    | Some {| QueryRoute.limit := Some l |} => l
    | _ => QueryLimiter.DEFAULT_QUERY_LIMIT
    end in
  if unlimited then QueryLimiter.MAX_UNLIMITED_ROWS else limit.

Definition requested_offset (o : option QueryRoute.QueryOptions) : N :=
  match o with
  | Some {| QueryRoute.offset := Some n |} => n
  | _ => 0%N
  end.

(** The options of a request for 50 rows from the 100th on. *)
Definition page_request : option QueryRoute.QueryOptions :=
  Some {| QueryRoute.limit := Some 50%N; QueryRoute.offset := Some 100%N;
          QueryRoute.unlimited := None |}.

Module EstimateRows.

Import Estimate.

(** A row of a MySQL EXPLAIN whose [rows] column is the string of a
    number. *)
Definition text_row (n : N) : Row :=
  {| QUERY_PLAN := None; rows_column := Text (dec n) |}.

(** The estimate of a statement that is not estimated. *)
Definition no_estimate : RowEstimateResult :=
  {| estimatedRows := 0; isLargeResult := false;
     warning := None; error := None |}.

End EstimateRows.

(** [covers r' r]: the pattern [r'] is [r] with capture groups and
    alternatives added, so that [r'] matches wherever [r] does. *)
Fixpoint covers (r' r : regex) : bool :=
  match r' with
  | Group _ a' => covers a' r
  | Alt a' b' => covers a' r || covers b' r
  | Cat a' b' =>
      match r with Cat a b => covers a' a && covers b' b | _ => false end
  | Opt a' => match r with Opt a => covers a' a | _ => false end
  | Star a' => match r with Star a => covers a' a | _ => false end
  | Plus a' => match r with Plus a => covers a' a | _ => false end
  | Lit p' => match r with Lit p => Ascii.eqb p' p | _ => false end
  | Eps => match r with Eps => true | _ => false end
  | Space => match r with Space => true | _ => false end
  | Digit => match r with Digit => true | _ => false end
  | WordB => match r with WordB => true | _ => false end
  | Bol => match r with Bol => true | _ => false end
  | Eol => match r with Eol => true | _ => false end
  end.

(** Two positions of the matcher at the same place of the input. *)
Definition same_place (st st' : mstate) : Prop :=
  prev st = prev st' /\ rest st = rest st'.

Module PlanTraversal.

Import VisualExplain.

(** The nodes of a plan tree: a node before its children, the children from
    left to right. *)
Fixpoint nodes (n : ExplainPlanNode) : list ExplainPlanNode :=
  n :: match Plans n with
       | Some children =>
           (fix all (l : list ExplainPlanNode) : list ExplainPlanNode :=
              match l with
              | [] => []
              | c :: l' => nodes c ++ all l'
              end) children
       | None => []
       end.

(** [visit] on the nodes of a list, one after the other. *)
Fixpoint visit_all (l : list ExplainPlanNode) (a : Acc) : option Acc :=
  match l with
  | [] => Some a
  | n :: l' => a <- visit n a ;; visit_all l' a
  end.

(** The warnings [visit] adds for a node. *)
Definition node_warnings (n : ExplainPlanNode) : list Warning :=
  match visit n start with
  | Some a => acc_warnings a
  | None => []
  end.

(** The conditions of the sequential-scan rule and of the loop rule. *)
Definition seq_scan_rule (n : ExplainPlanNode) : bool :=
  includes (text_or (Node_Type n) []) (str "Seq Scan")
  && Qgtb (num_or (Actual_Rows n) 0) 10000.

Definition loop_rule (n : ExplainPlanNode) : bool :=
  includes (text_or (Node_Type n) []) (str "Nested Loop")
  && Qgtb (num_nullish (Actual_Loops n) 1) 1000.


Definition sort_rule (n : ExplainPlanNode) : bool :=
  includes (text_or (Node_Type n) []) (str "Sort")
  && Qgtb (num_or (Actual_Total_Time n) 0) 100.

(** A plan made of one tree. *)
Definition plan_of (root : ExplainPlanNode) : option (list ExplainPlanResult) :=
  Some [ {| Plan := Some root; Execution_Time := None;
            Planning_Time := None |} ].

(** A node with a type, estimated and actual rows, and a time. *)
Definition timed_node (ty : string) (planRows rows time : Q)
  : ExplainPlanNode :=
  PlanNode (Some (str ty)) (Some rows) (Some planRows) (Some time) None None
    None None None None None None.

(** A node with a type, a number of rows, a number of loops and
    children. *)
Definition sample_node (ty : string) (rows loops : Q)
           (children : list ExplainPlanNode) : ExplainPlanNode :=
  PlanNode (Some (str ty)) (Some rows) None None None None None None
    (Some loops) None None (Some children).

End PlanTraversal.

(** * Properties *)

(** ** Text *)

Lemma prefix_of_refl a : prefix_of a a.
Proof. exists []. now rewrite app_nil_r. Qed.

Lemma prefix_of_trans a b c : prefix_of a b -> prefix_of b c -> prefix_of a c.
Proof. intros [z ->] [z' ->]. exists (z ++ z'). now rewrite app_assoc. Qed.

Lemma prefix_of_app a b : prefix_of a (a ++ b).
Proof. now exists b. Qed.

Lemma drop_space_hd s : hd_ok not_space (drop_space s) = true.
Proof.
  induction s as [|c s IH]; simpl; [reflexivity|].
  destruct (is_space c) eqn:E; [exact IH|]. simpl. unfold not_space.
  now rewrite E.
Qed.

Lemma drop_space_id s : hd_ok not_space s = true -> drop_space s = s.
Proof.
  destruct s as [|c s]; simpl; [reflexivity|]. unfold not_space.
  now destruct (is_space c).
Qed.

Lemma drop_space_suffix s : exists sp, s = sp ++ drop_space s /\ forallb is_space sp = true.
Proof.
  induction s as [|c s (sp & E & F)]; simpl.
  - now exists [].
  - destruct (is_space c) eqn:C.
    + exists (c :: sp). simpl. rewrite C, F. split; [now f_equal|reflexivity].
    + now exists [].
Qed.

(** Dropping spaces in front of [a ++ b], where [b] starts with a character
    that is not a space, stops inside [a] or right before [b]. *)
Lemma drop_space_app a b c :
  is_space c = false ->
  exists a', drop_space (a ++ c :: b) = a' ++ c :: b /\ exists sp, a = sp ++ a'.
Proof.
  intros C. induction a as [|x a (a' & E & sp & S)]; simpl.
  - rewrite C. exists []. split; [reflexivity|]. now exists [].
  - destruct (is_space x).
    + exists a'. split; [exact E|]. exists (x :: sp). now rewrite S.
    + exists (x :: a). split; [reflexivity|]. now exists [].
Qed.

Lemma trim_hd s : hd_ok not_space (trim s) = true.
Proof.
  unfold trim.
  destruct (drop_space_suffix (rev (drop_space s))) as (sp & E & _).
  set (d := drop_space (rev (drop_space s))) in *.
  assert (H : drop_space s = rev d ++ rev sp).
  { rewrite <- rev_app_distr, <- E. now rewrite rev_involutive. }
  pose proof (drop_space_hd s) as D. rewrite H in D.
  destruct (rev d) as [|c r]; [reflexivity|exact D].
Qed.

Lemma trim_last s : hd_ok not_space (rev (trim s)) = true.
Proof. unfold trim. rewrite rev_involutive. apply drop_space_hd. Qed.

Lemma trim_id s :
  hd_ok not_space s = true -> hd_ok not_space (rev s) = true -> trim s = s.
Proof.
  intros H L. unfold trim.
  rewrite (drop_space_id s H), (drop_space_id _ L). apply rev_involutive.
Qed.

Lemma trim_idem s : trim (trim s) = trim s.
Proof. apply trim_id; [apply trim_hd | apply trim_last]. Qed.

Lemma trim_app_space s c : is_space c = true -> trim (s ++ [c]) = trim s.
Proof.
  intros C. unfold trim. f_equal.
  destruct (drop_space_suffix s) as (sp & E & F).
  destruct (drop_space s) as [|x d] eqn:D.
  - rewrite app_nil_r in E. subst sp.
    assert (Z : drop_space (s ++ [c]) = []).
    { clear D. induction s as [|y s IH]; simpl; [now rewrite C|].
      simpl in F. apply andb_prop in F. destruct F as [-> F]. auto. }
    now rewrite Z.
  - assert (X : is_space x = false).
    { pose proof (drop_space_hd s) as H. rewrite D in H. simpl in H.
      unfold not_space in H. now destruct (is_space x). }
    assert (Z : drop_space (s ++ [c]) = (x :: d) ++ [c]).
    { rewrite E at 1. rewrite <- app_assoc. clear E D.
      induction sp as [|y sp IH]; simpl; [now rewrite X|].
      simpl in F. apply andb_prop in F. destruct F as [-> F]. auto. }
    rewrite Z, rev_app_distr. simpl rev at 1. simpl app.
    cbn [drop_space]. now rewrite C.
Qed.

(** [trim] keeps a prefix that starts and ends with characters that are not
    spaces, and what follows it is a prefix of what followed it. *)
Lemma trim_keeps y v :
  y <> [] ->
  hd_ok not_space y = true -> hd_ok not_space (rev y) = true ->
  exists v', trim (y ++ v) = y ++ v' /\ prefix_of v' v.
Proof.
  intros N H L. unfold trim.
  assert (D : drop_space (y ++ v) = y ++ v).
  { apply drop_space_id. destruct y; [contradiction|exact H]. }
  rewrite D, rev_app_distr.
  destruct (rev y) as [|c ry] eqn:R.
  { apply (f_equal (@rev ascii)) in R. rewrite rev_involutive in R.
    now subst y. }
  simpl in L. unfold not_space in L. apply negb_true_iff in L.
  destruct (drop_space_app (rev v) ry c L) as (a' & E & sp & S).
  rewrite E. exists (rev a').
  rewrite rev_app_distr.
  change (c :: ry) with (rev y) at 1 || rewrite <- R.
  rewrite rev_involutive. split; [reflexivity|].
  exists (rev sp). rewrite <- rev_app_distr, <- S. now rewrite rev_involutive.
Qed.

Lemma endsWith_app_last s c x : endsWith (s ++ [c]) x = Ascii.eqb c x.
Proof. unfold endsWith. now rewrite rev_app_distr. Qed.

(** ** Decimal digits *)

Lemma code_digit d : (d < 10)%N -> code (ascii_of_N (48 + d)) = (48 + d)%N.
Proof.
  intros H. unfold code. apply N_ascii_embedding. lia.
Qed.

Lemma digits_fuel_spec fuel :
  forall n acc, exists ds,
    digits_fuel fuel n acc = ds ++ acc
    /\ forallb is_digit ds = true
    /\ (fuel <> 0 -> ds <> []).
Proof.
  induction fuel as [|f IH]; intros n acc; cbn [digits_fuel].
  - exists []. repeat split. intros C. now contradiction C.
  - assert (D : is_digit (ascii_of_N (48 + n mod 10)) = true).
    { unfold is_digit. rewrite code_digit by (apply N.mod_lt; discriminate).
      assert (M : (n mod 10 < 10)%N) by (apply N.mod_lt; discriminate).
      revert M. generalize (n mod 10)%N. intros d M.
      apply andb_true_intro. split; apply N.leb_le; lia. }
    destruct (n <? 10)%N.
    + exists [ascii_of_N (48 + n mod 10)]. cbn [forallb app]. rewrite D.
      repeat split. discriminate.
    + destruct (IH (n / 10)%N (ascii_of_N (48 + n mod 10) :: acc))
        as (ds & E & F & _).
      exists (ds ++ [ascii_of_N (48 + n mod 10)]).
      rewrite E, <- app_assoc. split; [reflexivity|].
      rewrite forallb_app, F. cbn [forallb]. rewrite D. split; [reflexivity|].
      intros _. destruct ds; discriminate.
Qed.

Lemma dec_digits n : forallb is_digit (dec n) = true.
Proof.
  unfold dec. destruct (digits_fuel_spec (S (N.to_nat (N.log2 n))) n [])
    as (ds & E & F & _).
  rewrite E, app_nil_r. exact F.
Qed.

Lemma dec_nonempty n : dec n <> [].
Proof.
  unfold dec. destruct (digits_fuel_spec (S (N.to_nat (N.log2 n))) n [])
    as (ds & E & _ & N).
  rewrite E, app_nil_r. apply N. discriminate.
Qed.

Lemma digits_fuel_acc fuel :
  forall n acc, digits_fuel fuel n acc = digits_fuel fuel n [] ++ acc.
Proof.
  induction fuel as [|f IH]; intros n acc; cbn [digits_fuel]; [reflexivity|].
  destruct (n <? 10)%N; [reflexivity|].
  rewrite IH, (IH _ [_]), <- app_assoc. reflexivity.
Qed.

Lemma digits_fuel_irrel f :
  forall f' n acc,
    (n < 10 ^ N.of_nat (S f))%N -> (n < 10 ^ N.of_nat (S f'))%N ->
    digits_fuel (S f) n acc = digits_fuel (S f') n acc.
Proof.
  induction f as [|f IH]; intros f' n acc B B'; cbn [digits_fuel];
    destruct (n <? 10)%N eqn:Lt; try reflexivity.
  - apply N.ltb_ge in Lt. cbn in B. lia.
  - apply N.ltb_ge in Lt.
    assert (D : (1 <= n / 10)%N) by (apply N.div_le_lower_bound; lia).
    assert (D' : (n / 10 < 10 ^ N.of_nat f')%N).
    { apply N.Div0.div_lt_upper_bound.
      now rewrite Nat2N.inj_succ, N.pow_succ_r' in B'. }
    destruct f' as [|f']; [cbn in D'; lia|].
    apply IH; [|exact D'].
    apply N.Div0.div_lt_upper_bound.
    now rewrite (Nat2N.inj_succ (S f)), N.pow_succ_r' in B.
Qed.

Lemma dec_fuel f n :
  (n < 10 ^ N.of_nat (S f))%N -> dec n = digits_fuel (S f) n [].
Proof.
  intros B. unfold dec. apply digits_fuel_irrel; [|exact B].
  rewrite Nat2N.inj_succ, N2Nat.id.
  apply (N.lt_le_trans _ (2 ^ N.succ (N.log2 n))).
  - destruct n as [|q]; [reflexivity|]. apply N.log2_spec. reflexivity.
  - apply N.pow_le_mono_l. lia.
Qed.

Lemma dec_small n : (n < 10)%N -> dec n = [ascii_of_N (48 + n)].
Proof.
  intros B. rewrite (dec_fuel 0) by (cbn; lia). cbn [digits_fuel].
  apply N.ltb_lt in B as B'. rewrite B'. now rewrite N.mod_small.
Qed.

Lemma dec_snoc n :
  (10 <= n)%N -> dec n = dec (n / 10) ++ dec (n mod 10).
Proof.
  intros B.
  assert (M : (n mod 10 < 10)%N) by (apply N.mod_lt; discriminate).
  pose (f := N.to_nat (N.log2 n)).
  assert (Bn : (n < 10 ^ N.of_nat (S (S f)))%N).
  { unfold f. rewrite !Nat2N.inj_succ, N2Nat.id.
    apply (N.lt_le_trans _ (2 ^ N.succ (N.log2 n))).
    - destruct n as [|q]; [reflexivity|]. apply N.log2_spec. reflexivity.
    - rewrite N.pow_succ_r'. rewrite (N.pow_succ_r' 10 (N.succ _)).
      assert (2 ^ N.log2 n <= 10 ^ N.succ (N.log2 n))%N; [|lia].
      rewrite N.pow_succ_r'.
      assert (2 ^ N.log2 n <= 10 ^ N.log2 n)%N
        by (apply N.pow_le_mono_l; lia).
      lia. }
  rewrite (dec_fuel (S f) n Bn).
  change (digits_fuel (S (S f)) n [])
    with (if (n <? 10)%N then [ascii_of_N (48 + n mod 10)]
          else digits_fuel (S f) (n / 10) [ascii_of_N (48 + n mod 10)]).
  replace (n <? 10)%N with false by (symmetry; apply N.ltb_ge; exact B).
  rewrite digits_fuel_acc, <- dec_fuel.
  - now rewrite (dec_small _ M).
  - apply N.Div0.div_lt_upper_bound.
    now rewrite (Nat2N.inj_succ (S f)), N.pow_succ_r' in Bn.
Qed.

Lemma firstn_length_app (a b : text) : firstn (length a) (a ++ b) = a.
Proof. induction a as [|c a IH]; [reflexivity|]. cbn. now rewrite IH. Qed.

Lemma skipn_length_app (a b : text) : skipn (length a) (a ++ b) = b.
Proof. induction a as [|c a IH]; [reflexivity|]. exact IH. Qed.

(** [toFixed(1)] of a quotient of integers. *)
Lemma toFixed_quotient (n : Z) (d : positive) :
  (0 <= n)%Z -> (10 <= (20 * n + Zpos d) / (2 * Zpos d))%Z ->
  toFixed 1 (inject_Z n / inject_Z (Zpos d))%Q
  = one_decimal ((20 * n + Zpos d) / (2 * Zpos d)).
Proof.
  intros N0 K. unfold toFixed.
  assert (Qn : Qnum (inject_Z n / inject_Z (Zpos d))%Q = n)
    by (cbn; apply Z.mul_1_r).
  assert (Qd : Qden (inject_Z n / inject_Z (Zpos d))%Q = d) by reflexivity.
  assert (Neg : Qltb (inject_Z n / inject_Z (Zpos d))%Q 0%Q = false).
  { unfold Qltb, Qle_bool. rewrite Qn. cbn. apply negb_false_iff.
    apply Z.leb_le. lia. }
  rewrite Qn, Qd, Neg. cbv zeta. rewrite Z.abs_eq by exact N0.
  change (10 ^ Z.of_nat 1)%Z with 10%Z.
  replace (2 * n * 10 + Zpos d)%Z with (20 * n + Zpos d)%Z by lia.
  set (k := ((20 * n + Zpos d) / (2 * Zpos d))%Z) in *.
  assert (Kn : (10 <= Z.to_N k)%N) by lia.
  rewrite (dec_snoc _ Kn).
  assert (M : (Z.to_N k mod 10 < 10)%N) by (apply N.mod_lt; discriminate).
  rewrite (dec_small _ M).
  assert (L : length (dec (Z.to_N k / 10) ++ [ascii_of_N (48 + Z.to_N k mod 10)])
              = S (length (dec (Z.to_N k / 10))))
    by (rewrite length_app; cbn; lia).
  assert (L1 : length (dec (Z.to_N k / 10)) <> O).
  { pose proof (dec_nonempty (Z.to_N k / 10)) as Ne.
    destruct (dec (Z.to_N k / 10)); [contradiction|discriminate]. }
  rewrite L.
  replace (2 - S (length (dec (Z.to_N k / 10))))%nat with O by lia.
  cbn [repeat app Nat.eqb]. rewrite L.
  replace (S (length (dec (Z.to_N k / 10))) - 1)%nat
    with (length (dec (Z.to_N k / 10))) by lia.
  rewrite firstn_length_app, skipn_length_app.
  unfold one_decimal.
  assert (K0 : (0 <= k)%Z) by lia.
  rewrite <- (dec_small _ M).
  replace (Z.to_N (k / 10)) with (Z.to_N k / 10)%N
    by (rewrite Z2N.inj_div by lia; reflexivity).
  replace (Z.to_N (k mod 10)) with (Z.to_N k mod 10)%N
    by (rewrite Z2N.inj_mod by lia; reflexivity).
  reflexivity.
Qed.

(** ** The matcher *)

Lemma lastp_app p w1 w2 : lastp p (w1 ++ w2) = lastp (lastp p w1) w2.
Proof. revert p. induction w1 as [|c w1 IH]; intros p; simpl; auto. Qed.

Lemma moved_refl ok st : moved ok st st.
Proof. exists []. repeat split. Qed.

Lemma moved_trans ok st m st' : moved ok st m -> moved ok m st' -> moved ok st st'.
Proof.
  intros (w1 & R1 & F1 & P1) (w2 & R2 & F2 & P2).
  exists (w1 ++ w2). rewrite R1, R2, app_assoc. split; [reflexivity|].
  rewrite forallb_app, F1, F2, P2, P1, lastp_app. auto.
Qed.

Lemma moved_weaken (ok ok' : ascii -> bool) st st' :
  (forall c, ok c = true -> ok' c = true) -> moved ok st st' -> moved ok' st st'.
Proof.
  intros W (w & R & F & P). exists w. repeat split; auto.
  rewrite forallb_forall in *. auto.
Qed.

Lemma step_char_moved ok st st' :
  In st' (step_char ok st) -> moved ok st st'.
Proof.
  unfold step_char. destruct (rest st) as [|c t] eqn:E; [contradiction|].
  destruct (ok c) eqn:O; [|contradiction].
  intros [<-|[]]. exists [c]. simpl. rewrite O, E. auto.
Qed.

Lemma guard_moved ok b st st' : In st' (guard b st) -> moved ok st st'.
Proof.
  unfold guard. destruct b; [|contradiction].
  intros [<-|[]]. apply moved_refl.
Qed.

Lemma star_moved ok step :
  (forall st st', In st' (step st) -> moved ok st st') ->
  forall fuel st st', In st' (star step fuel st) -> moved ok st st'.
Proof.
  intros S. induction fuel as [|f IH]; intros st st'; simpl.
  - intros [<-|[]]. apply moved_refl.
  - rewrite in_app_iff, in_flat_map. intros [(m & Hm & H)|[<-|[]]].
    + destruct (length (rest m) <? length (rest st)); [|contradiction].
      eapply moved_trans; [apply S, Hm | apply IH, H].
    + apply moved_refl.
Qed.

Lemma run_moved icase r :
  forall st st', In st' (run icase r st) -> moved (alpha icase r) st st'.
Proof.
  induction r; intros st st'; cbn [run].
  - intros [<-|[]]. apply moved_refl.
  - apply step_char_moved.
  - apply step_char_moved.
  - apply step_char_moved.
  - apply guard_moved.
  - apply guard_moved.
  - apply guard_moved.
  - rewrite in_flat_map. intros (m & Hm & H).
    eapply moved_trans; (eapply moved_weaken; [|eauto]); simpl; intros c ->;
      auto using orb_true_r.
  - rewrite in_app_iff. intros [H|H];
      (eapply moved_weaken; [|eauto]); simpl; intros c ->;
      auto using orb_true_r.
  - rewrite in_app_iff. intros [H|[<-|[]]]; [auto | apply moved_refl].
  - apply star_moved. exact IHr.
  - rewrite in_flat_map. intros (m & Hm & H).
    eapply moved_trans; [apply IHr, Hm|].
    eapply star_moved; [exact IHr | exact H].
  - rewrite in_map_iff. intros (m & <- & Hm).
    destruct (IHr _ _ Hm) as (w & R & F & P). exists w. auto.
Qed.

Lemma run_anchored icase r :
  anchored r = true ->
  forall st st', In st' (run icase r st) -> rest st' = [].
Proof.
  induction r; try discriminate.
  - intros _ st st'. simpl. destruct (rest st) eqn:E; [|contradiction].
    intros [<-|[]]. exact E.
  - intros A st st'. cbn [run]. rewrite in_flat_map. intros (m & Hm & H).
    destruct r2; try (now apply (IHr2 A m st' H));
      try discriminate.
    simpl in H. destruct H as [<-|[]]. now apply (IHr1 A st).
Qed.

Lemma star_fuel_mono step :
  forall f f' st x, f <= f' -> In x (star step f st) -> In x (star step f' st).
Proof.
  induction f as [|f IH]; intros f' st x L.
  - simpl. intros [<-|[]]. destruct f'; simpl; [auto|].
    rewrite in_app_iff. right. now left.
  - destruct f' as [|f']; [lia|]. simpl.
    rewrite !in_app_iff, !in_flat_map. intros [(m & Hm & H)|H]; [|auto].
    left. exists m. split; [exact Hm|].
    destruct (length (rest m) <? length (rest st)); [|contradiction].
    apply IH; [lia | exact H].
Qed.

Section Reaches.

Variable icase : bool.

Lemma reaches_eps p u : reaches icase Eps p [] u.
Proof. intros cs. exists cs. now left. Qed.

Lemma reaches_char ok r p c u :
  (forall st, run icase r st = step_char ok st) ->
  ok c = true -> reaches icase r p [c] u.
Proof.
  intros R O cs. exists cs. rewrite R. unfold step_char. simpl.
  rewrite O. now left.
Qed.

Lemma reaches_lit a p c u :
  lit_ok icase a c = true -> reaches icase (Lit a) p [c] u.
Proof. apply reaches_char. reflexivity. Qed.

Lemma reaches_space p c u : is_space c = true -> reaches icase Space p [c] u.
Proof. apply reaches_char. reflexivity. Qed.

Lemma reaches_digit p c u : is_digit c = true -> reaches icase Digit p [c] u.
Proof. apply reaches_char. reflexivity. Qed.

Lemma reaches_wordb p u :
  at_boundary (MState p u []) = true -> reaches icase WordB p [] u.
Proof.
  intros B cs. exists cs. simpl. unfold at_boundary in *. simpl in *.
  rewrite B. now left.
Qed.

Lemma reaches_bol u : reaches icase Bol None [] u.
Proof. intros cs. exists cs. now left. Qed.

Lemma reaches_eol p : reaches icase Eol p [] [].
Proof. intros cs. exists cs. now left. Qed.

Lemma reaches_cat a b p w1 w2 u :
  reaches icase a p w1 (w2 ++ u) ->
  reaches icase b (lastp p w1) w2 u ->
  reaches icase (Cat a b) p (w1 ++ w2) u.
Proof.
  intros A B cs. destruct (A cs) as [cs1 H1]. destruct (B cs1) as [cs2 H2].
  exists cs2. cbn [run]. rewrite in_flat_map.
  eexists. rewrite <- app_assoc. split; [exact H1|].
  rewrite lastp_app. exact H2.
Qed.

Lemma reaches_alt_l a b p w u :
  reaches icase a p w u -> reaches icase (Alt a b) p w u.
Proof.
  intros A cs. destruct (A cs) as [cs1 H1]. exists cs1. cbn [run].
  rewrite in_app_iff. now left.
Qed.

Lemma reaches_alt_r a b p w u :
  reaches icase b p w u -> reaches icase (Alt a b) p w u.
Proof.
  intros A cs. destruct (A cs) as [cs1 H1]. exists cs1. cbn [run].
  rewrite in_app_iff. now right.
Qed.

Lemma reaches_opt a p w u :
  reaches icase a p w u -> reaches icase (Opt a) p w u.
Proof.
  intros A cs. destruct (A cs) as [cs1 H1]. exists cs1. cbn [run].
  rewrite in_app_iff. now left.
Qed.

Lemma reaches_opt_skip a p u : reaches icase (Opt a) p [] u.
Proof.
  intros cs. exists cs. cbn [run]. rewrite in_app_iff. right. now left.
Qed.

Lemma reaches_group n a p w u :
  reaches icase a p w u -> reaches icase (Group n a) p w u.
Proof.
  intros A cs. destruct (A cs) as [cs1 H1]. cbn [run].
  eexists. rewrite in_map_iff. eexists. split; [|exact H1].
  unfold set_cap. cbn [prev rest caps]. reflexivity.
Qed.

Lemma reaches_star_stop a p u : reaches icase (Star a) p [] u.
Proof.
  intros cs. exists cs. cbn [run]. simpl. rewrite in_app_iff. right. now left.
Qed.

Lemma reaches_star_more a p c w1 w2 u :
  reaches icase a p (c :: w1) (w2 ++ u) ->
  reaches icase (Star a) (lastp p (c :: w1)) w2 u ->
  reaches icase (Star a) p ((c :: w1) ++ w2) u.
Proof.
  intros A B cs. destruct (A cs) as [cs1 H1]. destruct (B cs1) as [cs2 H2].
  exists cs2. cbn [run] in *. cbn [rest] in *. cbn [star].
  rewrite in_app_iff, in_flat_map. left.
  eexists. rewrite <- app_assoc. split; [exact H1|]. cbn [rest].
  assert (L : (length (w2 ++ u) <? length ((c :: w1) ++ w2 ++ u)) = true).
  { apply Nat.ltb_lt. simpl. rewrite !length_app. lia. }
  rewrite L. rewrite lastp_app.
  eapply star_fuel_mono; [|exact H2].
  simpl. rewrite !length_app. lia.
Qed.

Lemma reaches_plus a p c w1 w2 u :
  reaches icase a p (c :: w1) (w2 ++ u) ->
  reaches icase (Star a) (lastp p (c :: w1)) w2 u ->
  reaches icase (Plus a) p ((c :: w1) ++ w2) u.
Proof.
  intros A B cs. destruct (A cs) as [cs1 H1]. destruct (B cs1) as [cs2 H2].
  exists cs2. cbn [run] in *. rewrite in_flat_map.
  eexists. rewrite <- app_assoc. split; [exact H1|].
  rewrite lastp_app. exact H2.
Qed.

(** A run of characters of one class. *)
Lemma reaches_star_class ok r :
  (forall st, run icase r st = step_char ok st) ->
  forall w p u, forallb ok w = true -> reaches icase (Star r) p w u.
Proof.
  intros R. induction w as [|c w IH]; intros p u F.
  - apply reaches_star_stop.
  - simpl in F. apply andb_prop in F. destruct F as [Fc Fw].
    apply (reaches_star_more r p c [] w u).
    + apply (reaches_char ok); assumption.
    + apply IH, Fw.
Qed.

Lemma reaches_plus_class ok r :
  (forall st, run icase r st = step_char ok st) ->
  forall w p u, w <> [] -> forallb ok w = true -> reaches icase (Plus r) p w u.
Proof.
  intros R [|c w] p u N F; [contradiction|].
  simpl in F. apply andb_prop in F. destruct F as [Fc Fw].
  apply (reaches_plus r p c [] w u).
  - apply (reaches_char ok); assumption.
  - apply (reaches_star_class ok); assumption.
Qed.

Lemma reaches_spaces w p u :
  forallb is_space w = true -> reaches icase (Star Space) p w u.
Proof. apply (reaches_star_class is_space). reflexivity. Qed.

Lemma reaches_spaces1 w p u :
  w <> [] -> forallb is_space w = true -> reaches icase (Plus Space) p w u.
Proof. apply (reaches_plus_class is_space). reflexivity. Qed.

Lemma reaches_digits1 w p u :
  w <> [] -> forallb is_digit w = true -> reaches icase (Plus Digit) p w u.
Proof. apply (reaches_plus_class is_digit). reflexivity. Qed.

End Reaches.

Lemma lastp_None p w : lastp p w = None -> p = None /\ w = [].
Proof.
  revert p. induction w as [|c w IH]; intros p; simpl; [auto|].
  intros H. apply IH in H. destruct H as [H _]. discriminate H.
Qed.

Lemma lastp_ok (ok : ascii -> bool) p w :
  w <> [] -> forallb ok w = true -> exists c, lastp p w = Some c /\ ok c = true.
Proof.
  revert p. induction w as [|c w IH]; intros p N F; [contradiction|].
  simpl in *. apply andb_prop in F. destruct F as [Fc Fw].
  destruct w as [|d w]; [exists c; auto|].
  apply IH; [discriminate|exact Fw].
Qed.

(** *** Searching *)

Section Exec.

Variable icase : bool.
Variable r : regex.

Lemma exec_at_sound :
  forall s b0 p before m,
    exec_at icase r b0 p s = Some (before, m) ->
    exists x w,
      s = x ++ w /\ before = b0 ++ x
      /\ In m (run icase r (MState (lastp p x) w [])).
Proof.
  induction s as [|c s IH]; intros b0 p before m; cbn [exec_at].
  - destruct (run icase r (MState p [] [])) as [|m0 l] eqn:R; [discriminate|].
    intros H. injection H as <- <-. exists [], [].
    split; [reflexivity|]. split; [now rewrite app_nil_r|].
    cbn [lastp]. rewrite R. now left.
  - destruct (run icase r (MState p (c :: s) [])) as [|m0 l] eqn:R.
    + intros H. apply IH in H. destruct H as (x & w & -> & -> & H).
      exists (c :: x), w. rewrite <- app_assoc.
      split; [reflexivity|]. split; [reflexivity|]. exact H.
    + intros H. injection H as <- <-. exists [], (c :: s).
      split; [reflexivity|]. split; [now rewrite app_nil_r|].
      cbn [lastp]. rewrite R. now left.
Qed.

Lemma exec_at_first :
  forall x b0 p y,
    (forall x1 c x2,
       x = x1 ++ c :: x2 ->
       run icase r (MState (lastp p x1) (c :: x2 ++ y) []) = []) ->
    run icase r (MState (lastp p x) y []) <> [] ->
    exists m,
      exec_at icase r b0 p (x ++ y) = Some (b0 ++ x, m)
      /\ In m (run icase r (MState (lastp p x) y [])).
Proof.
  induction x as [|c x IH]; intros b0 p y No Yes.
  - cbn [lastp app] in *. rewrite app_nil_r.
    destruct (run icase r (MState p y [])) as [|m l] eqn:R; [contradiction|].
    exists m. split; [|now left].
    destruct y; cbn [exec_at]; now rewrite R.
  - cbn [app exec_at].
    pose proof (No [] c x eq_refl) as N0. cbn [lastp] in N0. rewrite N0.
    destruct (IH (b0 ++ [c]) (Some c) y) as (m & E & H).
    + intros x1 d x2 ->. apply (No (c :: x1) d x2). reflexivity.
    + exact Yes.
    + exists m. rewrite E, <- app_assoc. auto.
Qed.


Lemma exec_at_exists :
  forall x b0 p y,
    run icase r (MState (lastp p x) y []) <> [] ->
    exec_at icase r b0 p (x ++ y) <> None.
Proof.
  induction x as [|c x IH]; intros b0 p y Yes.
  - cbn [lastp app] in *.
    destruct (run icase r (MState p y [])) as [|m l] eqn:R; [contradiction|].
    destruct y; cbn [exec_at]; rewrite R; discriminate.
  - cbn [app exec_at].
    destruct (run icase r (MState p (c :: x ++ y) [])); [|discriminate].
    apply IH. exact Yes.
Qed.

Lemma reaches_run p w u :
  reaches icase r p w u -> run icase r (MState p (w ++ u) []) <> [].
Proof.
  intros H. destruct (H []) as [cs I]. intros E. rewrite E in I. exact I.
Qed.

(** A pattern that ends with [$], when it matches, is replaced together
    with the rest of the text. *)
Lemma replace_anchored :
  anchored r = true ->
  forall s,
    replace_first_empty icase r s = s
    \/ exists x w m,
         s = x ++ w /\ replace_first_empty icase r s = x
         /\ In m (run icase r (MState (lastp None x) w [])).
Proof.
  intros A s. unfold replace_first_empty, exec.
  destruct (exec_at icase r [] None s) as [[before m]|] eqn:E; [|now left].
  right. apply exec_at_sound in E. destruct E as (x & w & -> & -> & H).
  exists x, w, m. rewrite (run_anchored icase r A _ _ H), app_nil_r.
  auto.
Qed.

End Exec.

(** *** Keywords *)

Lemma run_cat_inv icase a b st st' :
  In st' (run icase (Cat a b) st) ->
  exists m, In m (run icase a st) /\ In st' (run icase b m).
Proof. cbn [run]. rewrite in_flat_map. auto. Qed.

Lemma lits_sound icase kw :
  forall st m,
    In m (run icase (seq (map Lit kw)) st) ->
    exists k,
      rest st = k ++ rest m /\ prev m = lastp (prev st) k
      /\ kw_match icase kw k = true.
Proof.
  induction kw as [|a kw IH]; intros st m.
  - cbn. intros [<-|[]]. now exists [].
  - change (seq (map Lit (a :: kw))) with (Cat (Lit a) (seq (map Lit kw))).
    intros H. apply run_cat_inv in H. destruct H as (m1 & H1 & H2).
    cbn [run] in H1. unfold step_char in H1.
    destruct (rest st) as [|c t] eqn:E; [contradiction|].
    destruct (lit_ok icase a c) eqn:O; [|contradiction].
    destruct H1 as [<-|[]].
    apply IH in H2. destruct H2 as (k & R & P & K). cbn [rest prev] in *.
    exists (c :: k). cbn. rewrite O, K, R. auto.
Qed.

Lemma reaches_lits icase kw :
  forall k p u,
    kw_match icase kw k = true -> reaches icase (seq (map Lit kw)) p k u.
Proof.
  induction kw as [|a kw IH]; intros [|c k] p u K; try discriminate.
  - apply reaches_eps.
  - cbn in K. apply andb_prop in K. destruct K as [O K].
    change (seq (map Lit (a :: kw))) with (Cat (Lit a) (seq (map Lit kw))).
    apply (reaches_cat icase (Lit a) _ p [c] k u).
    + now apply reaches_lit.
    + now apply IH.
Qed.

Lemma kw_match_length icase kw k :
  kw_match icase kw k = true -> length k = length kw.
Proof.
  revert k. induction kw as [|a kw IH]; intros [|c k]; try discriminate.
  - reflexivity.
  - cbn. intros H. apply andb_prop in H. destruct H as [_ H].
    now rewrite (IH k H).
Qed.

(** A letter matched without regard to case is a word character. *)
Lemma lit_ok_word a c :
  is_upper a = true -> lit_ok true a c = true -> is_word c = true.
Proof.
  unfold lit_ok, upper. intros U. destruct (is_lower a) eqn:La.
  { exfalso. revert U La. unfold is_upper, is_lower.
    destruct (65 <=? code a)%N eqn:A, (code a <=? 90)%N eqn:B; try discriminate.
    destruct (97 <=? code a)%N eqn:C; [|discriminate].
    apply N.leb_le in B, C. lia. }
  unfold is_word. destruct (is_lower c); [reflexivity|].
  intros E. apply Ascii.eqb_eq in E. subst c. now rewrite U.
Qed.

Lemma kw_match_word kw k :
  forallb is_upper kw = true -> kw_match true kw k = true ->
  forallb is_word k = true.
Proof.
  revert k. induction kw as [|a kw IH]; intros [|c k] U K; try discriminate.
  - reflexivity.
  - cbn in *. apply andb_prop in U, K. destruct U as [Ua U], K as [Kc K].
    rewrite (lit_ok_word a c Ua Kc). now apply IH.
Qed.

(** The patterns that start with [\b] and a keyword. *)
Lemma keyword_led_sound icase kw tail st st' :
  In st' (run icase (Cat WordB (Cat (seq (map Lit kw)) tail)) st) ->
  at_boundary st = true
  /\ exists k m,
       rest st = k ++ rest m
       /\ kw_match icase kw k = true
       /\ prev m = lastp (prev st) k
       /\ In st' (run icase tail m).
Proof.
  intros H. apply run_cat_inv in H. destruct H as (m0 & H0 & H).
  cbn [run] in H0. unfold guard in H0.
  destruct (at_boundary st) eqn:B; [|contradiction].
  destruct H0 as [<-|[]]. split; [reflexivity|].
  apply run_cat_inv in H. destruct H as (m & H1 & H2).
  apply lits_sound in H1. destruct H1 as (k & R & P & K).
  exists k, m. auto.
Qed.

Module LimiterFacts.

Import QueryLimiter RewriterSpec.

(** *** Sequences of patterns *)

Lemma reaches_seq icase :
  forall l p u,
    chain icase p l u ->
    reaches icase (seq (map fst l)) p (concat (map snd l)) u.
Proof.
  induction l as [|[r w] l IH]; intros p u; cbn [chain map fst snd concat].
  - intros _. apply reaches_eps.
  - intros [H C]. change (seq (r :: map fst l)) with (Cat r (seq (map fst l))).
    apply reaches_cat; [exact H | apply IH, C].
Qed.

(** *** The patterns of the clause *)

Ltac ascii_cases c := destruct c as [[] [] [] [] [] [] [] []].

Lemma strip_tail_chars c :
  alpha true (after_keyword re_strip_mysql) c = true
  \/ alpha true (after_keyword re_strip_standard) c = true ->
  unlike "L" c = true /\ unlike "C" c = true.
Proof.
  ascii_cases c; vm_compute; intros [H|H]; try discriminate H; auto.
Qed.

Lemma lit_ok_comma c : lit_ok true "," c = true -> c = ","%char.
Proof. ascii_cases c; vm_compute; intros H; try discriminate H; reflexivity. Qed.

Lemma limit_letters k :
  kw_match true (str "LIMIT") k = true ->
  exists c0 c1 c2 c3 c4,
    k = [c0; c1; c2; c3; c4]
    /\ like "L" c0 = true /\ like "I" c1 = true /\ like "M" c2 = true
    /\ like "I" c3 = true /\ like "T" c4 = true.
Proof.
  destruct k as [|c0 [|c1 [|c2 [|c3 [|c4 [|c5 k]]]]]]; cbn;
    try (intros H; repeat (apply andb_prop in H; destruct H as [_ H]);
         discriminate H).
  unfold lit_ok, like. change (upper "L") with "L"%char.
  change (upper "I") with "I"%char. change (upper "M") with "M"%char.
  change (upper "T") with "T"%char.
  intros H. repeat (apply andb_prop in H; destruct H as [? H]).
  exists c0, c1, c2, c3, c4. auto 10.
Qed.

Lemma like_unlike q q' c : like q c = true -> q <> q' -> unlike q' c = true.
Proof.
  unfold like, unlike. intros H N. apply Ascii.eqb_eq in H.
  apply negb_true_iff, Ascii.eqb_neq. congruence.
Qed.

(** The text matched by a stripping pattern: [LIMIT] at a word boundary,
    then characters among which there is no [L] and no [C]. *)
Lemma strip_sound re st st' :
  re = re_strip_mysql \/ re = re_strip_standard ->
  In st' (run true re st) ->
  at_boundary st = true
  /\ exists k u,
       rest st = k ++ u
       /\ kw_match true (str "LIMIT") k = true
       /\ forallb (unlike "L") u = true
       /\ forallb (unlike "C") u = true.
Proof.
  intros Re H.
  assert (E : re = Cat WordB (Cat (seq (map Lit (str "LIMIT")))
                                   (after_keyword re)))
    by (destruct Re as [-> | ->]; reflexivity).
  assert (A : anchored (after_keyword re) = true)
    by (destruct Re as [-> | ->]; reflexivity).
  rewrite E in H. apply keyword_led_sound in H.
  destruct H as (B & k & m & R & K & _ & H). split; [exact B|].
  pose proof (run_anchored true _ A _ _ H) as End.
  apply run_moved in H. destruct H as (u & Ru & F & _).
  rewrite End, app_nil_r in Ru. exists k, u. rewrite R, Ru.
  split; [reflexivity|]. split; [exact K|].
  rewrite !forallb_forall in *.
  split; intros c I; apply strip_tail_chars;
    destruct Re as [-> | ->]; auto.
Qed.


(** The appended clause cannot be reached by a match that starts before
    it. *)
Lemma limit_start_unique k u y z :
  kw_match true (str "LIMIT") k = true ->
  forallb (unlike "L") u = true ->
  k ++ u = y ++ "L"%char :: z ->
  y = [].
Proof.
  intros K F E. apply limit_letters in K.
  destruct K as (c0 & c1 & c2 & c3 & c4 & -> & _ & L1 & L2 & L3 & L4).
  destruct y as [|y0 [|y1 [|y2 [|y3 [|y4 y]]]]]; [reflexivity|..];
    exfalso; cbn in E; injection E; intros; subst.
  - vm_compute in L1. discriminate L1.
  - vm_compute in L2. discriminate L2.
  - vm_compute in L3. discriminate L3.
  - vm_compute in L4. discriminate L4.
  - rewrite forallb_app in F. apply andb_prop in F.
    destruct F as [_ F]. cbn in F. discriminate F.
Qed.

Lemma boundary_before_word p c u :
  after_non_word p -> is_word c = true ->
  at_boundary (MState p (c :: u) []) = true.
Proof.
  unfold at_boundary, after_non_word. cbn. intros P ->.
  destruct p as [x|]; [now rewrite P | reflexivity].
Qed.

Lemma boundary_after_word c u :
  is_word c = true -> hd_ok (fun x => negb (is_word x)) u = true ->
  at_boundary (MState (Some c) u []) = true.
Proof.
  unfold at_boundary. cbn. intros -> H. destruct u as [|x u]; [reflexivity|].
  cbn in H. now destruct (is_word x).
Qed.

Lemma limitClause_parts limit offset :
  limitClause limit offset
  = str "LIMIT" ++ str " " ++ dec limit ++ offset_part offset.
Proof.
  unfold limitClause, offset_part. destruct (0 <? offset)%N; cbn [app str];
    [|rewrite app_nil_r]; reflexivity.
Qed.

Ltac chain_step := cbn [chain map snd concat lastp]; split.


Lemma reaches_limit p limit offset sc :
  after_non_word p ->
  reaches true re_limit p (limitClause limit offset ++ semicolon sc) [].
Proof.
  intros P. rewrite limitClause_parts.
  pose (alt := Alt (seq [Star Space; Lit ","; Star Space;
                         Group 2 (Plus Digit)])
                   (seq [Plus Space; lits "OFFSET"; Plus Space;
                         Group 3 (Plus Digit)])).
  pose (l := [ (WordB, []); (lits "LIMIT", str "LIMIT");
               (Plus Space, str " "); (Group 1 (Plus Digit), dec limit);
               (Opt alt, offset_part offset);
               (Star Space, []); (Opt (Lit ";"), semicolon sc);
               (Star Space, []); (Eol, []) ] : list (regex * text)).
  replace ((str "LIMIT" ++ str " " ++ dec limit ++ offset_part offset)
           ++ semicolon sc)
    with (concat (map snd l))
    by (cbn [l map snd concat]; now rewrite ?app_nil_r, <- ?app_assoc).
  change re_limit with (seq (map fst l)).
  apply reaches_seq. unfold l.
  chain_step. { apply reaches_wordb. now apply boundary_before_word. }
  chain_step. { now apply reaches_lits. }
  chain_step. { now apply reaches_spaces1. }
  chain_step.
  { apply reaches_group, reaches_digits1;
      [apply dec_nonempty | apply dec_digits]. }
  chain_step.
  { unfold offset_part. destruct (0 <? offset)%N; [|apply reaches_opt_skip].
    apply reaches_opt, reaches_alt_r.
    pose (o := [ (Plus Space, str " "); (lits "OFFSET", str "OFFSET");
                 (Plus Space, str " "); (Group 3 (Plus Digit), dec offset) ]
               : list (regex * text)).
    replace (str " OFFSET " ++ dec offset) with (concat (map snd o))
      by (cbn [o map snd concat]; now rewrite ?app_nil_r, <- ?app_assoc).
    change (seq [Plus Space; lits "OFFSET"; Plus Space; Group 3 (Plus Digit)])
      with (seq (map fst o)).
    apply reaches_seq. unfold o.
    chain_step. { now apply reaches_spaces1. }
    chain_step. { now apply reaches_lits. }
    chain_step. { now apply reaches_spaces1. }
    chain_step.
    { apply reaches_group, reaches_digits1;
        [apply dec_nonempty | apply dec_digits]. }
    exact I. }
  chain_step. { now apply reaches_spaces. }
  chain_step.
  { destruct sc; [apply reaches_opt, reaches_lit; reflexivity
                 | apply reaches_opt_skip]. }
  chain_step. { now apply reaches_spaces. }
  chain_step. { apply reaches_eol. }
  exact I.
Qed.

Lemma hd_ok_rev_app ok x ds :
  ds <> [] -> forallb ok ds = true -> hd_ok ok (rev (x ++ ds)) = true.
Proof.
  intros N F. rewrite rev_app_distr.
  assert (R : forallb ok (rev ds) = true).
  { rewrite forallb_forall in *. intros c I. apply F. now apply in_rev. }
  destruct (rev ds) as [|c r] eqn:E.
  - apply (f_equal (@rev ascii)) in E. rewrite rev_involutive in E.
    now subst ds.
  - cbn in *. now apply andb_prop in R.
Qed.

Lemma digit_chars c :
  is_digit c = true ->
  not_space c = true /\ unlike "L" c = true /\ c <> ","%char.
Proof.
  ascii_cases c; vm_compute; intros H; try discriminate H;
    repeat split; discriminate.
Qed.

Lemma dec_not_space n : forallb not_space (dec n) = true.
Proof.
  pose proof (dec_digits n) as D. rewrite forallb_forall in *.
  intros c I. now apply digit_chars, D.
Qed.

Lemma dec_no_comma n : forallb no_comma (dec n) = true.
Proof.
  pose proof (dec_digits n) as D. rewrite forallb_forall in *.
  intros c I. unfold no_comma. apply negb_true_iff, Ascii.eqb_neq.
  now apply digit_chars, D.
Qed.

Lemma clause_no_comma limit offset sc :
  forallb no_comma (limitClause limit offset ++ semicolon sc) = true.
Proof.
  rewrite limitClause_parts. unfold offset_part.
  rewrite !forallb_app, dec_no_comma.
  destruct (0 <? offset)%N, sc; cbn [forallb app str semicolon];
    rewrite ?forallb_app, ?dec_no_comma; reflexivity.
Qed.

Lemma clause_last_not_space x limit offset sc :
  hd_ok not_space (rev (x ++ limitClause limit offset ++ semicolon sc)) = true.
Proof.
  destruct sc; cbn [semicolon].
  - rewrite app_assoc. apply hd_ok_rev_app; [discriminate|reflexivity].
  - rewrite app_nil_r. unfold limitClause.
    destruct (0 <? offset)%N; rewrite ?app_assoc;
      apply hd_ok_rev_app; auto using dec_nonempty, dec_not_space.
Qed.

Lemma clause_starts limit offset sc :
  exists z, limitClause limit offset ++ semicolon sc = "L"%char :: z.
Proof. rewrite limitClause_parts. cbn. eauto. Qed.

Lemma reaches_all_run icase r p w :
  reaches icase r p w [] -> run icase r (MState p w []) <> [].
Proof. intros H. apply reaches_run in H. now rewrite app_nil_r in H. Qed.

Section SecondPass.

Variables (b : text) (limit offset : N) (sc : bool).
Hypothesis Hb : body b.

Let clause : text := limitClause limit offset ++ semicolon sc.
Let r1 : text := (b ++ str " ") ++ clause.

Lemma body_hd : hd_ok not_space b = true.
Proof. destruct Hb as [_ <-]. apply trim_hd. Qed.

Lemma rewritten_trimmed : trim r1 = r1.
Proof.
  apply trim_id.
  - unfold r1. pose proof body_hd as H. destruct Hb as [N _].
    destruct b; [contradiction|exact H].
  - unfold r1, clause. apply clause_last_not_space.
Qed.





End SecondPass.

Lemma boundary_after k p u st :
  k <> [] -> forallb is_word k = true ->
  prev st = lastp p k -> rest st = u ->
  at_boundary st = hd_ok non_word u.
Proof.
  intros N F P R. destruct (lastp_ok is_word p k N F) as (c & L & W).
  unfold at_boundary. rewrite P, L, W, R.
  destruct u as [|x u]; [reflexivity|]. cbn. unfold non_word.
  now destruct (is_word x).
Qed.

Lemma boundary_before k p u st :
  k <> [] -> forallb is_word k = true ->
  prev st = p -> rest st = k ++ u ->
  at_boundary st = true -> after_non_word p.
Proof.
  intros N F P R. unfold at_boundary. rewrite P, R.
  destruct k as [|c k]; [contradiction|]. cbn in *.
  apply andb_prop in F. destruct F as [-> _].
  destruct p as [x|]; cbn; [|trivial]. now destruct (is_word x).
Qed.

Lemma kw_match_nonempty kw k :
  kw <> [] -> kw_match true kw k = true -> k <> [].
Proof.
  intros N K. destruct kw as [|a kw]; [contradiction|].
  destruct k; [discriminate K|discriminate].
Qed.

Lemma run_wordb_eps_inv icase st st' :
  In st' (run icase (Cat WordB Eps) st) -> at_boundary st = true.
Proof.
  intros H. apply run_cat_inv in H. destruct H as (m & H & _).
  cbn [run] in H. unfold guard in H.
  now destruct (at_boundary st).
Qed.

(** A pattern anchored at the start, on a text that does not start with a
    space. *)
Lemma leading_inv body p w m :
  hd_ok not_space w = true ->
  In m (run true (Cat Bol (Cat (Star Space) body)) (MState p w [])) ->
  exists m1, rest m1 = w /\ prev m1 = None /\ In m (run true body m1).
Proof.
  intros Hd H. apply run_cat_inv in H. destruct H as (m0 & H0 & H).
  cbn [run] in H0. unfold guard in H0. cbn [prev] in H0.
  destruct p; [contradiction|]. destruct H0 as [<-|[]].
  apply run_cat_inv in H. destruct H as (m1 & H1 & H).
  apply run_moved in H1. destruct H1 as (sp & R & F & P).
  cbn [rest prev alpha] in *. exists m1.
  destruct sp as [|c sp].
  - cbn in *. auto.
  - exfalso. rewrite R in Hd. cbn in Hd, F. unfold not_space in Hd.
    apply andb_prop in F. destruct F as [F _]. rewrite F in Hd.
    discriminate Hd.
Qed.

Section Keywords.

Variable kw : string.
Hypothesis kw_upper : forallb is_upper (str kw) = true.
Hypothesis kw_nonempty : str kw <> [].

Lemma leading_sound t :
  hd_ok not_space t = true ->
  test true (re_leading kw) t = true ->
  exists k u,
    t = k ++ u /\ kw_match true (str kw) k = true
    /\ hd_ok non_word u = true.
Proof.
  intros Hd. unfold test, exec.
  destruct (exec_at true (re_leading kw) [] None t) as [[before m]|] eqn:E;
    [intros _|discriminate].
  apply exec_at_sound in E. destruct E as (x & w & -> & _ & H).
  change (re_leading kw)
    with (Cat Bol (Cat (Star Space)
            (Cat (seq (map Lit (str kw))) (Cat WordB Eps)))) in H.
  assert (X : x = []).
  { apply run_cat_inv in H. destruct H as (m0 & H0 & _).
    cbn [run] in H0. unfold guard in H0. cbn [prev] in H0.
    destruct (lastp None x) eqn:L; [contradiction|].
    now apply lastp_None in L. }
  subst x. cbn [app lastp] in *.
  apply leading_inv in H; [|exact Hd].
  destruct H as (m1 & R1 & P1 & H).
  apply run_cat_inv in H. destruct H as (m2 & H2 & H).
  apply lits_sound in H2. destruct H2 as (k & R2 & P2 & K).
  apply run_wordb_eps_inv in H.
  exists k, (rest m2). rewrite <- R1, R2. split; [reflexivity|].
  split; [exact K|].
  rewrite <- (boundary_after k (prev m1) (rest m2) m2); auto.
  - now apply (kw_match_nonempty (str kw)).
  - now apply (kw_match_word (str kw)).
Qed.

Lemma leading_complete k u :
  kw_match true (str kw) k = true ->
  hd_ok non_word u = true ->
  test true (re_leading kw) (k ++ u) = true.
Proof.
  intros K U. unfold test, exec.
  destruct (exec_at true (re_leading kw) [] None (k ++ u)) eqn:E;
    [reflexivity|exfalso].
  revert E. apply (exec_at_exists true (re_leading kw) [] [] None (k ++ u)).
  cbn [lastp].
  pose (l := [ (Bol, []); (Star Space, []); (lits kw, k); (WordB, []) ]
             : list (regex * text)).
  apply (reaches_run true (re_leading kw) None k u).
  replace k with (concat (map snd l))
    by (cbn [l map snd concat]; now rewrite ?app_nil_r).
  change (re_leading kw) with (seq (map fst l)).
  apply reaches_seq. unfold l.
  chain_step. { apply reaches_bol. }
  chain_step. { now apply reaches_spaces. }
  chain_step. { now apply reaches_lits. }
  chain_step.
  { apply reaches_wordb.
    rewrite (boundary_after k None u); auto.
    - now apply (kw_match_nonempty (str kw)).
    - now apply (kw_match_word (str kw)). }
  exact I.
Qed.

Lemma word_sound t :
  test true (re_word kw) t = true ->
  exists x1 k x2,
    t = x1 ++ k ++ x2 /\ kw_match true (str kw) k = true
    /\ after_non_word (lastp None x1)
    /\ hd_ok non_word x2 = true.
Proof.
  unfold test, exec.
  destruct (exec_at true (re_word kw) [] None t) as [[before m]|] eqn:E;
    [intros _|discriminate].
  apply exec_at_sound in E. destruct E as (x & w & -> & _ & H).
  change (re_word kw)
    with (Cat WordB (Cat (seq (map Lit (str kw))) (Cat WordB Eps))) in H.
  apply keyword_led_sound in H.
  destruct H as (B & k & m1 & R & K & P & H).
  apply run_wordb_eps_inv in H. cbn [rest prev] in *.
  assert (Kn : k <> []) by now apply (kw_match_nonempty (str kw)).
  assert (Kw : forallb is_word k = true) by now apply (kw_match_word (str kw)).
  exists x, k, (rest m1). rewrite R. split; [reflexivity|].
  split; [exact K|]. split.
  - apply (boundary_before k (lastp None x) (rest m1)
             (MState (lastp None x) w [])); auto.
  - rewrite <- (boundary_after k (lastp None x) (rest m1) m1); auto.
Qed.

Lemma word_complete x1 k u :
  kw_match true (str kw) k = true ->
  after_non_word (lastp None x1) ->
  hd_ok non_word u = true ->
  test true (re_word kw) (x1 ++ k ++ u) = true.
Proof.
  intros K P U. unfold test, exec.
  destruct (exec_at true (re_word kw) [] None (x1 ++ k ++ u)) eqn:E;
    [reflexivity|exfalso].
  revert E. apply (exec_at_exists true (re_word kw) x1 [] None (k ++ u)).
  assert (Kn : k <> []) by now apply (kw_match_nonempty (str kw)).
  assert (Kw : forallb is_word k = true) by now apply (kw_match_word (str kw)).
  pose (l := [ (WordB, []); (lits kw, k); (WordB, []) ]
             : list (regex * text)).
  apply (reaches_run true (re_word kw) _ k u).
  replace k with (concat (map snd l))
    by (cbn [l map snd concat]; now rewrite ?app_nil_r).
  change (re_word kw) with (seq (map fst l)).
  apply reaches_seq. unfold l.
  chain_step.
  { apply reaches_wordb. cbn [concat map snd app]. rewrite app_nil_r.
    destruct k as [|c k]; [contradiction|]. cbn in Kw.
    apply andb_prop in Kw. destruct Kw as [Kc _].
    now apply boundary_before_word. }
  chain_step. { now apply reaches_lits. }
  chain_step.
  { apply reaches_wordb. rewrite (boundary_after k (lastp None x1) u); auto. }
  exact I.
Qed.

End Keywords.

(** ** The classifier *)

(** The statement kind, as [analyzeQuery] computes it from the trimmed
    text. *)
Lemma type_unfold s :
  type (analyzeQuery s)
  = let trimmed := trim s in
    if test true (re_leading "SELECT") trimmed then SELECT
    else if test true (re_leading "INSERT") trimmed then INSERT
    else if test true (re_leading "UPDATE") trimmed then UPDATE
    else if test true (re_leading "DELETE") trimmed then DELETE
    else if test true re_ddl trimmed then DDL
    else if test true (re_leading "WITH") trimmed
            && test true (re_word "SELECT") trimmed then SELECT
    else OTHER.
Proof.
  unfold analyzeQuery.
  destruct (groups re_limit (trim s)) as [g|]; [destruct (capture 2 g)|];
    reflexivity.
Qed.

Lemma hasLimit_unfold s :
  hasLimit (analyzeQuery s)
  = match exec true re_limit (trim s) with Some _ => true | None => false end.
Proof.
  unfold analyzeQuery, groups.
  destruct (exec true re_limit (trim s)) as [[before m]|];
    [destruct (capture 2 (caps m))|]; reflexivity.
Qed.

Lemma kw_match_first a kw k u :
  is_upper a = true ->
  kw_match true (a :: kw) k = true -> first_like a (k ++ u) = true.
Proof.
  intros U. destruct k as [|c k]; [discriminate|]. cbn.
  intros H. apply andb_prop in H. destruct H as [H _].
  unfold lit_ok in H. unfold like.
  replace (upper a) with a in H; [exact H|].
  unfold upper. destruct (is_lower a) eqn:L; [|reflexivity].
  exfalso. revert U L. unfold is_upper, is_lower.
  destruct (65 <=? code a)%N, (code a <=? 90)%N eqn:B; try discriminate.
  destruct (97 <=? code a)%N eqn:C; [|discriminate].
  apply N.leb_le in B, C. lia.
Qed.

Lemma first_like_unique q q' t :
  first_like q t = true -> first_like q' t = true -> q = q'.
Proof.
  destruct t as [|c t]; [discriminate|]. unfold first_like, like.
  intros A B. apply Ascii.eqb_eq in A, B. congruence.
Qed.

Lemma leading_first a kw t :
  is_upper a = true -> forallb is_upper (str kw) = true ->
  hd_ok not_space t = true ->
  test true (re_leading (String a kw)) t = true ->
  first_like a t = true.
Proof.
  intros Ua U Hd T.
  apply (leading_sound (String a kw)) in T; auto; try discriminate.
  - destruct T as (k & u & -> & K & _). now apply (kw_match_first a (str kw)).
  - cbn. now rewrite Ua.
Qed.

Lemma ddl_first t :
  hd_ok not_space t = true ->
  test true re_ddl t = true ->
  first_like "C" t = true \/ first_like "A" t = true
  \/ first_like "D" t = true \/ first_like "T" t = true.
Proof.
  intros Hd. unfold test, exec.
  destruct (exec_at true re_ddl [] None t) as [[before m]|] eqn:E;
    [intros _|discriminate].
  apply exec_at_sound in E. destruct E as (x & w & -> & _ & H).
  change re_ddl
    with (Cat Bol (Cat (Star Space)
            (Cat (Group 1
                    (Alt (seq (map Lit (str "CREATE")))
                       (Alt (seq (map Lit (str "ALTER")))
                          (Alt (seq (map Lit (str "DROP")))
                               (seq (map Lit (str "TRUNCATE")))))))
                 (Cat WordB Eps)))) in H.
  assert (X : x = []).
  { apply run_cat_inv in H. destruct H as (m0 & H0 & _).
    cbn [run] in H0. unfold guard in H0. cbn [prev] in H0.
    destruct (lastp None x) eqn:L; [contradiction|].
    now apply lastp_None in L. }
  subst x. cbn [app lastp] in *.
  apply leading_inv in H; [|exact Hd].
  destruct H as (m1 & R1 & P1 & H).
  apply run_cat_inv in H. destruct H as (m2 & H2 & _).
  cbn [run] in H2. apply in_map_iff in H2. destruct H2 as (m3 & _ & H3).
  rewrite !in_app_iff in H3. rewrite <- R1.
  destruct H3 as [H3|[H3|[H3|H3]]]; apply lits_sound in H3;
    destruct H3 as (k & -> & _ & K);
    apply (kw_match_first _ _ k (rest m3)) in K; auto.
Qed.

(** *** Why a text is classified as SELECT *)

Lemma hd_ok_app ok a b : a <> [] -> hd_ok ok (a ++ b) = hd_ok ok a.
Proof. destruct a; [contradiction|reflexivity]. Qed.

Lemma select_sel_nonempty x1 sel : select_at x1 sel -> sel <> [].
Proof. intros (K & _). now apply (kw_match_nonempty (str "SELECT")). Qed.

Lemma select_evidence t :
  hd_ok not_space t = true ->
  (if test true (re_leading "SELECT") t then SELECT
   else if test true (re_leading "INSERT") t then INSERT
   else if test true (re_leading "UPDATE") t then UPDATE
   else if test true (re_leading "DELETE") t then DELETE
   else if test true re_ddl t then DDL
   else if test true (re_leading "WITH") t
           && test true (re_word "SELECT") t then SELECT
   else OTHER) = SELECT ->
  exists x1 sel x2,
    t = x1 ++ sel ++ x2 /\ select_at x1 sel /\ hd_ok non_word x2 = true.
Proof.
  intros Hd.
  destruct (test true (re_leading "SELECT") t) eqn:S.
  { intros _. apply leading_sound in S; auto; try discriminate.
    destruct S as (k & u & -> & K & U). exists [], k, u.
    repeat split; auto. }
  destruct (test true (re_leading "INSERT") t); [discriminate|].
  destruct (test true (re_leading "UPDATE") t); [discriminate|].
  destruct (test true (re_leading "DELETE") t); [discriminate|].
  destruct (test true re_ddl t); [discriminate|].
  destruct (test true (re_leading "WITH") t) eqn:W; [|discriminate].
  destruct (test true (re_word "SELECT") t) eqn:Sw; [|discriminate].
  intros _.
  apply leading_sound in W; auto; try discriminate.
  apply word_sound in Sw; auto; try discriminate.
  destruct W as (w & rest_ & Ew & Kw & Hw).
  destruct Sw as (x1 & sel & x2 & E & K & P & U).
  exists x1, sel, x2. split; [exact E|]. split; [|exact U].
  split; [exact K|]. split; [exact P|].
  assert (Sn : sel <> []) by now apply (kw_match_nonempty (str "SELECT")).
  rewrite Ew in E. apply app_eq_app in E.
  destruct E as (d & [[E1 E2]|[E1 E2]]).
  - (* [x1] is a prefix of [WITH] *)
    destruct x1 as [|c x1]; [now left|exfalso].
    assert (Ww : forallb is_word w = true)
      by now apply (kw_match_word (str "WITH")).
    rewrite E1, forallb_app in Ww. apply andb_prop in Ww.
    destruct Ww as [Ww _].
    destruct (lastp_ok is_word None (c :: x1)) as (z & L & Z);
      [discriminate|exact Ww|].
    unfold after_non_word in P. rewrite L in P. congruence.
  - (* [x1] reaches beyond [WITH] *)
    right. exists w, d. split; [exact E1|]. split; [exact Kw|].
    rewrite E2 in Hw. rewrite app_assoc in Hw.
    rewrite hd_ok_app in Hw; [exact Hw|].
    destruct d; [exact Sn | discriminate].
Qed.

Lemma like_W_not (q : ascii) t :
  first_like "W" t = true -> q <> "W"%char -> first_like q t = false.
Proof.
  intros W N. destruct (first_like q t) eqn:Q; [|reflexivity].
  exfalso. apply N. symmetry. exact (first_like_unique _ _ _ W Q).
Qed.

Lemma evidence_classify r x1 sel z :
  select_at x1 sel ->
  r = x1 ++ sel ++ z ->
  hd_ok non_word z = true ->
  hd_ok not_space r = true ->
  (if test true (re_leading "SELECT") r then SELECT
   else if test true (re_leading "INSERT") r then INSERT
   else if test true (re_leading "UPDATE") r then UPDATE
   else if test true (re_leading "DELETE") r then DELETE
   else if test true re_ddl r then DDL
   else if test true (re_leading "WITH") r
           && test true (re_word "SELECT") r then SELECT
   else OTHER) = SELECT.
Proof.
  intros (K & P & X) -> Z Hd.
  destruct X as [-> | (w & l & -> & Kw & Hl)].
  { cbn [app]. rewrite (leading_complete "SELECT"); auto; discriminate. }
  destruct (test true (re_leading "SELECT") _); [reflexivity|].
  assert (Sn : sel <> []) by now apply (kw_match_nonempty (str "SELECT")).
  assert (W : first_like "W" ((w ++ l) ++ sel ++ z) = true).
  { rewrite <- app_assoc. now apply (kw_match_first "W" (str "ITH")). }
  assert (NI : test true (re_leading "INSERT") ((w ++ l) ++ sel ++ z) = false).
  { destruct (test true (re_leading "INSERT") _) eqn:T; [|reflexivity].
    apply (leading_first "I" "NSERT") in T; auto.
    rewrite (like_W_not "I" _ W) in T; [discriminate T|discriminate]. }
  assert (NU : test true (re_leading "UPDATE") ((w ++ l) ++ sel ++ z) = false).
  { destruct (test true (re_leading "UPDATE") _) eqn:T; [|reflexivity].
    apply (leading_first "U" "PDATE") in T; auto.
    rewrite (like_W_not "U" _ W) in T; [discriminate T|discriminate]. }
  assert (ND : test true (re_leading "DELETE") ((w ++ l) ++ sel ++ z) = false).
  { destruct (test true (re_leading "DELETE") _) eqn:T; [|reflexivity].
    apply (leading_first "D" "ELETE") in T; auto.
    rewrite (like_W_not "D" _ W) in T; [discriminate T|discriminate]. }
  assert (NL : test true re_ddl ((w ++ l) ++ sel ++ z) = false).
  { destruct (test true re_ddl _) eqn:T; [|reflexivity].
    apply ddl_first in T; auto.
    destruct T as [T|[T|[T|T]]];
      [rewrite (like_W_not "C" _ W) in T
      |rewrite (like_W_not "A" _ W) in T
      |rewrite (like_W_not "D" _ W) in T
      |rewrite (like_W_not "T" _ W) in T]; discriminate. }
  rewrite NI, NU, ND, NL.
  assert (YW : test true (re_leading "WITH") ((w ++ l) ++ sel ++ z) = true).
  { rewrite <- app_assoc. apply (leading_complete "WITH"); auto;
      try discriminate.
    rewrite app_assoc, hd_ok_app; [exact Hl|].
    destruct l; [exact Sn|discriminate]. }
  rewrite YW, (word_complete "SELECT"); auto; discriminate.
Qed.

Lemma word_chars c :
  is_word c = true -> not_space c = true /\ c <> ";"%char.
Proof.
  ascii_cases c; vm_compute; intros H; try discriminate H; split;
    try reflexivity; discriminate.
Qed.

Lemma select_letters sel :
  kw_match true (str "SELECT") sel = true ->
  forallb is_word sel = true
  /\ (exists c, In c sel /\ like "C" c = true)
  /\ exists c, hd_error (rev sel) = Some c /\ is_word c = true.
Proof.
  intros K. pose proof (kw_match_word (str "SELECT") sel eq_refl K) as W.
  split; [exact W|].
  destruct sel as [|c0 [|c1 [|c2 [|c3 [|c4 [|c5 [|c6 sel]]]]]]]; cbn in K;
    try (repeat (apply andb_prop in K; destruct K as [_ K]); discriminate K).
  split.
  - exists c4. split; [cbn; auto 10|].
    repeat (apply andb_prop in K; destruct K as [? K]). assumption.
  - exists c5. split; [reflexivity|].
    cbn in W. repeat (apply andb_prop in W; destruct W as [? W]). assumption.
Qed.

(** *** What the first application keeps *)

Section Kept.

Variables x1 sel x2 : text.
Hypothesis Sel : select_at x1 sel.
Hypothesis Hd : hd_ok not_space (x1 ++ sel ++ x2) = true.

Lemma kept_start : kept x1 sel x2 (x1 ++ sel ++ x2).
Proof. exists x2. split; [reflexivity|apply prefix_of_refl]. Qed.

Lemma kept_nonempty b : kept x1 sel x2 b -> b <> [].
Proof.
  intros (v & -> & _) E. apply (select_sel_nonempty x1 sel Sel).
  apply app_eq_nil in E. destruct E as [_ E].
  apply app_eq_nil in E. tauto.
Qed.

Lemma cut_keeps pre w v :
  x1 ++ sel ++ v = pre ++ w ->
  at_boundary (MState (lastp None pre) w []) = true ->
  hd_ok is_word w = true ->
  forallb (unlike "C") w = true ->
  exists v', pre = x1 ++ sel ++ v' /\ v = v' ++ w.
Proof.
  intros E B Hw F.
  destruct Sel as (K & _ & _).
  destruct (select_letters sel K) as (W & (c & Ic & Lc) & _).
  assert (NoC : forall a z, w = a ++ sel ++ z -> False).
  { intros a z ->. rewrite forallb_forall in F.
    assert (U : unlike "C" c = true)
      by (apply F; rewrite !in_app_iff; auto).
    unfold unlike in U. rewrite Lc in U. discriminate U. }
  rewrite app_assoc in E. apply app_eq_app in E.
  destruct E as (d & [[E1 E2]|[E1 E2]]).
  - destruct d as [|a d].
    { exists []. rewrite !app_nil_r in *. cbn in E2. subst. auto. }
    exfalso. apply app_eq_app in E1.
    destruct E1 as (d' & [[E3 E4]|[E3 E4]]).
    + apply (NoC d' v). rewrite E2, E4. now rewrite <- app_assoc.
    + destruct d' as [|a' d'].
      { cbn in E4. apply (NoC [] v). rewrite E2, <- E4. reflexivity. }
      rewrite E4, forallb_app in W. apply andb_prop in W.
      destruct W as [W1 W2].
      destruct (lastp_ok is_word (lastp None x1) (a' :: d')) as (z & L & Z);
        [discriminate|exact W1|].
      rewrite E3, lastp_app, L, E2 in B. unfold at_boundary in B.
      cbn in B, W2. apply andb_prop in W2. destruct W2 as [Wa _].
      rewrite Z, Wa in B. discriminate B.
  - exists d. rewrite <- app_assoc in E1. auto.
Qed.

Lemma kept_strip re b :
  re = re_strip_mysql \/ re = re_strip_standard ->
  kept x1 sel x2 b -> kept x1 sel x2 (replace_first_empty true re b).
Proof.
  intros Re (v & -> & Pv).
  assert (A : anchored re = true) by (destruct Re as [-> | ->]; reflexivity).
  destruct (replace_anchored true re A (x1 ++ sel ++ v))
    as [-> | (pre & w & m & E & -> & I)].
  { now exists v. }
  destruct (strip_sound re _ _ Re I) as (B & k & u & Ew & K & _ & Fc).
  cbn [rest] in Ew.
  destruct (limit_letters k K) as (c0 & c1 & c2 & c3 & c4 & -> & L0 & L1 & L2 & L3 & L4).
  destruct (cut_keeps pre w v E B) as (v' & -> & Ev).
  - rewrite Ew. cbn. unfold like in L0. apply Ascii.eqb_eq in L0.
    unfold is_word. destruct (is_lower c0) eqn:Lo; [reflexivity|].
    unfold upper in L0. rewrite Lo in L0. now subst c0.
  - rewrite Ew, forallb_app, Fc. cbn [forallb].
    rewrite (like_unlike "L" "C" c0), (like_unlike "I" "C" c1),
      (like_unlike "M" "C" c2), (like_unlike "I" "C" c3),
      (like_unlike "T" "C" c4); auto; discriminate.
  - exists v'. split; [reflexivity|].
    apply (prefix_of_trans _ v); [|exact Pv]. now exists w.
Qed.

Lemma kept_y_shape :
  x1 ++ sel <> []
  /\ hd_ok not_space (x1 ++ sel) = true
  /\ exists c, hd_error (rev (x1 ++ sel)) = Some c /\ is_word c = true.
Proof.
  destruct Sel as (K & _ & _).
  destruct (select_letters sel K) as (_ & _ & c & Hc & Wc).
  assert (N : x1 ++ sel <> []).
  { intros E. apply app_eq_nil in E. destruct E as [_ E].
    rewrite E in Hc. discriminate Hc. }
  split; [exact N|]. split.
  - rewrite app_assoc, hd_ok_app in Hd; assumption.
  - exists c. split; [|exact Wc]. rewrite rev_app_distr.
    destruct (rev sel); [discriminate Hc|exact Hc].
Qed.

Lemma kept_trim b : kept x1 sel x2 b -> kept x1 sel x2 (trim b).
Proof.
  intros (v & -> & Pv).
  destruct kept_y_shape as (N & H & c & Hc & Wc).
  destruct (trim_keeps (x1 ++ sel) v N H) as (v' & E & P').
  - destruct (rev (x1 ++ sel)) as [|z r]; [reflexivity|].
    cbn in *. injection Hc as ->. now apply word_chars.
  - exists v'. rewrite app_assoc, E, <- app_assoc.
    split; [reflexivity|]. exact (prefix_of_trans _ _ _ P' Pv).
Qed.

Lemma kept_slice b :
  endsWith b ";" = true -> kept x1 sel x2 b -> kept x1 sel x2 (slice_0_m1 b).
Proof.
  intros S (v & -> & Pv).
  destruct kept_y_shape as (N & _ & c & Hc & Wc).
  assert (Nv : v <> []).
  { intros ->. rewrite app_nil_r in S. unfold endsWith in S.
    destruct (rev (x1 ++ sel)) as [|z r]; [discriminate S|].
    cbn in Hc. injection Hc as ->. apply Ascii.eqb_eq in S.
    now apply word_chars in Wc. }
  exists (removelast v). unfold slice_0_m1.
  rewrite app_assoc, removelast_app, <- app_assoc by exact Nv.
  split; [reflexivity|].
  apply (prefix_of_trans _ v); [|exact Pv].
  destruct (exists_last Nv) as (v0 & z & ->).
  rewrite removelast_last. now exists [z].
Qed.

End Kept.

(** ** The rewriter *)

Lemma forced_rewrite s limit offset :
  type (analyzeQuery s) = SELECT ->
  sql (applyQueryLimit s limit offset true)
  = (statement_body s ++ str " ") ++ limitClause limit offset
    ++ semicolon (endsWith (stripped s) ";").
Proof.
  intros T. unfold applyQueryLimit, statement_body, stripped.
  rewrite T. cbn [QueryType_eqb negb andb].
  rewrite !andb_false_r, !andb_true_r. cbn [sql].
  destruct (hasLimit (analyzeQuery s));
    match goal with
    | |- context [endsWith ?x ";"] => destruct (endsWith x ";")
    end; cbn [semicolon]; now rewrite ?app_nil_r, <- ?app_assoc.
Qed.

Lemma stripped_trimmed s : trim (stripped s) = stripped s.
Proof. unfold stripped. destruct (hasLimit _); apply trim_idem. Qed.

Lemma statement_body_trimmed s : trim (statement_body s) = statement_body s.
Proof.
  unfold statement_body. destruct (endsWith _ _);
    [apply trim_idem | apply stripped_trimmed].
Qed.

Section FirstPass.

Variables (s x1 sel x2 : text).
Hypothesis Split : trim s = x1 ++ sel ++ x2.
Hypothesis Sel : select_at x1 sel.

Lemma split_hd : hd_ok not_space (x1 ++ sel ++ x2) = true.
Proof. rewrite <- Split. apply trim_hd. Qed.

Lemma stripped_kept : kept x1 sel x2 (stripped s).
Proof.
  unfold stripped. destruct (hasLimit _).
  - apply (kept_trim x1 sel x2 Sel split_hd).
    apply (kept_strip x1 sel x2 Sel); [now right|].
    apply (kept_trim x1 sel x2 Sel split_hd).
    apply (kept_strip x1 sel x2 Sel); [now left|].
    rewrite Split. apply kept_start.
  - rewrite Split. apply kept_start.
Qed.

Lemma statement_body_kept : kept x1 sel x2 (statement_body s).
Proof.
  unfold statement_body. destruct (endsWith _ _) eqn:E.
  - apply (kept_trim x1 sel x2 Sel split_hd).
    apply (kept_slice x1 sel x2 Sel split_hd); [exact E|].
    apply stripped_kept.
  - apply stripped_kept.
Qed.

Lemma statement_body_is_body : body (statement_body s).
Proof.
  split; [|apply statement_body_trimmed].
  apply (kept_nonempty x1 sel x2 Sel), statement_body_kept.
Qed.

Lemma statement_body_prefix : prefix_of (statement_body s) (trim s).
Proof.
  destruct statement_body_kept as (v & -> & [z ->]). rewrite Split.
  exists z. now rewrite <- !app_assoc.
Qed.

(** The rewritten statement is classified as SELECT again. *)
Lemma rewritten_select limit offset sc :
  hd_ok non_word x2 = true ->
  type (analyzeQuery ((statement_body s ++ str " ")
                      ++ limitClause limit offset ++ semicolon sc))
  = SELECT.
Proof.
  intros U. pose proof statement_body_is_body as B.
  rewrite type_unfold. cbv zeta.
  rewrite (rewritten_trimmed _ limit offset sc B).
  destruct statement_body_kept as (v & E & [z Z]).
  apply (evidence_classify _ x1 sel
           (v ++ str " " ++ limitClause limit offset ++ semicolon sc)).
  - exact Sel.
  - rewrite E. now rewrite <- !app_assoc.
  - destruct v as [|c v]; [reflexivity|]. rewrite Z in U. exact U.
  - rewrite <- !app_assoc.
    pose proof (body_hd _ B) as H. destruct B as [N _].
    destruct (statement_body s); [contradiction|exact H].
Qed.

End FirstPass.







(** C1, as stated, fails: the trailing [LIMIT 999] of the comment is
    matched. *)
Lemma limit_in_trailing_comment_matched :
  hasLimit (analyzeQuery comment_input) <> false.
Proof. vm_compute. discriminate. Qed.

(** C1, amended: on this input the classifier reports [hasLimit = true]
    with [existingLimit = 999], taken from the comment at the end of the
    text; the same statement without the comment has no limit, the
    [LIMIT 10] of the string literal not being at the end of the text. *)
Theorem limit_detection_on_raw_text :
  hasLimit (analyzeQuery comment_input) = true
  /\ existingLimit (analyzeQuery comment_input) = Some 999%N
  /\ hasLimit
       (analyzeQuery (str "SELECT * FROM t WHERE note = 'LIMIT 10 trick'"))
     = false.
Proof. repeat split; vm_compute; reflexivity. Qed.

(** C2: a statement that is not classified as SELECT is returned unchanged
    and is not marked as limited, whatever the limit, the offset and the
    override flag. *)
Theorem non_select_unchanged :
  forall (s : text) (limit offset : N) (forceLimit : bool),
    type (analyzeQuery s) <> SELECT ->
    sql (applyQueryLimit s limit offset forceLimit) = s
    /\ wasLimited (applyQueryLimit s limit offset forceLimit) = false.
Proof.
  intros s limit offset forceLimit H. unfold applyQueryLimit.
  destruct (type (analyzeQuery s)); try contradiction; split; reflexivity.
Qed.

Lemma non_select_unchanged_witness :
  sql (applyQueryLimit (str "DELETE FROM t WHERE id = 1 LIMIT 5") 500 20 true)
  = str "DELETE FROM t WHERE id = 1 LIMIT 5"
  /\ wasLimited
       (applyQueryLimit (str "DELETE FROM t WHERE id = 1 LIMIT 5") 500 20 true)
     = false.
Proof.
  apply (non_select_unchanged (str "DELETE FROM t WHERE id = 1 LIMIT 5")
           500 20 true).
  vm_compute. discriminate.
Defined.

(** C10: for a statement that is not classified as SELECT the result
    reports an applied limit and an applied offset of 0 and no original
    limit, whatever limit and offset were requested. *)
Theorem non_select_reports_zero :
  forall (s : text) (limit offset : N) (forceLimit : bool),
    type (analyzeQuery s) <> SELECT ->
    appliedLimit (applyQueryLimit s limit offset forceLimit) = 0%N
    /\ appliedOffset (applyQueryLimit s limit offset forceLimit) = 0%N
    /\ originalLimit (applyQueryLimit s limit offset forceLimit) = None.
Proof.
  intros s limit offset forceLimit H. unfold applyQueryLimit.
  destruct (type (analyzeQuery s)); try contradiction;
    repeat split; reflexivity.
Qed.

Lemma non_select_reports_zero_witness :
  appliedLimit (applyQueryLimit (str "UPDATE t SET a = 1") 500 20 false) = 0%N
  /\ appliedOffset (applyQueryLimit (str "UPDATE t SET a = 1") 500 20 false)
     = 0%N
  /\ originalLimit (applyQueryLimit (str "UPDATE t SET a = 1") 500 20 false)
     = None.
Proof.
  apply (non_select_reports_zero (str "UPDATE t SET a = 1") 500 20 false).
  vm_compute. discriminate.
Defined.

(** The requested limit and offset are reported on the rewriting path of a
    SELECT statement. *)
Lemma select_rewrite_reports_request :
  forall (s : text) (limit offset : N) (forceLimit : bool),
    type (analyzeQuery s) = SELECT ->
    hasLimit (analyzeQuery s) && negb forceLimit = false ->
    wasLimited (applyQueryLimit s limit offset forceLimit) = true
    /\ appliedLimit (applyQueryLimit s limit offset forceLimit) = limit
    /\ appliedOffset (applyQueryLimit s limit offset forceLimit) = offset.
Proof.
  intros s limit offset forceLimit H G. unfold applyQueryLimit.
  rewrite H, G. repeat split; reflexivity.
Qed.

(** X1: without an existing clause the semicolon of the input is put back
    after the new clause. *)
Lemma semicolon_restored_without_limit :
  forall (s : text) (limit offset : N) (forceLimit : bool),
    type (analyzeQuery s) = SELECT ->
    hasLimit (analyzeQuery s) = false ->
    endsWith (trim s) ";" = true ->
    endsWith (sql (applyQueryLimit s limit offset forceLimit)) ";" = true.
Proof.
  intros s limit offset forceLimit T L S. unfold applyQueryLimit.
  rewrite T, L. cbn [QueryType_eqb negb andb]. cbv zeta. rewrite S.
  cbn [sql]. change (str ";") with [";"%char].
  now rewrite endsWith_app_last.
Qed.

(** C4 at its failing input: under a forced override the pattern that
    strips the existing clause takes the semicolon with it, and the result
    has none. *)
Lemma forced_override_drops_semicolon :
  applyQueryLimit (str "SELECT * FROM t LIMIT 10;") 500 0 true
  = {| sql := str "SELECT * FROM t LIMIT 500";
       wasLimited := true;
       originalLimit := Some 10%N;
       appliedLimit := 500;
       appliedOffset := 0 |}.
Proof. vm_compute. reflexivity. Qed.

End LimiterFacts.

Module EstimateFacts.

Import QueryLimiter Estimate EstimateSamples.

Lemma nearest_tenth (n d : Z) :
  (0 < d)%Z ->
  (Z.abs ((20 * n + d) / (2 * d) * d - 10 * n) < d)%Z.
Proof.
  intros D.
  pose proof (Z.div_mod (20 * n + d) (2 * d) ltac:(lia)) as E.
  pose proof (Z.mod_pos_bound (20 * n + d) (2 * d) ltac:(lia)) as B.
  revert E B.
  generalize ((20 * n + d) / (2 * d))%Z ((20 * n + d) mod (2 * d))%Z.
  intros q m E B. lia.
Qed.

Lemma large_warning_magnitude (n : Z) :
  (10000 < n)%Z -> magnitude_warning n (large_warning n).
Proof.
  intros L. unfold large_warning, formatNumber.
  destruct (1000000 <=? n)%Z eqn:M.
  - apply Z.leb_le in M.
    exists ((20 * n + 1000000) / 2000000)%Z, 1000000%Z, "M"%string.
    split; [|split].
    + change 1000000%Q with (inject_Z (Zpos 1000000)).
      rewrite (toFixed_quotient n 1000000) by
        (try lia; apply Z.div_le_lower_bound; lia).
      now rewrite <- !app_assoc.
    + right. auto.
    + apply (nearest_tenth n 1000000). lia.
  - apply Z.leb_gt in M.
    replace (1000 <=? n)%Z with true by (symmetry; apply Z.leb_le; lia).
    exists ((20 * n + 1000) / 2000)%Z, 1000%Z, "K"%string.
    split; [|split].
    + change 1000%Q with (inject_Z (Zpos 1000)).
      rewrite (toFixed_quotient n 1000) by
        (try lia; apply Z.div_le_lower_bound; lia).
      now rewrite <- !app_assoc.
    + left. auto.
    + apply (nearest_tenth n 1000). lia.
Qed.

Section RouteFacts.

Variable exn : Type.
Variables instanceof_QueryError instanceof_TimeoutError isDatabaseError
  : exn -> bool.
Variable req_json : outcome exn RequestBody.
Variable getOrCreateProvider : DatabaseConnection -> outcome exn (Provider exn).

Let handler := handler instanceof_QueryError instanceof_TimeoutError isDatabaseError.
Let attempt := attempt req_json getOrCreateProvider.
Let POST := POST instanceof_QueryError instanceof_TimeoutError isDatabaseError req_json getOrCreateProvider.

(** Every branch of the [catch] block answers with a zero estimate. *)
Lemma handler_zero (e : exn) :
  exists diagnostic,
    handler e
    = Status200 {| estimatedRows := 0; isLargeResult := false;
                   warning := None; error := diagnostic |}.
Proof.
  unfold handler, Estimate.handler.
  destruct (instanceof_QueryError e); [eauto|].
  destruct (instanceof_TimeoutError e); [eauto|].
  destruct (isDatabaseError e); eauto.
Qed.

(** Whatever is thrown inside the [try] block is handled. *)
Lemma thrown_is_caught (e : exn) :
  attempt = Throws e -> POST = handler e.
Proof. unfold POST, Estimate.POST. fold attempt. now intros ->. Qed.

(** C7: when the delegated plan call (the EXPLAIN query of the PostgreSQL
    or of the MySQL branch) throws, whatever the exception is, the route
    answers with [estimatedRows = 0], [isLargeResult = false], no warning
    and at most a diagnostic string; the exception does not reach the
    caller. *)
Theorem plan_call_failure_caught :
  forall (body : RequestBody) (conn : DatabaseConnection) (q : text)
         (provider : Provider exn) (e : exn),
    req_json = Returns body ->
    connection body = Some conn ->
    sql body = Some q ->
    isSelectQuery q = true ->
    getOrCreateProvider conn = Returns provider ->
    (text_eqb (conn_type conn) (str "postgres") = true
     /\ query provider (str "EXPLAIN (FORMAT JSON) " ++ q) = Throws e)
    \/ (text_eqb (conn_type conn) (str "postgres") = false
        /\ text_eqb (conn_type conn) (str "mysql") = true
        /\ query provider (str "EXPLAIN " ++ q) = Throws e) ->
    exists diagnostic,
      POST
      = Status200 {| estimatedRows := 0; isLargeResult := false;
                     warning := None; error := diagnostic |}.
Proof.
  intros body conn q provider e Hreq Hc Hs Hsel Hp Hfail.
  assert (Hq : q <> []).
  { intros ->. vm_compute in Hsel. discriminate Hsel. }
  assert (A : attempt = Throws e).
  { unfold attempt, Estimate.attempt. rewrite Hreq. cbn [bind].
    rewrite Hc, Hs. destruct q as [|c q]; [contradiction|].
    rewrite Hsel. cbn [negb]. rewrite Hp. cbn [bind].
    unfold estimate.
    destruct Hfail as [[Ty Hf] | (Ty1 & Ty2 & Hf)].
    - rewrite Ty, Hf. reflexivity.
    - rewrite Ty1, Ty2, Hf. reflexivity. }
  rewrite (thrown_is_caught e A). apply handler_zero.
Qed.

(** C8: in every estimate the route returns, [isLargeResult] is true
    exactly when [estimatedRows] is strictly above 10000; at 10000 rows
    and below there is no warning, and above 10000 rows there is one,
    which quotes the row count in thousands, or in millions from a million
    rows on, with one decimal and an error below a tenth of the unit.  The
    row counts are integers up to 2^53 - 1. *)
Theorem large_result_threshold :
  forall r : RowEstimateResult,
    POST = Status200 r ->
    isLargeResult r = (10000 <? estimatedRows r)%Z
    /\ ((estimatedRows r <= 10000)%Z -> warning r = None)
    /\ ((10000 < estimatedRows r)%Z ->
        (estimatedRows r <= Z.of_N MAX_SAFE_INTEGER)%Z ->
        exists w,
          warning r = Some w /\ magnitude_warning (estimatedRows r) w).
Proof.
  assert (G : forall n : Z,
            ((n <= 10000)%Z ->
             (if (10000 <? n)%Z then Some (large_warning n) else None)
             = None)
            /\ ((10000 < n)%Z -> (n <= Z.of_N MAX_SAFE_INTEGER)%Z ->
                exists w,
                  (if (10000 <? n)%Z then Some (large_warning n) else None)
                  = Some w
                  /\ magnitude_warning n w)).
  { intros n. split.
    - intros L. now replace (10000 <? n)%Z with false
        by (symmetry; apply Z.ltb_ge; exact L).
    - intros L _. replace (10000 <? n)%Z with true
        by (symmetry; apply Z.ltb_lt; exact L).
      eexists. split; [reflexivity|]. now apply large_warning_magnitude. }
  intros r. unfold POST, Estimate.POST. fold attempt.
  destruct attempt as [resp|e] eqn:A.
  - intros ->. revert A. unfold attempt, Estimate.attempt.
    destruct req_json as [body|]; cbn [bind]; [|discriminate].
    destruct (connection body) as [conn|]; [|discriminate].
    destruct (sql body) as [[|c q]|]; try discriminate.
    destruct (negb (isSelectQuery (c :: q))).
    { intros A. injection A as <-. cbn [estimatedRows isLargeResult warning].
      split; [reflexivity|]. split; [reflexivity|]. intros H. discriminate H. }
    destruct (getOrCreateProvider conn) as [provider|]; cbn [bind];
      [|discriminate].
    destruct (estimate (conn_type conn) provider (c :: q)) as [n|];
      cbn [bind]; [|discriminate].
    intros A. injection A as <-. cbn [estimatedRows isLargeResult warning].
    unfold LARGE_RESULT_THRESHOLD. split; [reflexivity|]. apply G.
  - intros H. destruct (handler_zero e) as [d Hd].
    fold handler in H. rewrite Hd in H. injection H as <-.
    cbn [estimatedRows isLargeResult warning].
    split; [reflexivity|]. split; [reflexivity|]. intros H. discriminate H.
Qed.

End RouteFacts.

Lemma plan_call_failure_caught_witness :
  exists diagnostic,
    sample_POST "mysql" "SELECT * FROM orders" (Throws a_timeout)
    = Status200 {| estimatedRows := 0; isLargeResult := false;
                   warning := None; error := diagnostic |}.
Proof.
  unfold sample_POST.
  eapply (plan_call_failure_caught _ _ _ _ _ _ _ _ _
            {| query := fun _ => Throws a_timeout |} a_timeout).
  - reflexivity.
  - reflexivity.
  - reflexivity.
  - vm_compute. reflexivity.
  - reflexivity.
  - right. repeat split; vm_compute; reflexivity.
Defined.

Lemma large_result_threshold_witness :
  (exists r,
     sample_POST "postgres" "SELECT * FROM orders"
       (Returns (postgres_answer 10350)) = Status200 r
     /\ estimatedRows r = 10350%Z /\ isLargeResult r = true
     /\ exists w, warning r = Some w /\ magnitude_warning 10350 w)
  /\ (exists r,
        sample_POST "postgres" "SELECT * FROM orders"
          (Returns (postgres_answer 10000)) = Status200 r
        /\ estimatedRows r = 10000%Z /\ isLargeResult r = false
        /\ warning r = None).
Proof.
  split.
  - assert (H : sample_POST "postgres" "SELECT * FROM orders"
                  (Returns (postgres_answer 10350))
                = Status200 {| estimatedRows := 10350; isLargeResult := true;
                               warning := Some (large_warning 10350);
                               error := None |})
      by (vm_compute; reflexivity).
    eexists. split; [exact H|]. split; [reflexivity|].
    unfold sample_POST in H.
    destruct (large_result_threshold _ _ _ _ _ _ _ H) as (I & _ & W).
    split; [exact I|]. apply W; [reflexivity|discriminate].
  - assert (H : sample_POST "postgres" "SELECT * FROM orders"
                  (Returns (postgres_answer 10000))
                = Status200 {| estimatedRows := 10000; isLargeResult := false;
                               warning := None; error := None |})
      by (vm_compute; reflexivity).
    eexists. split; [exact H|]. split; [reflexivity|].
    unfold sample_POST in H.
    destruct (large_result_threshold _ _ _ _ _ _ _ H) as (I & W & _).
    split; [exact I|]. apply W. discriminate.
Defined.

End EstimateFacts.

Module PlanAnalyzerFacts.

Import VisualExplain PlanSamples.

Lemma div_defined (a b : Q) :
  Qeq_bool b 0%Q = false -> div a b = Some (a / b)%Q.
Proof. intros H. unfold div. now rewrite H. Qed.

Lemma Qgtb_nonzero (b : Q) : Qgtb b 0%Q = true -> Qeq_bool b 0%Q = false.
Proof.
  unfold Qgtb. intros H.
  destruct (Qeq_bool b 0%Q) eqn:E; [|reflexivity].
  apply Qeq_bool_iff in E.
  assert (L : Qle_bool b 0%Q = true).
  { apply Qle_bool_iff. rewrite E. apply Qle_refl. }
  rewrite L in H. discriminate.
Qed.

Lemma formatNumber_defined (num : Q) : exists t, formatNumber num = Some t.
Proof.
  unfold formatNumber.
  destruct (Qgeb num 1000000); [rewrite div_defined by reflexivity; eauto|].
  destruct (Qgeb num 1000); [rewrite div_defined by reflexivity; eauto|].
  eauto.
Qed.

Lemma formatTime_defined (ms : Q) : exists t, formatTime ms = Some t.
Proof.
  unfold formatTime.
  destruct (Qgeb ms 1000); [rewrite div_defined by reflexivity; eauto|].
  destruct (Qgeb ms 1); eauto.
Qed.

Ltac settle_defined :=
  repeat match goal with
  | |- context [formatNumber ?x] =>
      destruct (formatNumber_defined x) as [? ->]
  | |- context [formatTime ?x] =>
      destruct (formatTime_defined x) as [? ->]
  | H : Qgtb ?b 0%Q = true |- context [div ?a ?b] =>
      rewrite (@div_defined a b (@Qgtb_nonzero b H))
  | |- context [if ?c then _ else _] => destruct c
  end.

(** The body of [analyzeNode] divides by [planRows] only under the guard
    [planRows > 0], and by literals elsewhere. *)
Lemma visit_defined (node : ExplainPlanNode) (a : Acc) :
  exists a', visit node a = Some a'.
Proof.
  unfold visit.
  set (nodeType := text_or (Node_Type node) []).
  set (actualRows := num_or (Actual_Rows node) 0%Q).
  set (planRows := num_or (Plan_Rows node) 0%Q).
  set (actualTime := num_or (Actual_Total_Time node) 0%Q).
  set (actualLoops := num_nullish (Actual_Loops node) 1%Q).
  destruct (Qgtb planRows 0) eqn:Hp; cbn [andb]; settle_defined; eauto.
Qed.

Lemma analyzeNode_defined :
  forall (node : ExplainPlanNode) (depth : nat) (a : Acc),
  exists a', analyzeNode node depth a = Some a'.
Proof.
  fix IH 1. intros node depth a.
  destruct node as [ty ar pr att tc sh sr rn al fl ix pl].
  cbn [analyzeNode].
  destruct (visit_defined
              (PlanNode ty ar pr att tc sh sr rn al fl ix pl) a) as [a1 ->].
  cbn [Plans]. destruct pl as [children|]; [|eauto].
  revert a1. induction children as [|child children IHc]; intros a1.
  - eauto.
  - destruct (IH child (depth + 1) a1) as [a2 ->]. apply IHc.
Qed.

Lemma status_denominator_nonzero (h r : Q) :
  Qeq_bool (status_denominator h r) 0%Q = false.
Proof.
  unfold status_denominator.
  destruct (Qeq_bool (h + r) 0%Q) eqn:E; [reflexivity | exact E].
Qed.

(** What [analyzePlan] returns, given the accumulator its traversal ends
    with. *)
Lemma analyzePlan_unfold (plan : option (list ExplainPlanResult)) :
  exists acc,
    match rootPlan plan with
    | Some n => analyzeNode n 0 start
    | None => Some start
    end = Some acc
    /\ exists a,
      analyzePlan plan = Some a
      /\ warnings a = acc_warnings acc
      /\ nodeCount a = acc_nodeCount acc
      /\ bufferHits a = acc_bufferHits acc
      /\ bufferReads a = acc_bufferReads acc
      /\ totalRows a = acc_totalRows acc
      /\ exists execution,
        formatTime (executionTime a) = Some execution
        /\ insights a =
           [ {| label := str "Cache Hit Rate";
                value :=
                  if Qgtb (bufferHits a + bufferReads a) 0
                  then toFixed 1
                         (bufferHits a / (bufferHits a + bufferReads a)
                          * 100)%Q ++ str "%"
                  else str "N/A";
                status :=
                  if Qgtb (bufferHits a
                           / status_denominator (bufferHits a)
                               (bufferReads a)) 0.95
                  then good else warning |};
             {| label := str "Operations";
                value := dec (nodeCount a);
                status :=
                  if (20 <? nodeCount a)%N then warning else good |};
             {| label := str "Execution";
                value := execution;
                status :=
                  if Qgtb (executionTime a) 1000 then critical
                  else if Qgtb (executionTime a) 100 then warning
                  else good |} ].
Proof.
  unfold analyzePlan.
  assert (D : exists acc,
             match rootPlan plan with
             | Some n => analyzeNode n 0 start
             | None => Some start
             end = Some acc).
  { destruct (rootPlan plan); [apply analyzeNode_defined | eauto]. }
  destruct D as [acc D]. exists acc. split; [exact D|]. rewrite D.
  set (h := acc_bufferHits acc). set (r := acc_bufferReads acc).
  fold (status_denominator h r).
  rewrite (@div_defined h _ (status_denominator_nonzero h r)).
  match goal with
  | |- context [formatTime ?x] => destruct (formatTime_defined x) as [ex Hex]
  end.
  rewrite Hex.
  destruct (Qgtb (h + r) 0) eqn:G.
  - rewrite (@div_defined h _ (@Qgtb_nonzero _ G)).
    eexists. split; [reflexivity|]. cbn -[toFixed dec str Qgtb Qdiv Qmult].
    repeat (split; [reflexivity|]). exists ex. split; [exact Hex|].
    fold h r. rewrite G. reflexivity.
  - eexists. split; [reflexivity|]. cbn -[toFixed dec str Qgtb Qdiv Qmult].
    repeat (split; [reflexivity|]). exists ex. split; [exact Hex|].
    fold h r. rewrite G. reflexivity.
Qed.

(** C6, as stated, fails: without a root node the analysis still carries
    the three fixed insights. *)
Lemma absent_root_has_insights :
  ~ (exists a,
        analyzePlan no_root = Some a
        /\ warnings a = [] /\ insights a = []).
Proof.
  intros (a & H & _ & Hi).
  vm_compute in H. injection H as <-. discriminate Hi.
Qed.

(** C6, amended: the analyzer never fails, whatever optional fields are
    missing; every analysis has exactly three insights, so none is empty;
    without a root node it has no warning, counts no node, and its insights
    are "N/A" (Warning), "0" (Good) and the execution time. *)
Theorem absent_root_analysis :
  forall plan,
    exists a,
      analyzePlan plan = Some a
      /\ length (insights a) = 3
      /\ (rootPlan plan = None ->
          warnings a = []
          /\ nodeCount a = 0%N
          /\ exists execution,
               map (fun i => (label i, value i)) (insights a)
               = [ (str "Cache Hit Rate", str "N/A");
                   (str "Operations", str "0");
                   (str "Execution", execution) ]).
Proof.
  intros plan.
  destruct (analyzePlan_unfold plan)
    as (acc & Hacc & a & Ha & Hw & Hn & Hh & Hr & _ & ex & _ & Hi).
  exists a. split; [exact Ha|]. split; [rewrite Hi; reflexivity|].
  intros Hroot. rewrite Hroot in Hacc. injection Hacc as <-.
  split; [exact Hw|]. split; [exact Hn|].
  exists ex. rewrite Hi, Hn, Hh, Hr. reflexivity.
Qed.

Lemma absent_root_analysis_witness :
  exists a,
    analyzePlan no_root = Some a
    /\ length (insights a) = 3 /\ warnings a = [] /\ nodeCount a = 0%N.
Proof.
  destruct (absent_root_analysis no_root) as (a & Ha & Hl & Hroot).
  exists a. split; [exact Ha|]. split; [exact Hl|].
  destruct (Hroot eq_refl) as (Hw & Hn & _). split; assumption.
Defined.

End PlanAnalyzerFacts.

(** *** The characters of a numeral *)

Lemma forallb_weaken (P Q : ascii -> bool) (l : text) :
  (forall c, P c = true -> Q c = true) ->
  forallb P l = true -> forallb Q l = true.
Proof.
  intros W. induction l as [|c l IH]; [reflexivity|]. cbn.
  intros H. apply andb_prop in H. destruct H as [C H].
  now rewrite (W c C), IH.
Qed.

Lemma forallb_hd (P : ascii -> bool) (l : text) :
  forallb P l = true -> hd_ok P l = true.
Proof.
  destruct l as [|c l]; [reflexivity|]. cbn. intros H.
  now apply andb_prop in H.
Qed.

Lemma digit_numeral c : is_digit c = true -> numeral_char c = true.
Proof. unfold numeral_char. now intros ->. Qed.

Lemma numeral_not_N c : numeral_char c = true -> not_N c = true.
Proof.
  unfold numeral_char, not_N. destruct (Ascii.eqb c "N") eqn:E; [|reflexivity].
  apply Ascii.eqb_eq in E. subst c. intros H. discriminate H.
Qed.

Lemma toFixed_chars f q : forallb numeral_char (toFixed f q) = true.
Proof.
  unfold toFixed.
  set (d := dec _). set (m := repeat "0"%char (S f - length d) ++ d).
  assert (M : forallb numeral_char m = true).
  { unfold m. rewrite forallb_app. apply andb_true_intro. split.
    - induction (S f - length d)%nat as [|k IH]; [reflexivity|exact IH].
    - apply (forallb_weaken is_digit); [exact digit_numeral|].
      apply dec_digits. }
  rewrite forallb_app. apply andb_true_intro. split.
  - now destruct (Qltb q 0).
  - destruct (Nat.eqb f 0); [exact M|].
    rewrite <- (firstn_skipn (length m - f) m), forallb_app in M.
    apply andb_prop in M. destruct M as [M1 M2].
    rewrite !forallb_app, M1, M2. reflexivity.
Qed.

(** ** The plan analyzer over doubles *)

Module PlanDoubleFacts.

Import Double VisualExplain64 PlanSamples64.

(** *** Rounding never gives NaN *)

Lemma shr_1_nonneg mrs : (0 <= shr_m mrs)%Z -> (0 <= shr_m (shr_1 mrs))%Z.
Proof.
  destruct mrs as [m r s]. destruct m as [|p|p]; cbn; intros H;
    try destruct p; cbn; lia.
Qed.

Lemma iter_shr_nonneg p :
  forall mrs, (0 <= shr_m mrs)%Z -> (0 <= shr_m (iter_pos shr_1 p mrs))%Z.
Proof.
  induction p as [p IH|p IH|]; intros mrs H; cbn [iter_pos].
  - apply IH, IH, shr_1_nonneg, H.
  - apply IH, IH, H.
  - apply shr_1_nonneg, H.
Qed.

Lemma shr_fexp_nonneg m e l :
  (0 <= m)%Z -> (0 <= shr_m (fst (shr_fexp prec emax m e l)))%Z.
Proof.
  intros H. unfold shr_fexp, shr.
  assert (R : (0 <= shr_m (shr_record_of_loc m l))%Z)
    by (destruct l as [|[]]; exact H).
  destruct (_ - e)%Z; cbn [fst]; [exact R| |exact R].
  now apply iter_shr_nonneg.
Qed.

Lemma round_nearest_even_nonneg m l :
  (0 <= m)%Z -> (0 <= round_nearest_even m l)%Z.
Proof.
  intros H. destruct l as [|[]]; cbn; try destruct (Z.even m); lia.
Qed.

Lemma binary_round_aux_not_nan sx mx ex lx :
  (0 <= mx)%Z -> is_nan (binary_round_aux prec emax sx mx ex lx) = false.
Proof.
  intros H. unfold binary_round_aux.
  pose proof (shr_fexp_nonneg mx ex lx H) as H1.
  destruct (shr_fexp prec emax mx ex lx) as [mrs' e']. cbn [fst] in H1.
  pose proof (shr_fexp_nonneg _ e' loc_Exact
                (round_nearest_even_nonneg _ (loc_of_shr_record mrs') H1))
    as H2.
  destruct (shr_fexp prec emax _ e' loc_Exact) as [mrs'' e''].
  cbn [fst] in H2. destruct (shr_m mrs'') as [|p|p]; [reflexivity| |lia].
  now destruct (_ <=? _)%Z.
Qed.

Lemma add_finite x y :
  is_finite x = true -> is_finite y = true -> is_nan (add x y) = false.
Proof.
  destruct x as [sx| | |sx mx ex], y as [sy| | |sy my ey];
    try discriminate; intros _ _; try reflexivity.
  - now destruct sx, sy.
  - unfold add, SFadd, binary_normalize.
    destruct (_ + _)%Z; [reflexivity| |]; unfold binary_round;
      destruct (shl_align _ _ _); now apply binary_round_aux_not_nan.
Qed.

Lemma quot_finite x y :
  is_finite x = true -> is_nan y = false -> is_zero y = false ->
  is_nan (quot x y) = false.
Proof.
  destruct x as [sx| | |sx mx ex], y as [sy|sy| |sy my ey];
    try discriminate; intros _ _ _; try reflexivity.
  unfold quot, SFdiv, SFdiv_core_binary.
  set (m' := match _ with Z0 => Zpos mx | Zpos _ => _ | Zneg _ => 0%Z end).
  assert (M : (0 <= m')%Z).
  { unfold m'. destruct (_ - _ - _)%Z; try lia.
    rewrite Z.shiftl_mul_pow2 by lia. 
    apply Z.mul_nonneg_nonneg; [lia|]. apply Z.pow_nonneg. lia. }
  pose proof (Z.div_pos m' (Zpos my) M ltac:(lia)) as Q.
  unfold Z.div in Q. destruct (Z.div_eucl m' (Zpos my)) as [q r].
  now apply binary_round_aux_not_nan.
Qed.

Lemma mul_finite_r x y :
  is_nan x = false -> is_finite y = true -> is_zero y = false ->
  is_nan (mul x y) = false.
Proof.
  destruct x as [sx|sx| |sx mx ex], y as [sy| | |sy my ey];
    try discriminate; intros _ _ _; try reflexivity.
  unfold mul, SFmul. now apply binary_round_aux_not_nan.
Qed.

Lemma drop_zeros_chars (P : ascii -> bool) (l : text) :
  forallb P l = true -> forallb P (drop_zeros l) = true.
Proof.
  induction l as [|c l IH]; [reflexivity|]. cbn [forallb drop_zeros].
  intros H. destruct (Ascii.eqb c "0"); [|exact H].
  apply andb_prop in H. now apply IH.
Qed.

Lemma forallb_rev_text (P : ascii -> bool) (l : text) :
  forallb P l = true -> forallb P (rev l) = true.
Proof.
  rewrite !forallb_forall. intros H c I. apply H. now apply in_rev.
Qed.

Lemma exponent_form_hd x X : hd_ok not_N (exponent_form x X) = true.
Proof.
  unfold exponent_form. set (v := dec _).
  assert (D : forallb is_digit (rev (drop_zeros (rev v))) = true).
  { apply forallb_rev_text, drop_zeros_chars, forallb_rev_text.
    apply dec_digits. }
  destruct (rev (drop_zeros (rev v))) as [|d [|d' ds]]; [reflexivity| |];
    cbn in D; apply andb_prop in D; destruct D as [D _];
    cbn [hd_ok]; apply numeral_not_N, digit_numeral, D.
Qed.

(** The text [toFixed] gives for a number that is not NaN does not start
    with the letter N. *)
Lemma toFixed_hd f x :
  is_nan x = false -> hd_ok not_N (Double.toFixed f x) = true.
Proof.
  destruct x as [s|s| |s m e]; try discriminate; intros _;
    unfold Double.toFixed.
  - apply forallb_hd, (forallb_weaken numeral_char);
      [exact numeral_not_N|apply toFixed_chars].
  - now destruct s.
  - destruct (SFleb _ _).
    + destruct s; [reflexivity|]. apply exponent_form_hd.
    + apply forallb_hd, (forallb_weaken numeral_char);
        [exact numeral_not_N|apply toFixed_chars].
Qed.

(** *** No division by zero *)

Lemma double_div_defined (a b : double) :
  is_zero b = false -> div a b = Some (quot a b).
Proof. intros H. unfold div. now rewrite H. Qed.

Lemma gtb_nonzero (b : double) : gtb b (of_Z 0) = true -> is_zero b = false.
Proof. now destruct b. Qed.

Lemma gtb_not_nan (b c : double) : gtb b c = true -> is_nan b = false.
Proof. destruct b; try reflexivity. now destruct c. Qed.

Lemma or_else_nonzero (x : double) : is_zero (or_else x (of_Z 1)) = false.
Proof. now destruct x. Qed.

Lemma formatNumber_total (num : double) :
  exists t, formatNumber num = Some t.
Proof.
  unfold formatNumber.
  destruct (geb num (of_Z 1000000));
    [rewrite double_div_defined by reflexivity; eauto|].
  destruct (geb num (of_Z 1000)); [rewrite double_div_defined by reflexivity; eauto|].
  eauto.
Qed.

Lemma formatTime_total (ms : double) : exists t, formatTime ms = Some t.
Proof.
  unfold formatTime.
  destruct (geb ms (of_Z 1000)); [rewrite double_div_defined by reflexivity; eauto|].
  destruct (geb ms (of_Z 1)); eauto.
Qed.

Ltac settle_total :=
  repeat match goal with
  | |- context [formatNumber ?x] =>
      destruct (formatNumber_total x) as [? ->]
  | |- context [formatTime ?x] =>
      destruct (formatTime_total x) as [? ->]
  | H : gtb ?b (of_Z 0) = true |- context [div ?a ?b] =>
      rewrite (@double_div_defined a b (@gtb_nonzero b H))
  | |- context [if ?c then _ else _] => destruct c
  end.

(** The body of [analyzeNode] divides by [planRows] only under the guard
    [planRows > 0], and by literals elsewhere. *)
Lemma visit_total (node : ExplainPlanNode) (a : Acc) :
  exists a', visit node a = Some a'.
Proof.
  unfold visit.
  set (nodeType := VisualExplain.text_or (Node_Type node) []).
  set (actualRows := num_or (Actual_Rows node) (of_Z 0)).
  set (planRows := num_or (Plan_Rows node) (of_Z 0)).
  set (actualTime := num_or (Actual_Total_Time node) (of_Z 0)).
  set (actualLoops := num_nullish (Actual_Loops node) (of_Z 1)).
  destruct (gtb planRows (of_Z 0)) eqn:Hp; cbn [andb]; settle_total; eauto.
Qed.

Lemma analyzeNode_total :
  forall (node : ExplainPlanNode) (depth : nat) (a : Acc),
  exists a', analyzeNode node depth a = Some a'.
Proof.
  fix IH 1. intros node depth a.
  destruct node as [ty ar pr att tc sh sr rn al fl ix pl].
  cbn [analyzeNode].
  destruct (visit_total
              (PlanNode ty ar pr att tc sh sr rn al fl ix pl) a) as [a1 ->].
  cbn [Plans]. destruct pl as [children|]; [|eauto].
  revert a1. induction children as [|child children IHc]; intros a1.
  - eauto.
  - destruct (IH child (depth + 1) a1) as [a2 ->]. apply IHc.
Qed.

(** What [analyzePlan] returns, given the accumulator its traversal ends
    with. *)
Lemma analyzePlan_shape (plan : option (list ExplainPlanResult)) :
  exists acc,
    match rootPlan plan with
    | Some n => analyzeNode n 0 start
    | None => Some start
    end = Some acc
    /\ exists a,
      analyzePlan plan = Some a
      /\ bufferHits a = acc_bufferHits acc
      /\ bufferReads a = acc_bufferReads acc
      /\ exists rest,
        insights a =
           {| VisualExplain.label := str "Cache Hit Rate";
              VisualExplain.value :=
                if gtb (add (bufferHits a) (bufferReads a)) (of_Z 0)
                then Double.toFixed 1
                       (mul (quot (bufferHits a)
                               (add (bufferHits a) (bufferReads a)))
                          (of_Z 100)) ++ str "%"
                else str "N/A";
              VisualExplain.status :=
                if gtb (quot (bufferHits a)
                          (or_else (add (bufferHits a) (bufferReads a))
                             (of_Z 1)))
                     (literal 95 100)
                then VisualExplain.good else VisualExplain.warning |}
           :: rest.
Proof.
  unfold analyzePlan.
  assert (D : exists acc,
             match rootPlan plan with
             | Some n => analyzeNode n 0 start
             | None => Some start
             end = Some acc).
  { destruct (rootPlan plan); [apply analyzeNode_total | eauto]. }
  destruct D as [acc D]. exists acc. split; [exact D|]. rewrite D.
  set (h := acc_bufferHits acc). set (r := acc_bufferReads acc).
  rewrite (@double_div_defined h _ (or_else_nonzero (add h r))).
  match goal with
  | |- context [formatTime ?x] => destruct (formatTime_total x) as [ex Hex]
  end.
  rewrite Hex.
  destruct (gtb (add h r) (of_Z 0)) eqn:G.
  - rewrite (@double_div_defined h _ (@gtb_nonzero _ G)).
    eexists. split; [reflexivity|]. cbn [bufferHits bufferReads insights].
    fold h r. rewrite G. repeat (split; [reflexivity|]).
    eexists. reflexivity.
  - eexists. split; [reflexivity|]. cbn [bufferHits bufferReads insights].
    fold h r. rewrite G. repeat (split; [reflexivity|]).
    eexists. reflexivity.
Qed.

Import VisualExplain(label, value, status, good, warning).

(** C5, as stated, fails: with 95 hits and 5 reads the ratio is the double
    0.95, the value is "95.0%", and the status is Warning, not Good. *)
Lemma cache_hit_95_5_not_good :
  ~ (exists a i l,
        analyzePlan (hits_reads 95 5) = Some a
        /\ insights a = i :: l
        /\ value i = str "95.0%"
        /\ status i = good).
Proof.
  intros (a & i & l & H & Hi & _ & Hs).
  vm_compute in H. injection H as <-.
  cbn [insights] in Hi. injection Hi as <- _.
  discriminate Hs.
Qed.

(** C5, amended: the first insight is the cache-hit rate.  Its value is
    "N/A" unless the total of hits and reads is above zero, and then the
    quotient of the hits by the total, times 100, printed with one decimal
    and a percent sign; its status is Good exactly when the quotient of the
    hits by the total (by 1 for a total of zero) is strictly above 0.95,
    else Warning.  Sums, quotients and products are those of doubles.  95
    hits and 5 reads give "95.0%" with Warning, 96 and 4 "96.0%" with Good,
    23 and 57 "28.7%" with Warning, no hit and no read "N/A" with
    Warning. *)
Theorem cache_hit_insight :
  (forall plan a,
     analyzePlan plan = Some a ->
     let h := bufferHits a in
     let r := bufferReads a in
     exists i l,
       insights a = i :: l
       /\ label i = str "Cache Hit Rate"
       /\ value i =
          (if gtb (add h r) (of_Z 0)
           then Double.toFixed 1 (mul (quot h (add h r)) (of_Z 100))
                ++ str "%"
           else str "N/A")
       /\ (status i = good
           <-> gtb (quot h (or_else (add h r) (of_Z 1))) (literal 95 100)
               = true)
       /\ (status i = good \/ status i = warning))
  /\ map cache_hit_of
       [hits_reads 95 5; hits_reads 96 4; hits_reads 23 57; hits_reads 0 0]
     = [Some (str "95.0%", warning); Some (str "96.0%", good);
        Some (str "28.7%", warning); Some (str "N/A", warning)].
Proof.
  split.
  - intros plan a H h r.
    destruct (analyzePlan_shape plan)
      as (acc & _ & a' & Ha & _ & _ & rest & Hi).
    rewrite Ha in H. injection H as ->.
    rewrite Hi. fold h r. eexists. eexists. split; [reflexivity|].
    cbn [label value status].
    split; [reflexivity|]. split; [reflexivity|].
    destruct (gtb (quot h (or_else (add h r) (of_Z 1))) (literal 95 100)).
    + split; [|now left]. split; reflexivity.
    + split; [|now right]. split; discriminate.
  - vm_compute. reflexivity.
Qed.

Lemma cache_hit_insight_witness :
  exists a,
    analyzePlan (hits_reads 99 1) = Some a
    /\ exists i l,
         insights a = i :: l /\ value i = str "99.0%" /\ status i = good.
Proof.
  destruct (analyzePlan (hits_reads 99 1)) as [a|] eqn:E;
    [|vm_compute in E; discriminate E].
  exists a. split; [reflexivity|].
  destruct (proj1 cache_hit_insight (hits_reads 99 1) a E)
    as (i & l & Hi & _ & Hv & Hs & _).
  assert (Ea : Some a = analyzePlan (hits_reads 99 1)) by (symmetry; exact E).
  vm_compute in Ea. injection Ea as ->.
  exists i, l. split; [exact Hi|]. split.
  - rewrite Hv. vm_compute. reflexivity.
  - apply Hs. vm_compute. reflexivity.
Defined.

(** C9, as stated, fails: two nodes with 10^308 cached blocks each make the
    total of hits overflow to infinity, and the cache-hit value is the
    quotient of two infinities, printed as "NaN%". *)
Lemma overflowing_hits_give_nan :
  exists a i l,
    analyzePlan overflow_plan = Some a
    /\ bufferHits a = S754_infinity false
    /\ insights a = i :: l
    /\ value i = str "NaN%".
Proof.
  eexists. eexists. eexists.
  split; [vm_compute; reflexivity|].
  split; [reflexivity|]. split; reflexivity.
Qed.

(** C9, amended: no division of the analyzer has a zero denominator, so
    that the analysis of every node and of every plan goes through; when
    the total of hits and reads is not above zero, as with no hit and no
    read, the cache-hit value is "N/A"; and when the totals of hits and of
    reads are finite, the cache-hit value is not "NaN%".  The totals are
    sums of doubles, which can overflow to an infinity. *)
Theorem analyzer_divisions_guarded :
  (forall node depth acc, exists acc', analyzeNode node depth acc = Some acc')
  /\ (forall plan, exists a, analyzePlan plan = Some a)
  /\ (forall plan a,
        analyzePlan plan = Some a ->
        gtb (add (bufferHits a) (bufferReads a)) (of_Z 0) = false ->
        exists i l, insights a = i :: l /\ value i = str "N/A")
  /\ (forall plan a,
        analyzePlan plan = Some a ->
        is_finite (bufferHits a) = true ->
        is_finite (bufferReads a) = true ->
        exists i l, insights a = i :: l /\ value i <> str "NaN%").
Proof.
  split; [exact analyzeNode_total|]. split; [|split].
  - intros plan.
    destruct (analyzePlan_shape plan) as (_ & _ & a & Ha & _). eauto.
  - intros plan a H Z.
    destruct (analyzePlan_shape plan)
      as (acc & _ & a' & Ha & _ & _ & rest & Hi).
    rewrite Ha in H. injection H as ->.
    rewrite Hi. eexists. eexists. split; [reflexivity|]. cbn [value].
    now rewrite Z.
  - intros plan a H Fh Fr.
    destruct (analyzePlan_shape plan)
      as (acc & _ & a' & Ha & _ & _ & rest & Hi).
    rewrite Ha in H. injection H as ->.
    rewrite Hi. eexists. eexists. split; [reflexivity|]. cbn [value].
    set (h := bufferHits a) in *. set (r := bufferReads a) in *.
    destruct (gtb (add h r) (of_Z 0)) eqn:G; [|discriminate].
    assert (N : is_nan (mul (quot h (add h r)) (of_Z 100)) = false).
    { apply mul_finite_r; [|reflexivity|reflexivity].
      apply quot_finite; [exact Fh| |now apply gtb_nonzero].
      now apply add_finite. }
    pose proof (toFixed_hd 1 _ N) as Hd.
    destruct (Double.toFixed 1 _) as [|c t]; [discriminate|].
    cbn [hd_ok] in Hd. intros E. injection E as -> _. discriminate Hd.
Qed.

Lemma analyzer_divisions_guarded_witness :
  exists a i l,
    analyzePlan (hits_reads 0 0) = Some a
    /\ insights a = i :: l /\ value i = str "N/A".
Proof.
  destruct analyzer_divisions_guarded as (_ & Hd & Hz & _).
  destruct (Hd (hits_reads 0 0)) as [a Ha].
  destruct (Hz (hits_reads 0 0) a Ha) as (i & l & Hi & Hv).
  - assert (Ea : Some a = analyzePlan (hits_reads 0 0))
      by (symmetry; exact Ha).
    vm_compute in Ea. injection Ea as ->. reflexivity.
  - exists a, i, l. repeat split; assumption.
Defined.

End PlanDoubleFacts.

(** * Further properties *)

(** ** The matcher: captures and first characters *)

Lemma moved_length ok st st' :
  moved ok st st' -> length (rest st') <= length (rest st).
Proof. intros (w & -> & _). rewrite length_app. lia. Qed.

Lemma moved_same ok st st' :
  moved ok st st' -> length (rest st') = length (rest st) -> rest st = rest st'.
Proof.
  intros (w & R & _) L. rewrite R, length_app in L.
  destruct w; [exact R|simpl in L; lia].
Qed.

Lemma star_caps step :
  (forall st st', In st' (step st) -> caps st' = caps st) ->
  forall fuel st st', In st' (star step fuel st) -> caps st' = caps st.
Proof.
  intros S. induction fuel as [|f IH]; intros st st'; simpl.
  - now intros [<-|[]].
  - rewrite in_app_iff, in_flat_map. intros [(m & Hm & H)|[<-|[]]]; auto.
    destruct (length (rest m) <? length (rest st)); [|contradiction].
    rewrite (IH _ _ H). auto.
Qed.

Lemma run_caps icase r :
  group_free r = true ->
  forall st st', In st' (run icase r st) -> caps st' = caps st.
Proof.
  induction r as [|p| | | | | |r1 IHr1 r2 IHr2|r1 IHr1 r2 IHr2|r IHr|r IHr|r IHr|n r IHr];
    cbn [group_free]; intros G st st'; cbn [run];
    try discriminate.
  - now intros [<-|[]].
  - unfold step_char. destruct (rest st) as [|c t]; [contradiction|].
    destruct (lit_ok icase p c); [|contradiction]. now intros [<-|[]].
  - unfold step_char. destruct (rest st) as [|c t]; [contradiction|].
    destruct (is_space c); [|contradiction]. now intros [<-|[]].
  - unfold step_char. destruct (rest st) as [|c t]; [contradiction|].
    destruct (is_digit c); [|contradiction]. now intros [<-|[]].
  - unfold guard. destruct (at_boundary st); [|contradiction].
    now intros [<-|[]].
  - unfold guard. destruct (prev st); [contradiction|]. now intros [<-|[]].
  - unfold guard. destruct (rest st); [|contradiction]. now intros [<-|[]].
  - apply andb_prop in G. destruct G as [G1 G2].
    rewrite in_flat_map. intros (m & Hm & H).
    rewrite (IHr2 G2 _ _ H). now apply IHr1.
  - apply andb_prop in G. destruct G as [G1 G2].
    rewrite in_app_iff. intros [H|H]; auto.
  - rewrite in_app_iff. intros [H|[<-|[]]]; auto.
  - apply star_caps. now apply IHr.
  - rewrite in_flat_map. intros (m & Hm & H).
    rewrite (star_caps _ (IHr G) _ _ _ H). now apply IHr.
Qed.

Lemma star_nothing icase r :
  forall fuel st st',
    In st' (star (run icase r) fuel st) ->
    length (rest st') = length (rest st) -> rest st' = rest st.
Proof.
  intros fuel st st' H L. symmetry.
  apply (moved_same (alpha icase r)); [|exact L].
  eapply star_moved; [apply run_moved | exact H].
Qed.

Lemma run_nullable icase r :
  forall st st',
    In st' (run icase r st) ->
    length (rest st') = length (rest st) -> nullable r = true.
Proof.
  induction r as [|p| | | | | |r1 IHr1 r2 IHr2|r1 IHr1 r2 IHr2|r IHr|r IHr|r IHr|n r IHr];
    intros st st'; cbn [run nullable]; try reflexivity.
  - unfold step_char. destruct (rest st) as [|c t]; [contradiction|].
    destruct (lit_ok icase p c); [|contradiction]. intros [<-|[]]. cbn. lia.
  - unfold step_char. destruct (rest st) as [|c t]; [contradiction|].
    destruct (is_space c); [|contradiction]. intros [<-|[]]. cbn. lia.
  - unfold step_char. destruct (rest st) as [|c t]; [contradiction|].
    destruct (is_digit c); [|contradiction]. intros [<-|[]]. cbn. lia.
  - rewrite in_flat_map. intros (m & Hm & H) L.
    pose proof (moved_length _ _ _ (run_moved icase r1 _ _ Hm)).
    pose proof (moved_length _ _ _ (run_moved icase r2 _ _ H)).
    rewrite (IHr1 _ _ Hm), (IHr2 _ _ H); [reflexivity|lia|lia].
  - rewrite in_app_iff. intros [H|H] L;
      [rewrite (IHr1 _ _ H L) | rewrite (IHr2 _ _ H L)];
      auto using orb_true_r.
  - rewrite in_flat_map. intros (m & Hm & H) L.
    pose proof (moved_length _ _ _ (run_moved icase r _ _ Hm)).
    pose proof (moved_length _ _ _
                  (star_moved _ _ (run_moved icase r) _ _ _ H)).
    apply (IHr _ _ Hm). lia.
  - rewrite in_map_iff. intros (m & <- & Hm). cbn [set_cap rest].
    now apply IHr.
Qed.

Lemma star_first icase r :
  (forall st st',
     In st' (run icase r st) ->
     length (rest st') < length (rest st) ->
     exists c u, rest st = c :: u /\ firsts icase r c = true) ->
  forall fuel st st',
    In st' (star (run icase r) fuel st) ->
    length (rest st') < length (rest st) ->
    exists c u, rest st = c :: u /\ firsts icase r c = true.
Proof.
  intros S. destruct fuel as [|f]; intros st st'; simpl.
  - intros [<-|[]]. lia.
  - rewrite in_app_iff, in_flat_map. intros [(m & Hm & H)|[<-|[]]]; [|lia].
    destruct (length (rest m) <? length (rest st)) eqn:L; [|contradiction].
    intros _. apply (S _ _ Hm). now apply Nat.ltb_lt.
Qed.

Lemma run_first icase r :
  forall st st',
    In st' (run icase r st) ->
    length (rest st') < length (rest st) ->
    exists c u, rest st = c :: u /\ firsts icase r c = true.
Proof.
  induction r as [|p| | | | | |r1 IHr1 r2 IHr2|r1 IHr1 r2 IHr2|r IHr|r IHr|r IHr|n r IHr];
    intros st st'; cbn [run firsts].
  - intros [<-|[]]. lia.
  - unfold step_char. destruct (rest st) as [|c t]; [contradiction|].
    destruct (lit_ok icase p c) eqn:O; [|contradiction]. eauto.
  - unfold step_char. destruct (rest st) as [|c t]; [contradiction|].
    destruct (is_space c) eqn:O; [|contradiction]. eauto.
  - unfold step_char. destruct (rest st) as [|c t]; [contradiction|].
    destruct (is_digit c) eqn:O; [|contradiction]. eauto.
  - unfold guard. destruct (at_boundary st); [|contradiction].
    intros [<-|[]]. lia.
  - unfold guard. destruct (prev st); [contradiction|]. intros [<-|[]]. lia.
  - unfold guard. destruct (rest st) eqn:R; [|contradiction].
    intros [<-|[]]. rewrite R. cbn. lia.
  - rewrite in_flat_map. intros (m & Hm & H) L.
    pose proof (moved_length _ _ _ (run_moved icase r1 _ _ Hm)) as L1.
    destruct (Nat.eq_dec (length (rest m)) (length (rest st))) as [E|N].
    + rewrite (run_nullable icase r1 _ _ Hm E).
      rewrite (moved_same _ _ _ (run_moved icase r1 _ _ Hm) E).
      destruct (IHr2 _ _ H) as (c & u & R & F); [lia|].
      exists c, u. rewrite F. auto using orb_true_r.
    + destruct (IHr1 _ _ Hm) as (c & u & R & F); [lia|].
      exists c, u. now rewrite F.
  - rewrite in_app_iff. intros [H|H] L.
    + destruct (IHr1 _ _ H L) as (c & u & R & F). exists c, u. now rewrite F.
    + destruct (IHr2 _ _ H L) as (c & u & R & F). exists c, u.
      rewrite F. auto using orb_true_r.
  - rewrite in_app_iff. intros [H|[<-|[]]] L; [eauto|lia].
  - apply star_first. exact IHr.
  - rewrite in_flat_map. intros (m & Hm & H) L.
    pose proof (moved_length _ _ _ (run_moved icase r _ _ Hm)) as L1.
    destruct (Nat.eq_dec (length (rest m)) (length (rest st))) as [E|N].
    + rewrite (moved_same _ _ _ (run_moved icase r _ _ Hm) E).
      apply (star_first icase r IHr _ _ _ H). lia.
    + apply (IHr _ _ Hm). lia.
  - rewrite in_map_iff. intros (m & <- & Hm). cbn [set_cap rest].
    now apply IHr.
Qed.

(** *** A match that stops before the end of the text *)




Section Cut.

Variable z : text.
Hypothesis Z : hd_ok non_word z = true.





End Cut.



(** ** The classifier and the rewriter together *)

Module LimiterRoundTrip.

Import QueryLimiter RewriterSpec LimiterFacts.

Lemma app_split_length (k r a b : text) :
  k ++ r = a ++ b -> length k = length a -> k = a /\ r = b.
Proof.
  revert a. induction k as [|c k IH]; intros [|d a]; cbn; try discriminate.
  - auto.
  - intros E L. injection E as -> E. injection L as L.
    destruct (IH a E L) as [-> ->]. auto.
Qed.

Lemma firstn_moved (w r : text) :
  firstn (length (w ++ r) - length r) (w ++ r) = w.
Proof.
  rewrite length_app. replace (length w + length r - length r) with (length w + 0) by lia.
  rewrite firstn_app_2. cbn. apply app_nil_r.
Qed.

Lemma span_prefix ok (w r a b : text) :
  w ++ r = a ++ b -> forallb ok w = true ->
  hd_ok (fun c => negb (ok c)) b = true ->
  exists a2, a = w ++ a2 /\ r = a2 ++ b.
Proof.
  revert a. induction w as [|c w IH]; intros a E F H.
  - exists a. auto.
  - cbn in F. apply andb_prop in F. destruct F as [Fc F].
    destruct a as [|d a].
    + cbn in E. subst b. cbn in H. rewrite Fc in H. discriminate H.
    + cbn in E. injection E as -> E.
      destruct (IH a E F H) as (a2 & -> & ->). now exists a2.
Qed.

(** A match of a pattern without groups in front of a character it cannot
    consume. *)
Lemma class_run r st m (a b : text) :
  group_free r = true ->
  In m (run true r st) ->
  rest st = a ++ b ->
  hd_ok (fun c => negb (alpha true r c)) b = true ->
  exists w a2,
    a = w ++ a2 /\ rest m = a2 ++ b /\ caps m = caps st
    /\ (nullable r = false -> w <> []).
Proof.
  intros G I R H. pose proof (run_moved true r _ _ I) as (w & Rw & F & _).
  rewrite R in Rw. symmetry in Rw.
  destruct (span_prefix _ _ _ _ _ Rw F H) as (a2 & A & B).
  exists w, a2. split; [exact A|]. split; [exact B|].
  split; [exact (run_caps true r G _ _ I)|].
  intros N ->. cbn in A. subst a2.
  rewrite (run_nullable true r _ _ I) in N; [discriminate|].
  now rewrite R, B.
Qed.

Lemma group_inv n r st m :
  In m (run true (Group n r) st) ->
  exists m', In m' (run true r st) /\ rest m = rest m'
             /\ caps m
                = (n, firstn (length (rest st) - length (rest m')) (rest st))
                    :: caps m'.
Proof.
  cbn [run]. rewrite in_map_iff. intros (m' & <- & I). exists m'. auto.
Qed.

(** A group of digits in front of a character that is not a digit. *)
Lemma digits_group n st m (a b : text) :
  In m (run true (Group n (Plus Digit)) st) ->
  rest st = a ++ b ->
  hd_ok not_digit b = true ->
  exists w a2,
    a = w ++ a2 /\ rest m = a2 ++ b /\ caps m = (n, w) :: caps st /\ w <> [].
Proof.
  intros I R H. apply group_inv in I. destruct I as (m' & I & Rm & C).
  destruct (class_run (Plus Digit) st m' a b eq_refl I R H)
    as (w & a2 & A & B & Cm & N).
  exists w, a2. split; [exact A|]. split; [congruence|].
  split; [|now apply N].
  rewrite C, Cm, R, B, A, <- app_assoc. now rewrite firstn_moved.
Qed.

(** A pattern that ends with [$] matches from a position only if the text
    there is empty or starts with a character the pattern can start with. *)
Lemma must_finish r st m :
  anchored r = true -> In m (run true r st) ->
  hd_ok (firsts true r) (rest st) = true.
Proof.
  intros A I. pose proof (run_anchored true r A _ _ I) as E.
  destruct (rest st) as [|c u] eqn:R; [reflexivity|].
  destruct (run_first true r _ _ I) as (c' & u' & R' & F).
  - rewrite E, R. cbn. lia.
  - rewrite R in R'. injection R' as <- <-. exact F.
Qed.

Lemma spaces_one st m (b : text) :
  In m (run true (Plus Space) st) ->
  rest st = str " " ++ b ->
  hd_ok not_space b = true ->
  rest m = b /\ caps m = caps st.
Proof.
  intros I R H.
  destruct (class_run (Plus Space) st m (str " ") b eq_refl I R H)
    as (w & a2 & A & B & C & N).
  split; [|exact C]. destruct w as [|c w]; [now destruct N|].
  cbn in A. injection A as _ A. symmetry in A. apply app_eq_nil in A.
  destruct A as [_ ->]. exact B.
Qed.

Lemma keyword_run kw st m (k b : text) :
  In m (run true (lits kw) st) ->
  rest st = k ++ b -> length k = length (str kw) ->
  rest m = b /\ caps m = caps st.
Proof.
  intros I R L. split.
  - apply lits_sound in I. destruct I as (k' & R' & _ & K).
    apply kw_match_length in K. rewrite R in R'.
    symmetry in R'. apply app_split_length in R'; [|congruence].
    apply R'.
  - apply (run_caps true (lits kw)); [|exact I].
    unfold lits. clear. induction (str kw); cbn; auto.
Qed.

Lemma hd_ok_app_front ok (a b : text) :
  a <> [] -> forallb ok a = true -> hd_ok ok (a ++ b) = true.
Proof.
  destruct a as [|c a]; [contradiction|]. cbn. intros _ H.
  now apply andb_prop in H.
Qed.

Lemma dec_hd_not_space n b : hd_ok not_space (dec n ++ b) = true.
Proof. apply hd_ok_app_front; [apply dec_nonempty|apply dec_not_space]. Qed.

Lemma end_first_chars c :
  firsts true clause_end c = true \/ firsts true (Cat (Opt second_number) clause_end) c = true ->
  is_digit c = false.
Proof.
  ascii_cases c; vm_compute; intros [H|H]; try discriminate H; reflexivity.
Qed.

(** Digits left in front of the end of the clause cannot be matched. *)
Lemma digits_used r st m (a2 b : text) :
  r = clause_end \/ r = Cat (Opt second_number) clause_end ->
  In m (run true r st) ->
  rest st = a2 ++ b -> forallb is_digit a2 = true -> a2 = [].
Proof.
  intros Re I R F. destruct a2 as [|d a2]; [reflexivity|exfalso].
  assert (A : anchored r = true) by (destruct Re as [-> | ->]; reflexivity).
  pose proof (must_finish r st m A I) as H. rewrite R in H. cbn in H, F.
  apply andb_prop in F. destruct F as [Fd _].
  rewrite (end_first_chars d) in Fd; [discriminate|].
  destruct Re as [-> | ->]; auto.
Qed.

Lemma forallb_app_r {A} (ok : A -> bool) (a b : list A) :
  forallb ok (a ++ b) = true -> forallb ok b = true.
Proof. rewrite forallb_app. intros H. now apply andb_prop in H. Qed.

Lemma forallb_app_l {A} (ok : A -> bool) (a b : list A) :
  forallb ok (a ++ b) = true -> forallb ok a = true.
Proof. rewrite forallb_app. intros H. now apply andb_prop in H. Qed.

(** The first number of the clause. *)
Lemma limit_front p n (y : text) m :
  hd_ok not_digit y = true ->
  In m (run true re_limit (MState p (str "LIMIT" ++ str " " ++ dec n ++ y) [])) ->
  exists m3,
    rest m3 = y /\ caps m3 = [(1, dec n)]
    /\ In m (run true (Cat (Opt second_number) clause_end) m3).
Proof.
  intros Y I.
  change re_limit
    with (Cat WordB (Cat (lits "LIMIT") (Cat (Plus Space)
            (Cat (Group 1 (Plus Digit))
               (Cat (Opt second_number) clause_end))))) in I.
  apply run_cat_inv in I. destruct I as (m0 & I0 & I).
  cbn [run] in I0. unfold guard in I0.
  destruct (at_boundary _); [|contradiction]. destruct I0 as [<-|[]].
  apply run_cat_inv in I. destruct I as (m1 & I1 & I).
  destruct (keyword_run "LIMIT" _ m1 (str "LIMIT") _ I1 eq_refl eq_refl)
    as [R1 C1].
  cbn [caps] in C1.
  apply run_cat_inv in I. destruct I as (m2 & I2 & I).
  destruct (spaces_one _ m2 _ I2 R1 (dec_hd_not_space n y)) as [R2 C2].
  apply run_cat_inv in I. destruct I as (m3 & I3 & I).
  destruct (digits_group 1 _ m3 _ _ I3 R2 Y) as (w & a2 & A & R3 & C3 & _).
  assert (E : a2 = []).
  { apply (digits_used _ m3 m a2 y (or_intror eq_refl) I R3).
    pose proof (dec_digits n) as D. rewrite A in D.
    exact (forallb_app_r _ _ _ D). }
  subst a2. rewrite app_nil_r in A. subst w.
  exists m3. split; [exact R3|]. split; [|exact I].
  now rewrite C3, C2, C1.
Qed.

Lemma lit_run p st m c (t : text) :
  In m (run true (Lit p) st) -> rest st = c :: t ->
  rest m = t /\ caps m = caps st /\ lit_ok true p c = true.
Proof.
  cbn [run]. unfold step_char. intros I R. rewrite R in I.
  destruct (lit_ok true p c); [|contradiction]. destruct I as [<-|[]]. auto.
Qed.

Lemma end_run st m :
  In m (run true clause_end st) ->
  caps m = caps st /\ forallb (alpha true clause_end) (rest st) = true.
Proof.
  intros I. split; [exact (run_caps true clause_end eq_refl _ _ I)|].
  pose proof (run_anchored true clause_end eq_refl _ _ I) as E.
  destruct (run_moved true clause_end _ _ I) as (w & R & F & _).
  now rewrite R, E, app_nil_r.
Qed.

Lemma semicolon_hd_not_space sc : hd_ok not_space (semicolon sc) = true.
Proof. now destruct sc. Qed.

Lemma semicolon_hd_not_digit sc : hd_ok not_digit (semicolon sc) = true.
Proof. now destruct sc. Qed.

Lemma dec_hd_not_digit_after n sc :
  hd_ok not_space (dec n ++ semicolon sc) = true.
Proof. apply dec_hd_not_space. Qed.

Lemma offset_part_no_comma offset sc :
  forallb no_comma (offset_part offset ++ semicolon sc) = true.
Proof.
  pose proof (clause_no_comma 0 offset sc) as H.
  rewrite limitClause_parts, <- !app_assoc in H.
  now do 3 apply forallb_app_r in H.
Qed.

(** The second number of a clause [LIMIT n] or [LIMIT n OFFSET m]. *)
Lemma second_number_standard offset sc m3 m :
  rest m3 = offset_part offset ++ semicolon sc ->
  In m (run true (Cat (Opt second_number) clause_end) m3) ->
  caps m
  = (if (0 <? offset)%N then [(3, dec offset)] else []) ++ caps m3.
Proof.
  intros R I. apply run_cat_inv in I. destruct I as (m4 & I4 & I).
  destruct (end_run _ _ I) as [C F]. rewrite C. clear C.
  unfold second_number in I4. cbn [run] in I4. rewrite !in_app_iff in I4.
  destruct I4 as [[A|B]|[<-|[]]].
  - (* the comma form *)
    exfalso. apply run_cat_inv in A. destruct A as (m5 & I5 & A).
    apply run_cat_inv in A. destruct A as (m6 & I6 & _).
    destruct (run_moved true _ _ _ I5) as (w & Rw & _).
    cbn [run] in I6. unfold step_char in I6.
    destruct (rest m5) as [|c t]; [contradiction|].
    destruct (lit_ok true "," c) eqn:O; [|contradiction].
    apply lit_ok_comma in O. subst c.
    pose proof (offset_part_no_comma offset sc) as NC.
    rewrite <- R, Rw in NC. apply forallb_app_r in NC. discriminate NC.
  - (* the OFFSET form *)
    apply run_cat_inv in B. destruct B as (m5 & I5 & B).
    unfold offset_part in *. destruct (0 <? offset)%N.
    + rewrite <- app_assoc in R.
      change (str " OFFSET " ++ dec offset ++ semicolon sc)
        with (str " " ++ str "OFFSET" ++ str " " ++ dec offset ++ semicolon sc)
        in R.
      destruct (spaces_one _ m5 _ I5 R eq_refl) as [R5 C5].
      apply run_cat_inv in B. destruct B as (m6 & I6 & B).
      destruct (keyword_run "OFFSET" _ m6 (str "OFFSET") _ I6 R5 eq_refl)
        as [R6 C6].
      apply run_cat_inv in B. destruct B as (m7 & I7 & B).
      destruct (spaces_one _ m7 _ I7 R6 (dec_hd_not_space offset _))
        as [R7 C7].
      apply run_cat_inv in B. destruct B as (m8 & I8 & B).
      cbn [run] in B. destruct B as [<-|[]].
      destruct (digits_group 3 _ m8 _ _ I8 R7 (semicolon_hd_not_digit sc))
        as (w & a2 & A & R8 & C8 & _).
      assert (E : a2 = []).
      { apply (digits_used _ m8 m a2 _ (or_introl eq_refl) I R8).
        pose proof (dec_digits offset) as D. rewrite A in D.
        exact (forallb_app_r _ _ _ D). }
      subst a2. rewrite app_nil_r in A. subst w.
      now rewrite C8, C7, C6, C5.
    + exfalso. cbn [app] in R.
      destruct (class_run (Plus Space) m3 m5 [] (semicolon sc) eq_refl I5 R
                  (semicolon_hd_not_space sc)) as (w & a2 & A & _ & _ & N).
      destruct w; [now apply N|discriminate A].
  - (* no second number *)
    unfold offset_part in *. destruct (0 <? offset)%N; [|reflexivity].
    rewrite R in F. cbn in F. discriminate F.
Qed.

(** The second number of a clause [LIMIT a, b]. *)
Lemma second_number_count count sc m3 m :
  rest m3 = count_part count ++ semicolon sc ->
  In m (run true (Cat (Opt second_number) clause_end) m3) ->
  caps m = (2, dec count) :: caps m3.
Proof.
  unfold count_part. rewrite <- app_assoc.
  change (str ", " ++ dec count ++ semicolon sc)
    with (","%char :: str " " ++ dec count ++ semicolon sc).
  intros R I. apply run_cat_inv in I. destruct I as (m4 & I4 & I).
  destruct (end_run _ _ I) as [C F]. rewrite C. clear C.
  unfold second_number in I4. cbn [run] in I4. rewrite !in_app_iff in I4.
  destruct I4 as [[A|B]|[<-|[]]].
  - apply run_cat_inv in A. destruct A as (m5 & I5 & A).
    destruct (class_run (Star Space) m3 m5 [] _ eq_refl I5 R eq_refl)
      as (w & a2 & E & R5 & C5 & _).
    symmetry in E. apply app_eq_nil in E. destruct E as [-> ->].
    cbn [app] in R5.
    apply run_cat_inv in A. destruct A as (m6 & I6 & A).
    destruct (lit_run _ _ _ _ _ I6 R5) as (R6 & C6 & _).
    apply run_cat_inv in A. destruct A as (m7 & I7 & A).
    destruct (class_run (Star Space) m6 m7 (str " ") _ eq_refl I7 R6
                (dec_hd_not_space count _)) as (w & a2 & E & R7 & C7 & _).
    apply run_cat_inv in A. destruct A as (m8 & I8 & A).
    cbn [run] in A. destruct A as [<-|[]].
    destruct a2 as [|c a2].
    + cbn [app] in R7.
      destruct (digits_group 2 _ m8 _ _ I8 R7 (semicolon_hd_not_digit sc))
        as (w' & a2 & A & R8 & C8 & _).
      assert (E' : a2 = []).
      { apply (digits_used _ m8 m a2 _ (or_introl eq_refl) I R8).
        pose proof (dec_digits count) as D. rewrite A in D.
        exact (forallb_app_r _ _ _ D). }
      subst a2. rewrite app_nil_r in A. subst w'.
      now rewrite C8, C7, C6, C5.
    + exfalso. destruct w as [|d w]; [|destruct w; discriminate E].
      cbn in E. injection E as <- <-. cbn [app] in R7.
      destruct (digits_group 2 _ m8 [] _ I8 R7 eq_refl)
        as (w' & a2 & A & _ & _ & N).
      destruct w'; [now apply N|discriminate A].
  - exfalso. apply run_cat_inv in B. destruct B as (m5 & I5 & _).
    destruct (class_run (Plus Space) m3 m5 [] _ eq_refl I5 R eq_refl)
      as (w & a2 & A & _ & _ & N).
    destruct w; [now apply N|discriminate A].
  - exfalso. rewrite R in F. cbn in F. discriminate F.
Qed.

(** *** Reading a printed number back *)

Lemma parseDigits_snoc ds d :
  parseDigits (ds ++ [d]) = (10 * parseDigits ds + (code d - 48))%N.
Proof. unfold parseDigits. now rewrite fold_left_app. Qed.

Lemma digits_fuel_value fuel :
  forall n acc,
    (n < 10 ^ N.of_nat fuel)%N ->
    exists ds, digits_fuel fuel n acc = ds ++ acc /\ parseDigits ds = n.
Proof.
  induction fuel as [|f IH]; intros n acc B.
  - exists []. split; [reflexivity|]. cbn in *. lia.
  - cbn [digits_fuel].
    assert (M : (n mod 10 < 10)%N) by (apply N.mod_lt; discriminate).
    destruct (n <? 10)%N eqn:S.
    + exists [ascii_of_N (48 + n mod 10)]. split; [reflexivity|].
      apply N.ltb_lt in S. unfold parseDigits. cbn [fold_left].
      rewrite code_digit by exact M.
      rewrite N.mod_small by exact S. lia.
    + destruct (IH (n / 10)%N (ascii_of_N (48 + n mod 10) :: acc))
        as (ds & E & P).
      { apply N.Div0.div_lt_upper_bound.
        now rewrite Nat2N.inj_succ, N.pow_succ_r' in B. }
      exists (ds ++ [ascii_of_N (48 + n mod 10)]).
      rewrite E, <- app_assoc. split; [reflexivity|].
      rewrite parseDigits_snoc, P, code_digit by exact M.
      pose proof (N.Div0.div_mod n 10) as Dm. revert Dm M.
      generalize (n mod 10)%N (n / 10)%N. intros. lia.
Qed.

Lemma parseDigits_dec n : parseDigits (dec n) = n.
Proof.
  unfold dec.
  destruct (digits_fuel_value (S (N.to_nat (N.log2 n))) n []) as (ds & E & P).
  - rewrite Nat2N.inj_succ, N2Nat.id.
    apply (N.lt_le_trans _ (2 ^ N.succ (N.log2 n))).
    + destruct n as [|q]; [reflexivity|]. apply N.log2_spec. reflexivity.
    + apply N.pow_le_mono_l. lia.
  - now rewrite E, app_nil_r.
Qed.

(** *** Where [re_limit] matches *)

Lemma limit_tail_chars c :
  alpha true (after_keyword re_limit) c = true -> unlike "L" c = true.
Proof. ascii_cases c; vm_compute; intros H; try discriminate H; auto. Qed.

Lemma limit_sound st st' :
  In st' (run true re_limit st) ->
  exists k u,
    rest st = k ++ u
    /\ kw_match true (str "LIMIT") k = true
    /\ forallb (unlike "L") u = true.
Proof.
  intros H.
  change re_limit
    with (Cat WordB (Cat (seq (map Lit (str "LIMIT")))
                         (after_keyword re_limit))) in H.
  apply keyword_led_sound in H.
  destruct H as (_ & k & m & R & K & _ & H).
  pose proof (run_anchored true (after_keyword re_limit) eq_refl _ _ H)
    as End.
  apply run_moved in H. destruct H as (u & Ru & F & _).
  rewrite End, app_nil_r in Ru. exists k, u. rewrite R, Ru.
  split; [reflexivity|]. split; [exact K|].
  rewrite !forallb_forall in *. intros c I. now apply limit_tail_chars, F.
Qed.

(** No match of [re_limit] starts before a trailing clause and runs into
    it. *)
Lemma limit_not_before p c (x2 z : text) :
  run true re_limit (MState p (c :: x2 ++ "L"%char :: z) []) = [].
Proof.
  destruct (run true re_limit _) as [|m l] eqn:R; [reflexivity|exfalso].
  assert (I : In m (run true re_limit
                      (MState p (c :: x2 ++ "L"%char :: z) [])))
    by (rewrite R; now left).
  destruct (limit_sound _ _ I) as (k & u & Ex & K & F). cbn [rest] in Ex.
  symmetry in Ex.
  apply (limit_start_unique k u (c :: x2) z K F) in Ex. discriminate Ex.
Qed.

Lemma limit_found (x clause z : text) :
  clause = "L"%char :: z ->
  run true re_limit (MState (lastp None x) clause []) <> [] ->
  exists m,
    groups re_limit (x ++ clause) = Some (caps m)
    /\ In m (run true re_limit (MState (lastp None x) clause [])).
Proof.
  intros Z Y.
  destruct (exec_at_first true re_limit x [] None clause) as (m & E & I).
  - intros x1 c x2 _. rewrite Z. apply limit_not_before.
  - exact Y.
  - exists m. unfold groups, exec. now rewrite E.
Qed.

Lemma reaches_limit_count p offset count sc :
  after_non_word p ->
  reaches true re_limit p (mysqlClause offset count ++ semicolon sc) [].
Proof.
  intros P.
  pose (l := [ (WordB, []); (lits "LIMIT", str "LIMIT");
               (Plus Space, str " "); (Group 1 (Plus Digit), dec offset);
               (Opt second_number, count_part count);
               (Star Space, []); (Opt (Lit ";"), semicolon sc);
               (Star Space, []); (Eol, []) ] : list (regex * text)).
  replace (mysqlClause offset count ++ semicolon sc)
    with (concat (map snd l))
    by (unfold mysqlClause; cbn [l map snd concat str list_ascii_of_string app];
        now rewrite ?app_nil_r, <- ?app_assoc).
  change re_limit with (seq (map fst l)).
  apply reaches_seq. unfold l.
  chain_step. { apply reaches_wordb. now apply boundary_before_word. }
  chain_step. { now apply reaches_lits. }
  chain_step. { now apply reaches_spaces1. }
  chain_step.
  { apply reaches_group, reaches_digits1;
      [apply dec_nonempty | apply dec_digits]. }
  chain_step.
  { apply reaches_opt, reaches_alt_l.
    pose (o := [ (Star Space, []); (Lit ",", str ",");
                 (Star Space, str " "); (Group 2 (Plus Digit), dec count) ]
               : list (regex * text)).
    replace (count_part count) with (concat (map snd o))
      by (cbn [o map snd concat]; now rewrite ?app_nil_r, <- ?app_assoc).
    change (seq [Star Space; Lit ","; Star Space; Group 2 (Plus Digit)])
      with (seq (map fst o)).
    apply reaches_seq. unfold o.
    chain_step. { now apply reaches_spaces. }
    chain_step. { now apply reaches_lit. }
    chain_step. { now apply reaches_spaces. }
    chain_step.
    { apply reaches_group, reaches_digits1;
        [apply dec_nonempty | apply dec_digits]. }
    exact I. }
  chain_step. { now apply reaches_spaces. }
  chain_step.
  { destruct sc; [apply reaches_opt, reaches_lit; reflexivity
                 | apply reaches_opt_skip]. }
  chain_step. { now apply reaches_spaces. }
  chain_step. { apply reaches_eol. }
  exact I.
Qed.

Lemma offset_part_hd offset sc :
  hd_ok not_digit (offset_part offset ++ semicolon sc) = true.
Proof. unfold offset_part. now destruct (0 <? offset)%N, sc. Qed.

(** The groups of [re_limit] on a text that ends with the clause the
    rewriter appends. *)
Lemma limit_groups_standard x limit offset sc :
  after_non_word (lastp None x) ->
  groups re_limit (x ++ limitClause limit offset ++ semicolon sc)
  = Some ((if (0 <? offset)%N then [(3, dec offset)] else [])
          ++ [(1, dec limit)]).
Proof.
  intros P.
  destruct (clause_starts limit offset sc) as [z Z].
  destruct (limit_found x _ z Z) as (m & E & I).
  { apply reaches_all_run, reaches_limit, P. }
  rewrite E. f_equal.
  rewrite limitClause_parts, <- !app_assoc in I.
  apply limit_front in I; [|apply offset_part_hd].
  destruct I as (m3 & R3 & C3 & I).
  rewrite (second_number_standard offset sc m3 m R3 I). now rewrite C3.
Qed.

(** The groups of [re_limit] on a text that ends with a two-argument
    clause. *)
Lemma limit_groups_count x offset count sc :
  after_non_word (lastp None x) ->
  groups re_limit (x ++ mysqlClause offset count ++ semicolon sc)
  = Some [(2, dec count); (1, dec offset)].
Proof.
  intros P.
  destruct (limit_found x (mysqlClause offset count ++ semicolon sc)
              (str "IMIT " ++ dec offset ++ count_part count ++ semicolon sc))
    as (m & E & I).
  { unfold mysqlClause. now rewrite <- !app_assoc. }
  { apply reaches_all_run, reaches_limit_count, P. }
  rewrite E. f_equal.
  unfold mysqlClause in I. rewrite <- !app_assoc in I.
  change (str "LIMIT " ++ dec offset ++ count_part count ++ semicolon sc)
    with (str "LIMIT" ++ str " " ++ dec offset
          ++ count_part count ++ semicolon sc) in I.
  apply limit_front in I; [|reflexivity].
  destruct I as (m3 & R3 & C3 & I).
  rewrite (second_number_count count sc m3 m R3 I). now rewrite C3.
Qed.

(** *** The classifier on a trailing clause *)

Lemma lastp_nonempty p q (d : text) : d <> [] -> lastp p d = lastp q d.
Proof. destruct d as [|c d]; [contradiction|reflexivity]. Qed.

Lemma after_non_word_drop x :
  after_non_word (lastp None x) -> after_non_word (lastp None (drop_space x)).
Proof.
  destruct (drop_space_suffix x) as (sp & E & _).
  destruct (drop_space x) as [|c d]; [intros _; exact I|].
  rewrite E, lastp_app. now rewrite (lastp_nonempty _ None) by discriminate.
Qed.

Lemma drop_space_before x cl :
  cl <> [] -> hd_ok not_space cl = true ->
  drop_space (x ++ cl) = drop_space x ++ cl.
Proof.
  intros N H. induction x as [|c x IH]; cbn [app drop_space].
  - apply drop_space_id, H.
  - destruct (is_space c); [exact IH|reflexivity].
Qed.

Lemma trim_before x cl :
  cl <> [] -> hd_ok not_space cl = true -> hd_ok not_space (rev cl) = true ->
  trim (x ++ cl) = drop_space x ++ cl.
Proof.
  intros N H L. unfold trim. rewrite (drop_space_before x cl N H).
  rewrite drop_space_id; [apply rev_involutive|].
  rewrite rev_app_distr, hd_ok_app; [exact L|].
  intros E. apply N. apply (f_equal (@rev ascii)) in E.
  now rewrite rev_involutive in E.
Qed.

(** The fields the classifier computes from the groups of [re_limit]. *)
Lemma analyze_limit_fields s g :
  groups re_limit (trim s) = Some g ->
  hasLimit (analyzeQuery s) = true
  /\ existingLimit (analyzeQuery s)
     = match capture 2 g with
       | Some g2 => Some (parseDigits g2)
       | None => option_map parseDigits (capture 1 g)
       end
  /\ existingOffset (analyzeQuery s)
     = option_map parseDigits
         (match capture 2 g with
          | Some _ => capture 1 g
          | None => capture 3 g
          end)
  /\ hasOffset (analyzeQuery s)
     = match capture 2 g with
       | Some _ => match capture 1 g with Some _ => true | None => false end
       | None => match capture 3 g with Some _ => true | None => false end
       end.
Proof.
  intros G. unfold analyzeQuery. rewrite G.
  destruct (capture 2 g); cbn [hasLimit existingLimit existingOffset hasOffset];
    repeat split;
    match goal with
    | |- context [capture ?n g] => destruct (capture n g); reflexivity
    end.
Qed.

Lemma mysql_clause_shape offset count sc :
  mysqlClause offset count ++ semicolon sc <> []
  /\ hd_ok not_space (mysqlClause offset count ++ semicolon sc) = true
  /\ hd_ok not_space (rev (mysqlClause offset count ++ semicolon sc)) = true.
Proof.
  split; [discriminate|]. split; [reflexivity|].
  unfold mysqlClause, count_part. destruct sc; cbn [semicolon].
  - rewrite !app_assoc. apply hd_ok_rev_app; [discriminate|reflexivity].
  - rewrite app_nil_r, !app_assoc.
    apply hd_ok_rev_app; auto using dec_nonempty, dec_not_space.
Qed.

Lemma standard_clause_shape limit offset sc :
  limitClause limit offset ++ semicolon sc <> []
  /\ hd_ok not_space (limitClause limit offset ++ semicolon sc) = true
  /\ hd_ok not_space (rev (limitClause limit offset ++ semicolon sc)) = true.
Proof.
  destruct (clause_starts limit offset sc) as [z Z].
  split; [rewrite Z; discriminate|]. split; [now rewrite Z|].
  exact (clause_last_not_space [] limit offset sc).
Qed.

Lemma standard_clause_fields x limit offset sc :
  after_non_word (lastp None x) ->
  let q := analyzeQuery (x ++ limitClause limit offset ++ semicolon sc) in
  hasLimit q = true
  /\ existingLimit q = Some limit
  /\ existingOffset q = (if (0 <? offset)%N then Some offset else None)
  /\ hasOffset q = (0 <? offset)%N.
Proof.
  intros P q.
  destruct (standard_clause_shape limit offset sc) as (N & H & L).
  destruct (analyze_limit_fields
              (x ++ limitClause limit offset ++ semicolon sc)
              ((if (0 <? offset)%N then [(3, dec offset)] else [])
               ++ [(1, dec limit)]))
    as (A & B & C & D).
  { rewrite (trim_before x _ N H L).
    apply limit_groups_standard, after_non_word_drop, P. }
  fold q in A, B, C, D. rewrite A, B, C, D.
  destruct (0 <? offset)%N; cbn [app capture Nat.eqb option_map];
    now rewrite ?parseDigits_dec.
Qed.

(** *** The rewriter followed by the classifier *)

Lemma rewriting_path s limit offset forceLimit :
  wasLimited (applyQueryLimit s limit offset forceLimit) = true ->
  type (analyzeQuery s) = SELECT
  /\ hasLimit (analyzeQuery s) && negb forceLimit = false.
Proof.
  unfold applyQueryLimit.
  destruct (type (analyzeQuery s)); cbn [QueryType_eqb negb];
    try discriminate.
  destruct (hasLimit (analyzeQuery s) && negb forceLimit);
    [discriminate|auto].
Qed.

Lemma rewrite_shape s limit offset forceLimit :
  type (analyzeQuery s) = SELECT ->
  hasLimit (analyzeQuery s) && negb forceLimit = false ->
  sql (applyQueryLimit s limit offset forceLimit)
  = (statement_body s ++ str " ") ++ limitClause limit offset
    ++ semicolon (endsWith (stripped s) ";").
Proof.
  intros T G. destruct forceLimit; [now apply forced_rewrite|].
  rewrite andb_true_r in G.
  unfold applyQueryLimit, statement_body, stripped.
  rewrite T, G. cbn [QueryType_eqb negb andb sql].
  destruct (endsWith (trim s) ";"); cbn [semicolon];
    now rewrite ?app_nil_r, <- ?app_assoc.
Qed.

Lemma read_back s limit offset forceLimit :
  wasLimited (applyQueryLimit s limit offset forceLimit) = true ->
  let q := analyzeQuery (sql (applyQueryLimit s limit offset forceLimit)) in
  type q = SELECT
  /\ hasLimit q = true
  /\ existingLimit q = Some limit
  /\ existingOffset q = (if (0 <? offset)%N then Some offset else None)
  /\ hasOffset q = (0 <? offset)%N.
Proof.
  intros W. destruct (rewriting_path _ _ _ _ W) as [T G].
  rewrite (rewrite_shape s limit offset forceLimit T G).
  assert (Ev : exists x1 sel x2,
             trim s = x1 ++ sel ++ x2 /\ select_at x1 sel
             /\ hd_ok non_word x2 = true).
  { apply select_evidence; [apply trim_hd|].
    rewrite type_unfold in T. exact T. }
  destruct Ev as (x1 & sel & x2 & Split & Sel & U).
  split.
  - exact (rewritten_select s x1 sel x2 Split Sel limit offset _ U).
  - apply standard_clause_fields. rewrite lastp_app. reflexivity.
Qed.

Lemma limited_changed s limit offset :
  wasLimited (applyQueryLimit s limit offset false) = true
  <-> sql (applyQueryLimit s limit offset false) <> s.
Proof.
  split.
  - intros W E.
    destruct (read_back s limit offset false W) as (_ & L & _).
    destruct (rewriting_path _ _ _ _ W) as [_ G].
    rewrite andb_true_r in G. rewrite E in L. congruence.
  - intros D. destruct (wasLimited _) eqn:W; [reflexivity|].
    exfalso. apply D. revert W. unfold applyQueryLimit.
    destruct (negb _); [reflexivity|].
    destruct (hasLimit (analyzeQuery s) && negb false);
      [reflexivity|discriminate].
Qed.

Lemma count_clause_fields :
  forall (x : text) (offset count : N) (sc : bool),
    after_non_word (lastp None x) ->
    let q := analyzeQuery (x ++ mysqlClause offset count ++ semicolon sc) in
    hasLimit q = true
    /\ existingLimit q = Some count
    /\ existingOffset q = Some offset
    /\ hasOffset q = true.
Proof.
  intros x offset count sc P q.
  destruct (mysql_clause_shape offset count sc) as (N & H & L).
  destruct (analyze_limit_fields
              (x ++ mysqlClause offset count ++ semicolon sc)
              [(2, dec count); (1, dec offset)])
    as (A & B & C & D).
  { rewrite (trim_before x _ N H L).
    apply limit_groups_count, after_non_word_drop, P. }
  fold q in A, B, C, D. rewrite A, B, C, D.
  cbn [capture Nat.eqb option_map]. now rewrite !parseDigits_dec.
Qed.

(** X2: a clause [LIMIT n] or [LIMIT n OFFSET m] that ends the text, after a
    character that is not a word character and before at most a
    semicolon, is read by the classifier as the limit [n] and, when there
    is one, the offset [m]; for numbers up to 2^53 - 1, which [parseInt]
    reads without rounding. *)
Theorem trailing_clause_detected :
  forall (x : text) (limit offset : N) (sc : bool),
    safe limit = true -> safe offset = true ->
    after_non_word (lastp None x) ->
    let q := analyzeQuery (x ++ limitClause limit offset ++ semicolon sc) in
    hasLimit q = true
    /\ existingLimit q = Some limit
    /\ existingOffset q = (if (0 <? offset)%N then Some offset else None)
    /\ hasOffset q = (0 <? offset)%N.
Proof.
  intros x limit offset sc _ _. exact (standard_clause_fields x limit offset sc).
Qed.

Lemma trailing_clause_detected_witness :
  safe 25 = true /\ safe 50 = true
  /\ after_non_word (lastp None (str "UPDATE t SET a = 1 "))
  /\ existingLimit
       (analyzeQuery (str "UPDATE t SET a = 1 " ++ limitClause 25 50
                      ++ semicolon true)) = Some 25%N
  /\ existingOffset
       (analyzeQuery (str "UPDATE t SET a = 1 " ++ limitClause 25 50
                      ++ semicolon true)) = Some 50%N.
Proof.
  do 3 (split; [reflexivity|]).
  destruct (trailing_clause_detected (str "UPDATE t SET a = 1 ") 25 50 true)
    as (_ & L & O & _); [reflexivity..|].
  split; [exact L|exact O].
Defined.

(** X3: in the two-argument form [LIMIT a, b] the first number is the offset
    and the second one the limit; for numbers up to 2^53 - 1, which
    [parseInt] reads without rounding. *)
Theorem two_argument_clause_detected :
  forall (x : text) (offset count : N) (sc : bool),
    safe offset = true -> safe count = true ->
    after_non_word (lastp None x) ->
    let q := analyzeQuery (x ++ mysqlClause offset count ++ semicolon sc) in
    hasLimit q = true
    /\ existingLimit q = Some count
    /\ existingOffset q = Some offset
    /\ hasOffset q = true.
Proof.
  intros x offset count sc _ _. exact (count_clause_fields x offset count sc).
Qed.

Lemma two_argument_clause_detected_witness :
  safe 5 = true /\ safe 20 = true
  /\ after_non_word (lastp None (str "SELECT * FROM t "))
  /\ existingLimit
       (analyzeQuery (str "SELECT * FROM t " ++ mysqlClause 5 20
                      ++ semicolon false)) = Some 20%N
  /\ existingOffset
       (analyzeQuery (str "SELECT * FROM t " ++ mysqlClause 5 20
                      ++ semicolon false)) = Some 5%N.
Proof.
  do 3 (split; [reflexivity|]).
  destruct (two_argument_clause_detected (str "SELECT * FROM t ") 5 20 false)
    as (_ & L & O & _); [reflexivity..|].
  split; [exact L|exact O].
Defined.

(** X4: whenever the rewriter reports that it limited a statement, the
    statement it returns is classified as SELECT again, and the classifier
    reads the requested limit and offset back from it; so [isSelectQuery]
    and [hasQueryLimit] hold of it.  The requested limit and offset are
    integers from 0 to 2^53 - 1, which the rewriter prints with all their
    digits. *)
Theorem rewritten_statement_reads_back :
  forall (s : text) (limit offset : N) (forceLimit : bool),
    safe limit = true -> safe offset = true ->
    wasLimited (applyQueryLimit s limit offset forceLimit) = true ->
    let r := sql (applyQueryLimit s limit offset forceLimit) in
    let q := analyzeQuery r in
    type q = SELECT
    /\ hasLimit q = true
    /\ existingLimit q = Some limit
    /\ existingOffset q = (if (0 <? offset)%N then Some offset else None)
    /\ hasOffset q = (0 <? offset)%N
    /\ isSelectQuery r = true
    /\ hasQueryLimit r = true.
Proof.
  intros s limit offset forceLimit _ _ W r q.
  destruct (read_back s limit offset forceLimit W) as (T & L & El & Eo & Ho).
  fold r in T, L, El, Eo, Ho. fold q in T, L, El, Eo, Ho.
  unfold isSelectQuery, hasQueryLimit. fold q. rewrite T, L.
  repeat split; assumption || reflexivity.
Qed.

Lemma rewritten_statement_reads_back_witness :
  safe 500 = true /\ safe 20 = true
  /\ wasLimited (applyQueryLimit (str "select * from users;") 500 20 false)
  = true
  /\ existingLimit
       (analyzeQuery
          (sql (applyQueryLimit (str "select * from users;") 500 20 false)))
     = Some 500%N.
Proof.
  assert (W : wasLimited
                (applyQueryLimit (str "select * from users;") 500 20 false)
              = true) by (vm_compute; reflexivity).
  do 2 (split; [reflexivity|]). split; [exact W|].
  exact (proj1 (proj2 (proj2
           (rewritten_statement_reads_back
              (str "select * from users;") 500 20 false eq_refl eq_refl
              W)))).
Defined.

(** X5: a statement the rewriter has limited is left alone by a later
    application without override, which reports the limit and the offset
    of the first one.  The limit and the offset of the first application
    are integers from 0 to 2^53 - 1. *)
Theorem limited_statement_kept :
  forall (s : text) (limit offset : N) (forceLimit : bool)
         (limit' offset' : N),
    safe limit = true -> safe offset = true ->
    wasLimited (applyQueryLimit s limit offset forceLimit) = true ->
    applyQueryLimit (sql (applyQueryLimit s limit offset forceLimit))
      limit' offset' false
    = {| sql := sql (applyQueryLimit s limit offset forceLimit);
         wasLimited := false;
         originalLimit := Some limit;
         appliedLimit := limit;
         appliedOffset := offset |}.
Proof.
  intros s limit offset forceLimit limit' offset' _ _ W.
  destruct (read_back s limit offset forceLimit W) as (T & L & El & Eo & _).
  unfold applyQueryLimit at 1. rewrite T, L, El, Eo.
  cbn [QueryType_eqb negb andb or_zero]. f_equal.
  destruct (0 <? offset)%N eqn:O; [reflexivity|].
  apply N.ltb_ge in O. cbn. lia.
Qed.

Lemma limited_statement_kept_witness :
  safe 500 = true /\ safe 0 = true
  /\ wasLimited (applyQueryLimit (str "SELECT 1") 500 0 false) = true
  /\ applyQueryLimit (sql (applyQueryLimit (str "SELECT 1") 500 0 false))
       20 40 false
     = {| sql := sql (applyQueryLimit (str "SELECT 1") 500 0 false);
          wasLimited := false;
          originalLimit := Some 500%N;
          appliedLimit := 500;
          appliedOffset := 0 |}.
Proof.
  assert (W : wasLimited (applyQueryLimit (str "SELECT 1") 500 0 false)
              = true) by (vm_compute; reflexivity).
  do 2 (split; [reflexivity|]). split; [exact W|].
  exact (limited_statement_kept (str "SELECT 1") 500 0 false 20 40
           eq_refl eq_refl W).
Defined.

(** X6: without override, the rewriter reports [wasLimited] exactly when the
    text it returns differs from its input. *)
Theorem was_limited_iff_changed :
  forall (s : text) (limit offset : N),
    wasLimited (applyQueryLimit s limit offset false) = true
    <-> sql (applyQueryLimit s limit offset false) <> s.
Proof. exact limited_changed. Qed.

(** *** White space around a statement *)

Lemma analyzeQuery_trim s : analyzeQuery (trim s) = analyzeQuery s.
Proof. unfold analyzeQuery. now rewrite trim_idem. Qed.

Lemma trim_spaces_l ws s :
  forallb is_space ws = true -> trim (ws ++ s) = trim s.
Proof.
  intros F. unfold trim. do 3 f_equal.
  induction ws as [|c ws IH]; [reflexivity|].
  cbn in F. apply andb_prop in F. destruct F as [C F].
  cbn [app drop_space]. rewrite C. now apply IH.
Qed.

Lemma trim_spaces_r ws s :
  forallb is_space ws = true -> trim (s ++ ws) = trim s.
Proof.
  induction ws as [|c ws IH] using rev_ind; intros F.
  - now rewrite app_nil_r.
  - rewrite forallb_app in F. apply andb_prop in F. destruct F as [F C].
    cbn in C. rewrite andb_true_r in C.
    rewrite app_assoc, trim_app_space by exact C. now apply IH.
Qed.

(** X7: the classifier ignores white space before and after the statement. *)
Theorem surrounding_space_ignored :
  forall (ws1 s ws2 : text),
    forallb is_space ws1 = true -> forallb is_space ws2 = true ->
    analyzeQuery (ws1 ++ s ++ ws2) = analyzeQuery s.
Proof.
  intros ws1 s ws2 F1 F2.
  rewrite <- (analyzeQuery_trim (ws1 ++ s ++ ws2)), <- (analyzeQuery_trim s).
  now rewrite trim_spaces_l, trim_spaces_r.
Qed.

Lemma surrounding_space_ignored_witness :
  analyzeQuery (str "  " ++ str "select 1 limit 5" ++ str " ")
  = analyzeQuery (str "select 1 limit 5").
Proof.
  apply (surrounding_space_ignored (str "  ") (str "select 1 limit 5")
           (str " ")); reflexivity.
Defined.

(** *** Which statements are rewritten *)

Lemma first_word_evidence t :
  hd_ok not_space t = true ->
  (if test true (re_leading "SELECT") t then SELECT
   else if test true (re_leading "INSERT") t then INSERT
   else if test true (re_leading "UPDATE") t then UPDATE
   else if test true (re_leading "DELETE") t then DELETE
   else if test true re_ddl t then DDL
   else if test true (re_leading "WITH") t
           && test true (re_word "SELECT") t then SELECT
   else OTHER) = SELECT ->
  exists k u,
    t = k ++ u
    /\ (kw_match true (str "SELECT") k = true
        \/ kw_match true (str "WITH") k = true)
    /\ hd_ok non_word u = true.
Proof.
  intros Hd T. destruct (select_evidence t Hd T)
    as (x1 & sel & x2 & -> & (K & _ & X) & U).
  destruct X as [-> | (w & l & -> & Kw & Hl)].
  - exists sel, x2. auto.
  - exists w, (l ++ sel ++ x2). rewrite <- app_assoc.
    split; [reflexivity|]. split; [now right|].
    destruct l as [|c l]; [|exact Hl].
    cbn [app] in *. rewrite hd_ok_app; [exact Hl|].
    now apply (kw_match_nonempty (str "SELECT")).
Qed.

(** X8: the rewriter changes only statements whose first word is SELECT or
    WITH, in either case; for statements of ASCII characters, whose white
    space [trim] removes as the program does. *)
Theorem only_select_or_with_rewritten :
  forall (s : text) (limit offset : N) (forceLimit : bool),
    ascii_text s = true ->
    sql (applyQueryLimit s limit offset forceLimit) <> s ->
    exists k u,
      trim s = k ++ u
      /\ (kw_match true (str "SELECT") k = true
          \/ kw_match true (str "WITH") k = true)
      /\ hd_ok non_word u = true.
Proof.
  intros s limit offset forceLimit _ D.
  apply first_word_evidence; [apply trim_hd|].
  pose proof (type_unfold s) as T. cbv zeta in T. rewrite <- T.
  destruct (type (analyzeQuery s)) eqn:Ty; try reflexivity;
    exfalso; apply D; unfold applyQueryLimit; now rewrite Ty.
Qed.

Lemma only_select_or_with_rewritten_witness :
  ascii_text (str "with a as (select 1) select * from a") = true
  /\ exists k u,
    trim (str "with a as (select 1) select * from a") = k ++ u
    /\ (kw_match true (str "SELECT") k = true
        \/ kw_match true (str "WITH") k = true)
    /\ hd_ok non_word u = true.
Proof.
  split; [reflexivity|].
  apply (only_select_or_with_rewritten
           (str "with a as (select 1) select * from a") 500 0 false);
    [reflexivity|].
  vm_compute. discriminate.
Defined.

(** *** Statements that start with a data-changing keyword *)

Lemma first_word_trim k u :
  k <> [] -> forallb is_word k = true -> hd_ok non_word u = true ->
  exists v, trim (k ++ u) = k ++ v /\ hd_ok non_word v = true.
Proof.
  intros N W U.
  destruct (trim_keeps k u N) as (v & E & [z Z]).
  - destruct k as [|c k]; [contradiction|]. cbn in *.
    apply andb_prop in W. now apply word_chars.
  - destruct (lastp_ok is_word None k N W) as (c & L & Wc).
    destruct (exists_last N) as (k0 & c' & E).
    rewrite E, rev_app_distr. cbn. rewrite E, lastp_app in L. cbn in L.
    injection L as ->. now apply word_chars.
  - exists v. split; [exact E|]. subst u. now destruct v.
Qed.

Lemma not_leading a kw b k u :
  is_upper a = true -> forallb is_upper (str kw) = true ->
  first_like b (k ++ u) = true -> a <> b ->
  hd_ok not_space (k ++ u) = true ->
  test true (re_leading (String a kw)) (k ++ u) = false.
Proof.
  intros Ua U F N Hd.
  destruct (test true (re_leading (String a kw)) (k ++ u)) eqn:T;
    [|reflexivity].
  apply (leading_first a kw) in T; auto.
  exfalso. apply N. exact (first_like_unique _ _ _ T F).
Qed.

Lemma first_word_hd k u :
  k <> [] -> forallb is_word k = true -> hd_ok not_space (k ++ u) = true.
Proof.
  destruct k as [|c k]; [contradiction|]. cbn. intros _ W.
  apply andb_prop in W. now apply word_chars.
Qed.

Lemma first_keyword_classified :
  forall (k u : text),
    hd_ok non_word u = true ->
    (kw_match true (str "INSERT") k = true ->
     type (analyzeQuery (k ++ u)) = INSERT)
    /\ (kw_match true (str "UPDATE") k = true ->
        type (analyzeQuery (k ++ u)) = UPDATE)
    /\ (kw_match true (str "DELETE") k = true ->
        type (analyzeQuery (k ++ u)) = DELETE).
Proof.
  intros k u U. repeat split; intros K; rewrite type_unfold; cbv zeta.
  - assert (N : k <> []) by now apply (kw_match_nonempty (str "INSERT")).
    assert (W : forallb is_word k = true)
      by now apply (kw_match_word (str "INSERT")).
    destruct (first_word_trim k u N W U) as (v & -> & V).
    pose proof (first_word_hd k v N W) as Hd.
    pose proof (kw_match_first "I" (str "NSERT") k v eq_refl K) as F.
    rewrite (not_leading "S" "ELECT" "I") by (auto; discriminate).
    rewrite (leading_complete "INSERT") by (auto; discriminate).
    reflexivity.
  - assert (N : k <> []) by now apply (kw_match_nonempty (str "UPDATE")).
    assert (W : forallb is_word k = true)
      by now apply (kw_match_word (str "UPDATE")).
    destruct (first_word_trim k u N W U) as (v & -> & V).
    pose proof (first_word_hd k v N W) as Hd.
    pose proof (kw_match_first "U" (str "PDATE") k v eq_refl K) as F.
    rewrite (not_leading "S" "ELECT" "U") by (auto; discriminate).
    rewrite (not_leading "I" "NSERT" "U") by (auto; discriminate).
    rewrite (leading_complete "UPDATE") by (auto; discriminate).
    reflexivity.
  - assert (N : k <> []) by now apply (kw_match_nonempty (str "DELETE")).
    assert (W : forallb is_word k = true)
      by now apply (kw_match_word (str "DELETE")).
    destruct (first_word_trim k u N W U) as (v & -> & V).
    pose proof (first_word_hd k v N W) as Hd.
    pose proof (kw_match_first "D" (str "ELETE") k v eq_refl K) as F.
    rewrite (not_leading "S" "ELECT" "D") by (auto; discriminate).
    rewrite (not_leading "I" "NSERT" "D") by (auto; discriminate).
    rewrite (not_leading "U" "PDATE" "D") by (auto; discriminate).
    rewrite (leading_complete "DELETE") by (auto; discriminate).
    reflexivity.
Qed.

(** X9: a statement whose first word is INSERT, UPDATE or DELETE, in either
    case, is classified as such, whatever follows the keyword. *)
Theorem data_change_keyword_classified :
  forall (k u : text),
    hd_ok non_word u = true ->
    (kw_match true (str "INSERT") k = true ->
     type (analyzeQuery (k ++ u)) = INSERT)
    /\ (kw_match true (str "UPDATE") k = true ->
        type (analyzeQuery (k ++ u)) = UPDATE)
    /\ (kw_match true (str "DELETE") k = true ->
        type (analyzeQuery (k ++ u)) = DELETE).
Proof. exact first_keyword_classified. Qed.

Lemma data_change_keyword_classified_witness :
  type (analyzeQuery (str "insert" ++ str " into t select * from u limit 5"))
  = INSERT.
Proof.
  apply (data_change_keyword_classified
           (str "insert") (str " into t select * from u limit 5"));
    reflexivity.
Defined.

(** X10: whenever the rewriter limits a statement, the text it returns is a
    prefix of the trimmed input, itself trimmed and not empty, followed by
    a space, the requested clause and at most a semicolon: the rewriter
    removes text at the end only, and adds nothing but the clause.  The
    text returned has no white space at either end.  The statement is
    made of ASCII characters, and the requested limit and offset are
    integers from 0 to 2^53 - 1. *)
Theorem rewriter_appends_clause :
  forall (s : text) (limit offset : N) (forceLimit : bool),
    ascii_text s = true -> safe limit = true -> safe offset = true ->
    wasLimited (applyQueryLimit s limit offset forceLimit) = true ->
    exists b sc,
      sql (applyQueryLimit s limit offset forceLimit)
      = b ++ str " " ++ limitClause limit offset ++ semicolon sc
      /\ prefix_of b (trim s)
      /\ body b
      /\ trim (sql (applyQueryLimit s limit offset forceLimit))
         = sql (applyQueryLimit s limit offset forceLimit).
Proof.
  intros s limit offset forceLimit _ _ _ W.
  destruct (rewriting_path _ _ _ _ W) as [T G].
  assert (Ev : exists x1 sel x2,
             trim s = x1 ++ sel ++ x2 /\ select_at x1 sel
             /\ hd_ok non_word x2 = true).
  { apply select_evidence; [apply trim_hd|].
    rewrite type_unfold in T. exact T. }
  destruct Ev as (x1 & sel & x2 & Split & Sel & U).
  exists (statement_body s), (endsWith (stripped s) ";").
  rewrite (rewrite_shape s limit offset forceLimit T G), <- app_assoc.
  split; [reflexivity|]. split; [|split].
  - exact (statement_body_prefix s x1 sel x2 Split Sel).
  - exact (statement_body_is_body s x1 sel x2 Split Sel).
  - rewrite app_assoc.
    exact (rewritten_trimmed _ limit offset _
             (statement_body_is_body s x1 sel x2 Split Sel)).
Qed.

Lemma rewriter_appends_clause_witness :
  ascii_text (str "  select a from t limit 3 ;  ") = true
  /\ safe 10 = true /\ safe 20 = true
  /\ exists b sc,
    sql (applyQueryLimit (str "  select a from t limit 3 ;  ") 10 20 true)
    = b ++ str " " ++ limitClause 10 20 ++ semicolon sc
    /\ prefix_of b (trim (str "  select a from t limit 3 ;  ")).
Proof.
  do 3 (split; [reflexivity|]).
  destruct (rewriter_appends_clause
              (str "  select a from t limit 3 ;  ") 10 20 true)
    as (b & sc & E & P & _); [reflexivity..|vm_compute; reflexivity|].
  exists b, sc. auto.
Defined.

Lemma hasCTE_unfold s :
  hasCTE (analyzeQuery s) = test true (re_leading "WITH") (trim s).
Proof.
  unfold analyzeQuery.
  destruct (groups re_limit (trim s)) as [g|]; [destruct (capture 2 g)|];
    reflexivity.
Qed.

(** X11: the classifier reports a common table expression exactly when the
    first word of the statement is WITH, in either case; for statements of
    ASCII characters, whose white space [trim] removes as the program
    does. *)
Theorem cte_flag_iff_leading_with :
  forall s : text,
    ascii_text s = true ->
    hasCTE (analyzeQuery s) = true
    <-> exists k u,
          trim s = k ++ u
          /\ kw_match true (str "WITH") k = true
          /\ hd_ok non_word u = true.
Proof.
  intros s _. rewrite hasCTE_unfold. split.
  - intros T. apply (leading_sound "WITH") in T; auto; try discriminate.
    apply trim_hd.
  - intros (k & u & -> & K & U).
    apply (leading_complete "WITH"); auto; discriminate.
Qed.

Lemma cte_flag_iff_leading_with_witness :
  ascii_text (str "  With a AS (SELECT 1) SELECT * FROM a") = true
  /\ hasCTE (analyzeQuery (str "  With a AS (SELECT 1) SELECT * FROM a"))
     = true.
Proof.
  split; [reflexivity|].
  apply (cte_flag_iff_leading_with
           (str "  With a AS (SELECT 1) SELECT * FROM a") eq_refl).
  exists (str "With"), (str " a AS (SELECT 1) SELECT * FROM a").
  repeat split; reflexivity.
Defined.

Lemma semicolon_restored_without_limit_witness :
  endsWith (sql (applyQueryLimit (str "select * from t ;") 500 0 false)) ";"
  = true.
Proof.
  apply (semicolon_restored_without_limit (str "select * from t ;") 500 0
           false); vm_compute; reflexivity.
Defined.

(** X12: without override, a SELECT statement that already ends with a
    LIMIT clause, in either form, is returned as it is, and the result
    reports the limit and the offset of the statement, not the requested
    ones; for numbers up to 2^53 - 1 in the clause, which [parseInt] reads
    without rounding. *)
Theorem existing_clause_kept :
  forall (x : text) (limit0 offset0 : N) (sc : bool) (limit offset : N),
    safe limit0 = true -> safe offset0 = true ->
    after_non_word (lastp None x) ->
    (let s := x ++ limitClause limit0 offset0 ++ semicolon sc in
     type (analyzeQuery s) = SELECT ->
     applyQueryLimit s limit offset false
     = {| sql := s; wasLimited := false; originalLimit := Some limit0;
          appliedLimit := limit0; appliedOffset := offset0 |})
    /\ (let s := x ++ mysqlClause offset0 limit0 ++ semicolon sc in
        type (analyzeQuery s) = SELECT ->
        applyQueryLimit s limit offset false
        = {| sql := s; wasLimited := false; originalLimit := Some limit0;
             appliedLimit := limit0; appliedOffset := offset0 |}).
Proof.
  intros x limit0 offset0 sc limit offset _ _ P. split; intros s T.
  - destruct (standard_clause_fields x limit0 offset0 sc P)
      as (L & El & Eo & _).
    fold s in L, El, Eo. unfold applyQueryLimit. rewrite T, L, El, Eo.
    cbn [QueryType_eqb negb andb or_zero]. f_equal.
    destruct (0 <? offset0)%N eqn:O; [reflexivity|].
    apply N.ltb_ge in O. cbn. lia.
  - destruct (count_clause_fields x offset0 limit0 sc P)
      as (L & El & Eo & _).
    fold s in L, El, Eo. unfold applyQueryLimit. rewrite T, L, El, Eo.
    reflexivity.
Qed.

Lemma existing_clause_kept_witness :
  safe 20 = true /\ safe 40 = true
  /\ applyQueryLimit (str "select * from t " ++ mysqlClause 40 20
                   ++ semicolon true) 500 0 false
  = {| sql := str "select * from t " ++ mysqlClause 40 20 ++ semicolon true;
       wasLimited := false; originalLimit := Some 20%N;
       appliedLimit := 20; appliedOffset := 40 |}.
Proof.
  do 2 (split; [reflexivity|]).
  apply (proj2 (existing_clause_kept (str "select * from t ") 20 40 true
                  500 0 eq_refl eq_refl eq_refl)).
  vm_compute. reflexivity.
Defined.

(** *** A pattern with more groups and alternatives *)

Lemma same_place_refl st : same_place st st.
Proof. split; reflexivity. Qed.

Lemma step_char_place ok st st2 m :
  same_place st st2 -> In m (step_char ok st) ->
  exists m', In m' (step_char ok st2) /\ same_place m m'.
Proof.
  intros [P R]. unfold step_char. rewrite <- R.
  destruct (rest st) as [|c t]; [contradiction|].
  destruct (ok c); [|contradiction]. intros [<-|[]].
  eexists. split; [left; reflexivity|]. split; reflexivity.
Qed.

Lemma guard_place (b b2 : bool) st st2 m :
  b = b2 -> same_place st st2 -> In m (guard b st) ->
  exists m', In m' (guard b2 st2) /\ same_place m m'.
Proof.
  intros <- S. unfold guard. destruct b; [|contradiction].
  intros [<-|[]]. exists st2. split; [now left|exact S].
Qed.

Lemma star_place (step step' : mstate -> list mstate) :
  (forall st st2 m,
     same_place st st2 -> In m (step st) ->
     exists m', In m' (step' st2) /\ same_place m m') ->
  forall fuel st st2 m,
    same_place st st2 -> In m (star step fuel st) ->
    exists m', In m' (star step' fuel st2) /\ same_place m m'.
Proof.
  intros S. induction fuel as [|f IH]; intros st st2 m P; cbn [star].
  - intros [<-|[]]. exists st2. split; [now left|exact P].
  - rewrite in_app_iff, in_flat_map. intros [(m1 & I1 & I)|[<-|[]]].
    + destruct (length (rest m1) <? length (rest st)) eqn:L;
        [|contradiction].
      destruct (S _ _ _ P I1) as (m1' & I1' & P1).
      destruct (IH _ _ _ P1 I) as (m' & I' & P').
      exists m'. split; [|exact P']. apply in_app_iff. left.
      apply in_flat_map. exists m1'. split; [exact I1'|].
      destruct P as [_ R], P1 as [_ R1]. now rewrite <- R, <- R1, L.
    + exists st2. split; [|exact P]. apply in_app_iff. right. now left.
Qed.

Lemma run_covers icase r' :
  forall r st st2 m,
    covers r' r = true ->
    same_place st st2 -> In m (run icase r st) ->
    exists m', In m' (run icase r' st2) /\ same_place m m'.
Proof.
  induction r' as [|p'| | | | | |a' IHa b' IHb|a' IHa b' IHb|a' IHa|a' IHa
                   |a' IHa|n a' IHa];
    intros r st st2 m C P I; cbn [covers] in C.
  - destruct r; try discriminate C. cbn [run] in *.
    destruct I as [<-|[]]. exists st2. split; [now left|exact P].
  - destruct r; try discriminate C. apply Ascii.eqb_eq in C. subst.
    cbn [run] in *. eapply step_char_place; eauto.
  - destruct r; try discriminate C. cbn [run] in *.
    eapply step_char_place; eauto.
  - destruct r; try discriminate C. cbn [run] in *.
    eapply step_char_place; eauto.
  - destruct r; try discriminate C. cbn [run] in *.
    refine (guard_place _ _ st st2 m _ P I). unfold at_boundary.
    destruct P as [-> ->]. reflexivity.
  - destruct r; try discriminate C. cbn [run] in *.
    refine (guard_place _ _ st st2 m _ P I).
    destruct P as [-> _]. reflexivity.
  - destruct r; try discriminate C. cbn [run] in *.
    refine (guard_place _ _ st st2 m _ P I).
    destruct P as [_ ->]. reflexivity.
  - destruct r; try discriminate C. apply andb_prop in C.
    destruct C as [Ca Cb]. cbn [run] in *. apply in_flat_map in I.
    destruct I as (m1 & I1 & I).
    destruct (IHa _ _ _ _ Ca P I1) as (m1' & I1' & P1).
    destruct (IHb _ _ _ _ Cb P1 I) as (m' & I' & P').
    exists m'. split; [|exact P']. apply in_flat_map. eauto.
  - apply orb_prop in C. cbn [run]. destruct C as [C|C].
    + destruct (IHa _ _ _ _ C P I) as (m' & I' & P').
      exists m'. split; [|exact P']. apply in_app_iff. now left.
    + destruct (IHb _ _ _ _ C P I) as (m' & I' & P').
      exists m'. split; [|exact P']. apply in_app_iff. now right.
  - destruct r; try discriminate C. cbn [run] in *.
    apply in_app_iff in I. destruct I as [I|[<-|[]]].
    + destruct (IHa _ _ _ _ C P I) as (m' & I' & P').
      exists m'. split; [|exact P']. apply in_app_iff. now left.
    + exists st2. split; [|exact P]. apply in_app_iff. right. now left.
  - destruct r; try discriminate C. cbn [run] in *.
    replace (length (rest st2)) with (length (rest st))
      by (destruct P as [_ ->]; reflexivity).
    eapply star_place; eauto.
  - destruct r; try discriminate C. cbn [run] in *.
    apply in_flat_map in I. destruct I as (m1 & I1 & I).
    destruct (IHa _ _ _ _ C P I1) as (m1' & I1' & P1).
    destruct (star_place (run icase r) (run icase a')
                (fun s s2 x => IHa r s s2 x C) _ _ _ _ P1 I)
      as (m' & I' & P').
    exists m'. split; [|exact P']. apply in_flat_map. exists m1'.
    split; [exact I1'|]. destruct P1 as [_ R1]. now rewrite <- R1.
  - destruct (IHa _ _ _ _ C P I) as (m' & I' & P').
    exists (set_cap n st2 m'). split; [|exact P'].
    cbn [run]. now apply in_map.
Qed.

(** Where the pattern that strips a clause matches, so does the pattern
    that detects one. *)
Lemma strip_standard_detected st :
  run true re_strip_standard st <> [] -> run true re_limit st <> [].
Proof.
  intros N. destruct (run true re_strip_standard st) as [|m l] eqn:R;
    [contradiction|].
  destruct (run_covers true re_limit re_strip_standard st st m eq_refl
              (same_place_refl st)) as (m' & I & _).
  { rewrite R. now left. }
  intros E. rewrite E in I. exact I.
Qed.

Lemma undetected_not_stripped b :
  exec true re_limit b = None ->
  replace_first_empty true re_strip_standard b = b.
Proof.
  intros No. unfold replace_first_empty, exec.
  destruct (exec_at true re_strip_standard [] None b) as [[before m]|] eqn:E;
    [exfalso|reflexivity].
  apply exec_at_sound in E. destruct E as (x & w & -> & _ & I).
  apply (exec_at_exists true re_limit x [] None w); [|exact No].
  apply strip_standard_detected. intros Z. rewrite Z in I. exact I.
Qed.

(** *** A forced override on a two-argument clause *)

Lemma reaches_strip_mysql p offset count sc :
  after_non_word p ->
  reaches true re_strip_mysql p (mysqlClause offset count ++ semicolon sc) [].
Proof.
  intros P.
  pose (l := [ (WordB, []); (lits "LIMIT", str "LIMIT");
               (Plus Space, str " "); (Plus Digit, dec offset);
               (Star Space, []); (Lit ",", str ",");
               (Star Space, str " "); (Plus Digit, dec count);
               (Star Space, []); (Opt (Lit ";"), semicolon sc);
               (Star Space, []); (Eol, []) ] : list (regex * text)).
  replace (mysqlClause offset count ++ semicolon sc)
    with (concat (map snd l))
    by (unfold mysqlClause, count_part;
        cbn [l map snd concat str list_ascii_of_string app];
        now rewrite ?app_nil_r, <- ?app_assoc).
  change re_strip_mysql with (seq (map fst l)).
  apply reaches_seq. unfold l.
  chain_step. { apply reaches_wordb. now apply boundary_before_word. }
  chain_step. { now apply reaches_lits. }
  chain_step. { now apply reaches_spaces1. }
  chain_step.
  { apply reaches_digits1; [apply dec_nonempty | apply dec_digits]. }
  chain_step. { now apply reaches_spaces. }
  chain_step. { now apply reaches_lit. }
  chain_step. { now apply reaches_spaces. }
  chain_step.
  { apply reaches_digits1; [apply dec_nonempty | apply dec_digits]. }
  chain_step. { now apply reaches_spaces. }
  chain_step.
  { destruct sc; [apply reaches_opt, reaches_lit; reflexivity
                 | apply reaches_opt_skip]. }
  chain_step. { now apply reaches_spaces. }
  chain_step. { apply reaches_eol. }
  exact I.
Qed.

Lemma strip_mysql_clause x offset count sc :
  after_non_word (lastp None x) ->
  replace_first_empty true re_strip_mysql
    (x ++ mysqlClause offset count ++ semicolon sc)
  = x.
Proof.
  intros P. unfold replace_first_empty, exec.
  destruct (exec_at_first true re_strip_mysql x [] None
              (mysqlClause offset count ++ semicolon sc)) as (m & E & I).
  - intros x1 c x2 X.
    destruct (run true re_strip_mysql _) as [|m l] eqn:R;
      [reflexivity|exfalso].
    assert (I : In m (run true re_strip_mysql
                        (MState (lastp None x1)
                           (c :: x2 ++ mysqlClause offset count
                                 ++ semicolon sc) [])))
      by (rewrite R; now left).
    destruct (strip_sound re_strip_mysql _ _ (or_introl eq_refl) I)
      as (_ & k & u & Ex & K & F & _).
    cbn [rest] in Ex. unfold mysqlClause in Ex.
    rewrite <- !app_assoc in Ex. symmetry in Ex.
    change (str "LIMIT " ++ dec offset ++ count_part count ++ semicolon sc)
      with ("L"%char :: str "IMIT " ++ dec offset ++ count_part count
            ++ semicolon sc) in Ex.
    apply (limit_start_unique k u (c :: x2) _ K F) in Ex. discriminate Ex.
  - apply reaches_all_run, reaches_strip_mysql, P.
  - rewrite E. cbn [app].
    rewrite (run_anchored true re_strip_mysql eq_refl _ _ I).
    apply app_nil_r.
Qed.

(** X13: under a forced override, a SELECT statement made of a body [b]
    without trailing clause nor semicolon, followed by a two-argument
    clause [LIMIT a, c] and at most a semicolon, gets that clause replaced
    by the requested one; the result reports [c] as the original limit,
    and the semicolon of the input is not put back.  The body is made of
    ASCII characters, and the numbers are integers from 0 to 2^53 - 1. *)
Theorem forced_override_replaces_two_argument_clause :
  forall (b : text) (offset0 count0 : N) (sc : bool) (limit offset : N),
    ascii_text b = true ->
    safe offset0 = true -> safe count0 = true ->
    safe limit = true -> safe offset = true ->
    body b ->
    hasLimit (analyzeQuery b) = false ->
    endsWith b ";" = false ->
    let s := b ++ str " " ++ mysqlClause offset0 count0 ++ semicolon sc in
    type (analyzeQuery s) = SELECT ->
    applyQueryLimit s limit offset true
    = {| sql := b ++ str " " ++ limitClause limit offset;
         wasLimited := true;
         originalLimit := Some count0;
         appliedLimit := limit;
         appliedOffset := offset |}.
Proof.
  intros b offset0 count0 sc limit offset _ _ _ _ _ B L S s T.
  assert (P : after_non_word (lastp None (b ++ str " ")))
    by (rewrite lastp_app; reflexivity).
  assert (Es : s = (b ++ str " ") ++ mysqlClause offset0 count0
                   ++ semicolon sc)
    by (unfold s; now rewrite <- app_assoc).
  destruct (count_clause_fields (b ++ str " ") offset0 count0 sc P)
    as (Hl & El & _).
  rewrite <- Es in Hl, El.
  assert (Hd : hd_ok not_space (b ++ str " ") = true).
  { pose proof (body_hd b B) as H. destruct B as [N _].
    destruct b; [contradiction|exact H]. }
  assert (Ts : trim s = s).
  { destruct (mysql_clause_shape offset0 count0 sc) as (N & H & La).
    rewrite Es, (trim_before _ _ N H La). f_equal.
    now apply drop_space_id. }
  assert (Tb : trim (b ++ str " ") = b).
  { change (str " ") with [" "%char].
    rewrite trim_app_space by reflexivity. now destruct B. }
  assert (Nb : replace_first_empty true re_strip_standard b = b).
  { apply undetected_not_stripped. rewrite hasLimit_unfold in L.
    destruct B as [_ Tr]. rewrite Tr in L.
    destruct (exec true re_limit b); [discriminate L|reflexivity]. }
  assert (M : replace_first_empty true re_strip_mysql s = b ++ str " ")
    by (rewrite Es; apply strip_mysql_clause, P).
  unfold applyQueryLimit. rewrite T, Hl, El.
  cbn [QueryType_eqb negb andb]. cbv zeta.
  rewrite Ts, M, Tb, Nb.
  destruct B as [_ Tr]. rewrite Tr, S. reflexivity.
Qed.

Lemma forced_override_replaces_two_argument_clause_witness :
  ascii_text (str "select * from t") = true
  /\ safe 5 = true /\ safe 20 = true /\ safe 500 = true /\ safe 0 = true
  /\ applyQueryLimit
    (str "select * from t" ++ str " " ++ mysqlClause 5 20 ++ semicolon true)
    500 0 true
  = {| sql := str "select * from t" ++ str " " ++ limitClause 500 0;
       wasLimited := true;
       originalLimit := Some 20%N;
       appliedLimit := 500;
       appliedOffset := 0 |}.
Proof.
  do 5 (split; [reflexivity|]).
  apply (forced_override_replaces_two_argument_clause
           (str "select * from t") 5 20 true 500 0
           eq_refl eq_refl eq_refl eq_refl eq_refl).
  - split; [discriminate|reflexivity].
  - vm_compute. reflexivity.
  - reflexivity.
  - vm_compute. reflexivity.
Defined.



(** *** A forced override, twice *)









End LimiterRoundTrip.

(** ** The route that runs a statement *)

Module QueryRouteFacts.

Import QueryLimiter RewriterSpec LimiterFacts LimiterRoundTrip QueryRoute.

Lemma not_limited_unchanged s limit offset forceLimit :
  wasLimited (applyQueryLimit s limit offset forceLimit) = false ->
  QueryLimiter.sql (applyQueryLimit s limit offset forceLimit) = s
  /\ (type (analyzeQuery s) = SELECT -> hasLimit (analyzeQuery s) = true).
Proof.
  unfold applyQueryLimit.
  destruct (type (analyzeQuery s)); cbn [QueryType_eqb negb];
    try (intros _; split; [reflexivity|discriminate]).
  destruct (hasLimit (analyzeQuery s)); cbn [andb].
  - destruct forceLimit; cbn [negb]; [discriminate|auto].
  - discriminate.
Qed.

Section RouteAnswers.

Variable exn : Type.
Variables instanceof_QueryError instanceof_TimeoutError isDatabaseError
          instanceof_Error : exn -> bool.
Variable message : exn -> text.
Variable code : exn -> option text.
Variables DatabaseConnection QueryResult : Type.
Variable rows_length : QueryResult -> nat.

Let handler :=
  handler exn instanceof_QueryError instanceof_TimeoutError isDatabaseError
    instanceof_Error message code QueryResult.
Let POST :=
  POST exn instanceof_QueryError instanceof_TimeoutError isDatabaseError
    instanceof_Error message code DatabaseConnection QueryResult rows_length.

(** The answer of the route to a request with a connection and a
    statement, in terms of the one call it makes to the provider. *)
Lemma route_answer conn (c0 : ascii) (t : text) (o : option QueryOptions)
      (p : Provider exn QueryResult) :
  let s := c0 :: t in
  let select := QueryType_eqb (type (analyzeQuery s)) SELECT in
  let r := applyQueryLimit s (effective_limit o) (requested_offset o) false in
  POST (Estimate.Returns
          {| connection := Some conn; sql := Some s; options := o |})
       (fun _ => Estimate.Returns p)
  = match query p (if select then QueryLimiter.sql r else s) with
    | Estimate.Returns result =>
        Json200 result
          {| page_limit := effective_limit o;
             page_offset := requested_offset o;
             hasMore := (N.of_nat (rows_length result) =? effective_limit o)%N;
             totalReturned := rows_length result;
             page_wasLimited := if select then wasLimited r else false |}
    | Estimate.Throws e => handler e
    end.
Proof.
  intros s select r. subst s select r.
  unfold POST, QueryRoute.POST, attempt, effective_limit, requested_offset.
  cbn [Estimate.bind connection sql options].
  destruct o as [[[l|] [off|] [[|]|]]|]; cbn [limit offset unlimited];
    destruct (QueryType_eqb _ _); cbn [Estimate.bind];
    destruct (query p _); reflexivity.
Qed.

Lemma select_eqb ty : QueryType_eqb ty SELECT = true <-> ty = SELECT.
Proof. destruct ty; cbn; split; congruence. Qed.

Lemma sent_text_limited s limit offset :
  limited_or_not_select
    (if QueryType_eqb (type (analyzeQuery s)) SELECT
     then QueryLimiter.sql (applyQueryLimit s limit offset false)
     else s) = true.
Proof.
  unfold limited_or_not_select.
  destruct (QueryType_eqb (type (analyzeQuery s)) SELECT) eqn:S;
    [|now rewrite S].
  apply orb_true_iff. right. apply select_eqb in S.
  destruct (wasLimited (applyQueryLimit s limit offset false)) eqn:W.
  - now destruct (read_back s limit offset false W) as (_ & L & _).
  - destruct (not_limited_unchanged _ _ _ _ W) as [-> L]. auto.
Qed.

(** X14: whatever the provider, the answer of the route is made from the
    answer of the provider to one statement, which is not a SELECT or
    ends with a LIMIT clause: a SELECT statement does not reach the
    database without a limit.  A statement that is not a SELECT is passed
    on as it is.  The statement is made of ASCII characters; the limit and
    the offset of the options, which the route does not check, are absent
    or integers from 0 to 2^53 - 1. *)
Theorem route_runs_limited_statement :
  forall conn (c0 : ascii) (t : text) (o : option QueryOptions),
    ascii_text (c0 :: t) = true ->
    safe (effective_limit o) = true -> safe (requested_offset o) = true ->
    let s := c0 :: t in
    exists q wl,
      (forall p : Provider exn QueryResult,
         POST (Estimate.Returns
                 {| connection := Some conn; sql := Some s; options := o |})
              (fun _ => Estimate.Returns p)
         = match query p q with
           | Estimate.Returns result =>
               Json200 result
                 {| page_limit := effective_limit o;
                    page_offset := requested_offset o;
                    hasMore :=
                      (N.of_nat (rows_length result) =? effective_limit o)%N;
                    totalReturned := rows_length result;
                    page_wasLimited := wl |}
           | Estimate.Throws e => handler e
           end)
      /\ limited_or_not_select q = true
      /\ (type (analyzeQuery s) <> SELECT -> q = s /\ wl = false).
Proof.
  intros conn c0 t o _ _ _ s. eexists. eexists.
  split; [intros p; apply route_answer|].
  split; [apply sent_text_limited|].
  intros N. destruct (QueryType_eqb _ _) eqn:S; [|auto].
  apply select_eqb in S. contradiction.
Qed.

(** X15: the pagination of an answer agrees with the statement that was run:
    [wasLimited] is set exactly when the statement run differs from the
    statement received, and then the classifier reads the reported limit
    and offset back from it.  The statement is made of ASCII characters;
    the limit and the offset of the options, which the route does not
    check, are absent or integers from 0 to 2^53 - 1. *)
Theorem route_pagination_matches_statement :
  forall conn (c0 : ascii) (t : text) (o : option QueryOptions),
    ascii_text (c0 :: t) = true ->
    safe (effective_limit o) = true -> safe (requested_offset o) = true ->
    let s := c0 :: t in
    exists q wl,
      (forall p : Provider exn QueryResult,
         POST (Estimate.Returns
                 {| connection := Some conn; sql := Some s; options := o |})
              (fun _ => Estimate.Returns p)
         = match query p q with
           | Estimate.Returns result =>
               Json200 result
                 {| page_limit := effective_limit o;
                    page_offset := requested_offset o;
                    hasMore :=
                      (N.of_nat (rows_length result) =? effective_limit o)%N;
                    totalReturned := rows_length result;
                    page_wasLimited := wl |}
           | Estimate.Throws e => handler e
           end)
      /\ (wl = true <-> q <> s)
      /\ (wl = true ->
          existingLimit (analyzeQuery q) = Some (effective_limit o)
          /\ existingOffset (analyzeQuery q)
             = (if (0 <? requested_offset o)%N
                then Some (requested_offset o) else None)).
Proof.
  intros conn c0 t o _ _ _ s. eexists. eexists.
  split; [intros p; apply route_answer|].
  destruct (QueryType_eqb _ _) eqn:S.
  - split; [apply limited_changed|].
    intros W. now destruct (read_back _ _ _ _ W) as (_ & _ & L & O & _).
  - split; [|discriminate]. split; [discriminate|]. intros N. now contradiction N.
Qed.

End RouteAnswers.

(** A request for 50 rows from the 100th on, with exceptions and results
    that carry nothing. *)
Lemma route_runs_limited_statement_witness :
  ascii_text (str "select * from t") = true
  /\ safe (effective_limit page_request) = true
  /\ safe (requested_offset page_request) = true
  /\ exists q wl,
       (forall p : Provider unit nat,
          POST unit (fun _ => false) (fun _ => false) (fun _ => false)
            (fun _ => true) (fun _ => []) (fun _ => None) unit nat
            (fun n => n)
            (Estimate.Returns
               {| connection := Some tt; sql := Some (str "select * from t");
                  options := page_request |})
            (fun _ => Estimate.Returns p)
          = match query p q with
            | Estimate.Returns result =>
                Json200 result
                  {| page_limit := 50; page_offset := 100;
                     hasMore := (N.of_nat result =? 50)%N;
                     totalReturned := result;
                     page_wasLimited := wl |}
            | Estimate.Throws e =>
                handler unit (fun _ => false) (fun _ => false)
                  (fun _ => false) (fun _ => true) (fun _ => [])
                  (fun _ => None) nat e
            end)
       /\ limited_or_not_select q = true.
Proof.
  do 3 (split; [reflexivity|]).
  destruct (route_runs_limited_statement unit (fun _ => false)
              (fun _ => false) (fun _ => false) (fun _ => true)
              (fun _ => []) (fun _ => None) unit nat (fun n => n) tt
              "s"%char (str "elect * from t") page_request eq_refl eq_refl
              eq_refl)
    as (q & wl & A & L & _).
  exists q, wl. split; [exact A|exact L].
Defined.

Lemma route_pagination_matches_statement_witness :
  ascii_text (str "select * from t") = true
  /\ safe (effective_limit page_request) = true
  /\ safe (requested_offset page_request) = true
  /\ exists q wl,
       (forall p : Provider unit nat,
          POST unit (fun _ => false) (fun _ => false) (fun _ => false)
            (fun _ => true) (fun _ => []) (fun _ => None) unit nat
            (fun n => n)
            (Estimate.Returns
               {| connection := Some tt; sql := Some (str "select * from t");
                  options := page_request |})
            (fun _ => Estimate.Returns p)
          = match query p q with
            | Estimate.Returns result =>
                Json200 result
                  {| page_limit := 50; page_offset := 100;
                     hasMore := (N.of_nat result =? 50)%N;
                     totalReturned := result;
                     page_wasLimited := wl |}
            | Estimate.Throws e =>
                handler unit (fun _ => false) (fun _ => false)
                  (fun _ => false) (fun _ => true) (fun _ => [])
                  (fun _ => None) nat e
            end)
       /\ (wl = true <-> q <> str "select * from t").
Proof.
  do 3 (split; [reflexivity|]).
  destruct (route_pagination_matches_statement unit (fun _ => false)
              (fun _ => false) (fun _ => false) (fun _ => true)
              (fun _ => []) (fun _ => None) unit nat (fun n => n) tt
              "s"%char (str "elect * from t") page_request eq_refl eq_refl
              eq_refl)
    as (q & wl & A & W & _).
  exists q, wl. split; [exact A|exact W].
Defined.

End QueryRouteFacts.

(** ** The estimator *)

Module EstimateRouteFacts.

Import QueryLimiter Estimate EstimateSamples EstimateFacts LimiterFacts
  LimiterRoundTrip EstimateRows.

Lemma text_eqb_eq (a b : text) : text_eqb a b = true <-> a = b.
Proof.
  revert b. induction a as [|x a IH]; intros [|y b]; cbn;
    try (split; [discriminate|discriminate]); [tauto|].
  rewrite andb_true_iff, Ascii.eqb_eq, IH. split.
  - now intros [-> ->].
  - intros E. injection E as -> ->. auto.
Qed.

Lemma text_eqb_neq (a b : text) : a <> b -> text_eqb a b = false.
Proof.
  intros N. destruct (text_eqb a b) eqn:E; [|reflexivity].
  apply text_eqb_eq in E. contradiction.
Qed.

(** [parseInt] reads a printed number back. *)
Lemma take_while_all ok (s : text) :
  forallb ok s = true -> take_while ok s = s.
Proof.
  induction s as [|c s IH]; cbn; [reflexivity|].
  intros H. apply andb_prop in H. destruct H as [-> H]. now rewrite IH.
Qed.

Lemma parseInt_digits (ds : text) :
  ds <> [] -> forallb is_digit ds = true ->
  parseInt (Text ds) = Some (Z.of_N (parseDigits ds)).
Proof.
  intros N F.
  assert (T : take_while is_digit ds = ds) by now apply take_while_all.
  destruct ds as [|d ds]; [contradiction|].
  assert (E : parseInt (Text (d :: ds))
           = match take_while is_digit (d :: ds) with
             | [] => None
             | x :: l => Some (1 * Z.of_N (parseDigits (x :: l)))%Z
             end).
  { cbn in F. apply andb_prop in F. destruct F as [Fd F].
    unfold parseInt. cbn [drop_space].
    replace (is_space d) with false
      by (symmetry; apply negb_true_iff;
          exact (proj1 (LimiterFacts.digit_chars d Fd))).
    destruct ds as [|d' ds].
    - revert Fd. ascii_cases d; vm_compute; intros Fd; try discriminate Fd;
        reflexivity.
    - cbn in F. apply andb_prop in F. destruct F as [Fd' _].
      revert Fd. ascii_cases d; intros Fd; try (vm_compute in Fd; discriminate Fd);
        try reflexivity.
      revert Fd'. ascii_cases d'; intros Fd';
        try (vm_compute in Fd'; discriminate Fd'); reflexivity. }
  rewrite E, T. f_equal. lia.
Qed.

Lemma select_nonempty q : isSelectQuery q = true -> q <> [].
Proof. intros H ->. vm_compute in H. discriminate H. Qed.

Lemma sum_text_rows ns :
  forall acc,
    fold_left
      (fun sum row => (sum + int_or_zero (parseInt (rows_column row)))%Z)
      (map text_row ns) acc
    = (acc + Z.of_N (fold_right N.add 0%N ns))%Z.
Proof.
  induction ns as [|n ns IH]; intros acc; cbn [map fold_left fold_right].
  - lia.
  - rewrite IH. cbn [text_row rows_column].
    rewrite parseInt_digits by (apply dec_nonempty || apply dec_digits).
    rewrite parseDigits_dec. cbn [int_or_zero]. lia.
Qed.

Section EstimateAnswers.

Variable exn : Type.
Variables instanceof_QueryError instanceof_TimeoutError isDatabaseError
  : exn -> bool.

Let POST :=
  POST instanceof_QueryError instanceof_TimeoutError isDatabaseError.

(** X16: the estimator answers 400 only to a request without a connection or
    without a statement; whatever else happens, an exception thrown by
    [req.json()], by [getOrCreateProvider] or by the provider included,
    it answers 200. *)
Theorem estimator_refuses_only_missing_fields :
  forall (req_json : outcome exn RequestBody)
         (getOrCreateProvider :
            DatabaseConnection -> outcome exn (Provider exn)),
    (exists r, POST req_json getOrCreateProvider = Status200 r)
    \/ (POST req_json getOrCreateProvider
        = Status400 (str "Connection and SQL query are required")
        /\ exists body,
             req_json = Returns body
             /\ (connection body = None \/ sql body = None
                 \/ sql body = Some [])).
Proof.
  intros req_json getOrCreateProvider.
  unfold POST, Estimate.POST, attempt.
  destruct req_json as [body|e]; cbn [bind].
  2:{ left.
      destruct (handler_zero exn instanceof_QueryError
                  instanceof_TimeoutError isDatabaseError e) as [d ->].
      eauto. }
  destruct (connection body) as [conn|] eqn:C; [|right; eauto 6].
  destruct (sql body) as [[|c q]|] eqn:S; [right; eauto 7| |right; eauto 7].
  left. destruct (negb (isSelectQuery (c :: q))); [eauto|].
  destruct (getOrCreateProvider conn) as [provider|e]; cbn [bind].
  2:{ destruct (handler_zero exn instanceof_QueryError
                  instanceof_TimeoutError isDatabaseError e) as [d ->].
      eauto. }
  destruct (estimate (conn_type conn) provider (c :: q)) as [n|e];
    cbn [bind]; [eauto|].
  destruct (handler_zero exn instanceof_QueryError
              instanceof_TimeoutError isDatabaseError e) as [d ->].
  eauto.
Qed.

(** X17: a statement whose first word is INSERT, UPDATE or DELETE gets the
    zero estimate, and no provider is asked for: the answer is the same
    whatever [getOrCreateProvider] does. *)
Theorem data_change_statement_not_estimated :
  forall (conn : DatabaseConnection) (k u : text)
         (getOrCreateProvider :
            DatabaseConnection -> outcome exn (Provider exn)),
    hd_ok non_word u = true ->
    kw_match true (str "INSERT") k = true
    \/ kw_match true (str "UPDATE") k = true
    \/ kw_match true (str "DELETE") k = true ->
    POST (Returns {| connection := Some conn; sql := Some (k ++ u) |})
      getOrCreateProvider
    = Status200 no_estimate.
Proof.
  intros conn k u getOrCreateProvider U K.
  destruct (first_keyword_classified k u U) as (I & Up & D).
  assert (S : isSelectQuery (k ++ u) = false).
  { unfold isSelectQuery.
    destruct K as [K|[K|K]];
      [rewrite (I K)|rewrite (Up K)|rewrite (D K)]; reflexivity. }
  assert (N : k ++ u <> []).
  { destruct k as [|c k]; [|discriminate].
    destruct K as [K|[K|K]]; discriminate K. }
  unfold POST, Estimate.POST, attempt. cbn [bind connection sql].
  destruct (k ++ u) as [|c q]; [contradiction|]. now rewrite S.
Qed.

(** X18: engines other than PostgreSQL and MySQL are never sent an EXPLAIN:
    a SELECT statement gets the zero estimate whatever the provider
    does. *)
Theorem other_engines_not_queried :
  forall (conn : DatabaseConnection) (q : text) (provider : Provider exn),
    conn_type conn <> str "postgres" ->
    conn_type conn <> str "mysql" ->
    isSelectQuery q = true ->
    POST (Returns {| connection := Some conn; sql := Some q |})
      (fun _ => Returns provider)
    = Status200 no_estimate.
Proof.
  intros conn q provider Np Nm S.
  pose proof (select_nonempty q S) as N.
  unfold POST, Estimate.POST, attempt, estimate.
  cbn [bind connection sql].
  destruct q as [|c q]; [contradiction|]. rewrite S. cbn [negb bind].
  rewrite (text_eqb_neq _ _ Np), (text_eqb_neq _ _ Nm).
  destruct (text_eqb (conn_type conn) (str "sqlite")); reflexivity.
Qed.

(** X19: for MySQL the estimate is the sum of the [rows] columns of the
    EXPLAIN, read as numbers when they come as strings; no row gives 0.
    The result is large, with a warning that quotes the sum, exactly when
    the sum is above 10000.  The sum is at most 2^53 - 1, so that the
    program reads and adds the numbers without rounding. *)
Theorem mysql_estimate_adds_rows :
  forall (conn : DatabaseConnection) (q : text) (provider : Provider exn)
         (ns : list N),
    conn_type conn = str "mysql" ->
    isSelectQuery q = true ->
    query provider (str "EXPLAIN " ++ q)
    = Returns {| rows := Some (map text_row ns) |} ->
    safe (fold_right N.add 0%N ns) = true ->
    let total := Z.of_N (fold_right N.add 0%N ns) in
    exists w,
      POST (Returns {| connection := Some conn; sql := Some q |})
        (fun _ => Returns provider)
      = Status200
          {| estimatedRows := total;
             isLargeResult := (10000 <? total)%Z;
             warning := w;
             error := None |}
      /\ ((total <= 10000)%Z -> w = None)
      /\ ((10000 < total)%Z ->
          exists t, w = Some t /\ magnitude_warning total t).
Proof.
  intros conn q provider ns Ty S Q _ total.
  exists (if (10000 <? total)%Z then Some (large_warning total) else None).
  split; [|split].
  2:{ intros L. now replace (10000 <? total)%Z with false
        by (symmetry; apply Z.ltb_ge; exact L). }
  2:{ intros L. replace (10000 <? total)%Z with true
        by (symmetry; apply Z.ltb_lt; exact L).
      eexists. split; [reflexivity|]. now apply large_warning_magnitude. }
  pose proof (select_nonempty q S) as N.
  unfold POST, Estimate.POST, attempt, estimate.
  cbn [bind connection sql].
  destruct q as [|c q]; [contradiction|]. rewrite S. cbn [negb bind].
  rewrite Ty.
  replace (text_eqb (str "mysql") (str "postgres")) with false
    by reflexivity.
  replace (text_eqb (str "mysql") (str "mysql")) with true by reflexivity.
  rewrite Q. cbn [bind rows].
  assert (E : match map text_row ns with
              | [] => 0%Z
              | r :: rs =>
                  fold_left
                    (fun sum row =>
                       (sum + int_or_zero (parseInt (rows_column row)))%Z)
                    (r :: rs) 0%Z
              end = total).
  { destruct ns as [|n ns]; [reflexivity|].
    cbn [map].
    change (text_row n :: map text_row ns) with (map text_row (n :: ns)).
    now rewrite sum_text_rows. }
  rewrite E. reflexivity.
Qed.

End EstimateAnswers.

Lemma data_change_statement_not_estimated_witness :
  sample_POST "postgres" "delete from t" (Throws a_type_error)
  = Status200 no_estimate.
Proof.
  unfold sample_POST.
  apply (data_change_statement_not_estimated sample_error _ _ _
           {| conn_type := str "postgres" |} (str "delete") (str " from t"));
    [reflexivity|right; right; reflexivity].
Defined.

Lemma other_engines_not_queried_witness :
  sample_POST "sqlite" "select * from t" (Throws a_timeout)
  = Status200 no_estimate.
Proof.
  unfold sample_POST.
  apply (other_engines_not_queried sample_error);
    [discriminate|discriminate|vm_compute; reflexivity].
Defined.

Lemma mysql_estimate_adds_rows_witness :
  safe (fold_right N.add 0%N [9000; 1350]%N) = true
  /\ exists w,
       sample_POST "mysql" "select * from a join b"
         (Returns {| rows := Some (map text_row [9000; 1350]%N) |})
       = Status200
           {| estimatedRows := 10350;
              isLargeResult := true;
              warning := w;
              error := None |}
       /\ exists t, w = Some t /\ magnitude_warning 10350 t.
Proof.
  split; [reflexivity|]. unfold sample_POST.
  destruct (mysql_estimate_adds_rows sample_error
              (fun e => match e with a_query_error => true | _ => false end)
              (fun e => match e with a_timeout => true | _ => false end)
              (fun e => match e with a_type_error => false | _ => true end)
              {| conn_type := str "mysql" |} (str "select * from a join b")
              {| query := fun _ =>
                   Returns {| rows := Some (map text_row [9000; 1350]%N) |} |}
              [9000; 1350]%N)
    as (w & E & _ & W);
    [reflexivity|vm_compute; reflexivity|reflexivity|reflexivity|].
  exists w. split; [exact E|]. apply W. reflexivity.
Defined.

End EstimateRouteFacts.

(** ** The traversal of the plan analyzer *)

Module PlanTraversalFacts.

Import VisualExplain PlanSamples PlanAnalyzerFacts PlanTraversal.

(** *** The traversal *)

Lemma visit_all_app l1 l2 a :
  visit_all (l1 ++ l2) a = (a' <- visit_all l1 a ;; visit_all l2 a').
Proof.
  revert a. induction l1 as [|n l1 IH]; intros a; cbn [app visit_all].
  - reflexivity.
  - destruct (visit n a) as [a1|]; [apply IH|reflexivity].
Qed.

(** [analyzeNode] visits the nodes of the tree in the order of [nodes]. *)
Lemma analyzeNode_visit_all :
  forall (node : ExplainPlanNode) (depth : nat) (a : Acc),
    analyzeNode node depth a = visit_all (nodes node) a.
Proof.
  fix IH 1. intros node depth a.
  destruct node as [ty ar pr att tc sh sr rn al fl ix pl].
  cbn [analyzeNode nodes visit_all].
  destruct (visit (PlanNode ty ar pr att tc sh sr rn al fl ix pl) a)
    as [a1|]; [|reflexivity].
  cbn [Plans]. destruct pl as [children|]; [|reflexivity].
  revert a1. induction children as [|child children IHc]; intros a1.
  - reflexivity.
  - rewrite visit_all_app, <- (IH child (depth + 1) a1).
    destruct (analyzeNode child (depth + 1) a1) as [a2|]; [|reflexivity].
    apply IHc.
Qed.

(** What [visit] does to the accumulator. *)
Lemma visit_acc (n : ExplainPlanNode) (a : Acc) :
  visit n a
  = Some {| acc_warnings := acc_warnings a ++ node_warnings n;
            acc_totalRows := acc_totalRows a + num_or (Actual_Rows n) 0;
            acc_nodeCount := acc_nodeCount a + 1;
            acc_bufferHits :=
              acc_bufferHits a + num_or (Shared_Hit_Blocks n) 0;
            acc_bufferReads :=
              acc_bufferReads a + num_or (Shared_Read_Blocks n) 0 |}.
Proof.
  unfold node_warnings, visit.
  set (nodeType := text_or (Node_Type n) []).
  set (actualRows := num_or (Actual_Rows n) 0%Q).
  set (planRows := num_or (Plan_Rows n) 0%Q).
  set (actualTime := num_or (Actual_Total_Time n) 0%Q).
  set (actualLoops := num_nullish (Actual_Loops n) 1%Q).
  destruct (formatNumber_defined actualRows) as [t1 ->].
  destruct (formatNumber_defined planRows) as [t2 ->].
  destruct (formatNumber_defined actualLoops) as [t3 ->].
  destruct (formatTime_defined actualTime) as [t4 ->].
  destruct (Qgtb planRows 0) eqn:Hp; cbn [andb];
    [rewrite !(@div_defined actualRows planRows (@Qgtb_nonzero planRows Hp))|];
    repeat match goal with
           | |- context [if ?c then _ else _] => destruct c
           end;
    unfold push;
    cbn [acc_warnings acc_totalRows acc_nodeCount acc_bufferHits
         acc_bufferReads start app];
    rewrite <- ?app_assoc, ?app_nil_r; reflexivity.
Qed.

Lemma visit_all_acc l :
  forall a,
    visit_all l a
    = Some {| acc_warnings := acc_warnings a ++ flat_map node_warnings l;
              acc_totalRows :=
                fold_left (fun s n => (s + num_or (Actual_Rows n) 0)%Q) l
                  (acc_totalRows a);
              acc_nodeCount := acc_nodeCount a + N.of_nat (length l);
              acc_bufferHits :=
                fold_left (fun s n => (s + num_or (Shared_Hit_Blocks n) 0)%Q) l
                  (acc_bufferHits a);
              acc_bufferReads :=
                fold_left (fun s n => (s + num_or (Shared_Read_Blocks n) 0)%Q) l
                  (acc_bufferReads a) |}.
Proof.
  induction l as [|n l IH]; intros a.
  - destruct a. cbn [visit_all flat_map fold_left length acc_warnings
                     acc_totalRows acc_nodeCount acc_bufferHits
                     acc_bufferReads].
    now rewrite app_nil_r, N.add_0_r.
  - cbn [visit_all]. rewrite visit_acc, IH.
    cbn [flat_map fold_left length acc_warnings acc_totalRows acc_nodeCount
         acc_bufferHits acc_bufferReads].
    rewrite <- app_assoc, <- N.add_assoc.
    replace (1 + N.of_nat (length l))%N with (N.of_nat (S (length l)))
      by lia.
    reflexivity.
Qed.

(** The analysis of a plan with a root node, in terms of the nodes of its
    tree. *)
Lemma analysis_of_tree plan root a :
  analyzePlan plan = Some a ->
  rootPlan plan = Some root ->
  warnings a = flat_map node_warnings (nodes root)
  /\ nodeCount a = N.of_nat (length (nodes root))
  /\ totalRows a
     = fold_left (fun s n => (s + num_or (Actual_Rows n) 0)%Q) (nodes root) 0%Q
  /\ bufferHits a
     = fold_left (fun s n => (s + num_or (Shared_Hit_Blocks n) 0)%Q)
         (nodes root) 0%Q
  /\ bufferReads a
     = fold_left (fun s n => (s + num_or (Shared_Read_Blocks n) 0)%Q)
         (nodes root) 0%Q.
Proof.
  intros H R.
  destruct (analyzePlan_unfold plan)
    as (acc & Hacc & a' & Ha & Hw & Hn & Hh & Hr & Ht & _).
  rewrite Ha in H. injection H as ->.
  rewrite R, analyzeNode_visit_all, visit_all_acc in Hacc.
  injection Hacc as <-.
  rewrite Hw, Hn, Hh, Hr, Ht. cbn. auto.
Qed.

Ltac pick_warning :=
  first [ solve [eexists; split; [left; reflexivity | reflexivity]]
        | solve [eexists; split; [right; left; reflexivity | reflexivity]]
        | solve [eexists; split;
                   [right; right; left; reflexivity | reflexivity]]
        | solve [eexists; split;
                   [right; right; right; left; reflexivity | reflexivity]] ].

Ltac no_warning :=
  let w := fresh "w" in
  let I := fresh "I" in
  let T := fresh "T" in
  intros (w & I & T); cbn [In] in I;
  repeat match goal with
         | H : _ \/ _ |- _ => destruct H as [H|H]
         end;
  try contradiction; subst w; cbn in T; discriminate T.

Ltac node_cases n :=
  unfold node_warnings, visit;
  set (nodeType := text_or (Node_Type n) []);
  set (actualRows := num_or (Actual_Rows n) 0%Q);
  set (planRows := num_or (Plan_Rows n) 0%Q);
  set (actualTime := num_or (Actual_Total_Time n) 0%Q);
  set (actualLoops := num_nullish (Actual_Loops n) 1%Q);
  destruct (formatNumber_defined actualRows) as [t1 ->];
  destruct (formatNumber_defined planRows) as [t2 ->];
  destruct (formatNumber_defined actualLoops) as [t3 ->];
  destruct (formatTime_defined actualTime) as [t4 ->];
  let Hp := fresh "Hp" in
  destruct (Qgtb planRows 0) eqn:Hp; cbn [andb];
  [rewrite !(@div_defined actualRows planRows (@Qgtb_nonzero planRows Hp))|];
  repeat match goal with
         | |- context [if ?c then _ else _] => destruct c
         end;
  unfold push; cbn [acc_warnings start app].

(** A node has a critical warning exactly under the loop rule. *)
Lemma node_critical n :
  (exists w, In w (node_warnings n) /\ type w = w_critical)
  <-> loop_rule n = true.
Proof.
  unfold loop_rule. node_cases n;
    (split; [first [reflexivity | no_warning]
            | first [discriminate | intros _; pick_warning]]).
Qed.

(** A node has a sequential-scan warning exactly under the scan rule. *)
Lemma node_seq_scan n :
  (exists w, In w (node_warnings n) /\ title w = str "Sequential Scan")
  <-> seq_scan_rule n = true.
Proof.
  unfold seq_scan_rule. node_cases n;
    (split; [first [reflexivity | no_warning]
            | first [discriminate | intros _; pick_warning]]).
Qed.


(** A node has a sort warning exactly under the sort rule. *)
Lemma node_sort n :
  (exists w, In w (node_warnings n) /\ title w = str "Expensive Sort")
  <-> sort_rule n = true.
Proof.
  unfold sort_rule. node_cases n;
    (split; [first [reflexivity | no_warning]
            | first [discriminate | intros _; pick_warning]]).
Qed.

Lemma in_tree_warnings root w :
  In w (flat_map node_warnings (nodes root))
  <-> exists n, In n (nodes root) /\ In w (node_warnings n).
Proof. apply in_flat_map. Qed.

Lemma analysis_exists plan : exists a, analyzePlan plan = Some a.
Proof. destruct (analyzePlan_unfold plan) as (_ & _ & a & Ha & _). eauto. Qed.

Lemma node_warnings_length n : length (node_warnings n) <= 4.
Proof. node_cases n; cbn [length]; lia. Qed.

(** X20: the analyzer counts every node of the plan tree once, and the
    Operations insight shows that count, with status Warning exactly when
    the tree has more than 20 nodes. *)
Theorem operations_count_nodes :
  forall plan root,
    rootPlan plan = Some root ->
    exists a i,
      analyzePlan plan = Some a
      /\ nodeCount a = N.of_nat (length (nodes root))
      /\ nth_error (insights a) 1 = Some i
      /\ label i = str "Operations"
      /\ value i = dec (N.of_nat (length (nodes root)))
      /\ (status i = warning <-> 20 < length (nodes root))
      /\ (status i = good <-> length (nodes root) <= 20).
Proof.
  intros plan root R. destruct (analysis_exists plan) as [a Ha].
  destruct (analysis_of_tree plan root a Ha R) as (_ & Hn & _).
  destruct (analyzePlan_unfold plan)
    as (_ & _ & a' & Ha' & _ & _ & _ & _ & _ & ex & _ & Hi).
  rewrite Ha in Ha'. injection Ha' as <-.
  eexists a, _. split; [exact Ha|]. split; [exact Hn|].
  rewrite Hi. cbn [nth_error]. split; [reflexivity|].
  cbn [label value status]. rewrite Hn. split; [reflexivity|].
  split; [reflexivity|].
  destruct (20 <? N.of_nat (length (nodes root)))%N eqn:C.
  - apply N.ltb_lt in C. split; split; intros; try reflexivity;
      try discriminate; lia.
  - apply N.ltb_ge in C. split; split; intros; try reflexivity;
      try discriminate; lia.
Qed.

Lemma operations_count_nodes_witness :
  exists a,
    analyzePlan
      (plan_of (sample_node "Nested Loop" 5 2000
                  [sample_node "Seq Scan" 50000 1 [];
                   sample_node "Index Scan" 1 2000 []]))
    = Some a
    /\ nodeCount a = 3%N.
Proof.
  destruct (operations_count_nodes
              (plan_of (sample_node "Nested Loop" 5 2000
                          [sample_node "Seq Scan" 50000 1 [];
                           sample_node "Index Scan" 1 2000 []]))
              _ eq_refl)
    as (a & i & Ha & Hn & _).
  exists a. split; [exact Ha|exact Hn].
Defined.



(** X22: the warnings of an analysis are those of the nodes of the tree, a
    node before its children and the children from left to right; the
    warnings of a node depend on that node only, and there are at most
    four of them. *)
Theorem warnings_follow_tree_order :
  forall plan root,
    rootPlan plan = Some root ->
    exists a,
      analyzePlan plan = Some a
      /\ warnings a = flat_map node_warnings (nodes root)
      /\ length (warnings a) <= 4 * length (nodes root).
Proof.
  intros plan root R. destruct (analysis_exists plan) as [a Ha].
  destruct (analysis_of_tree plan root a Ha R) as (Hw & _).
  exists a. split; [exact Ha|]. split; [exact Hw|].
  rewrite Hw. clear. induction (nodes root) as [|n l IH].
  - cbn [flat_map length]. lia.
  - cbn [flat_map length]. rewrite length_app.
    pose proof (node_warnings_length n). lia.
Qed.

Lemma warnings_follow_tree_order_witness :
  exists a,
    analyzePlan
      (plan_of (sample_node "Nested Loop" 5 2000
                  [sample_node "Seq Scan" 50000 1 [];
                   sample_node "Index Scan" 1 2000 []]))
    = Some a
    /\ map title (warnings a)
       = [str "High Loop Count"; str "Sequential Scan"].
Proof.
  destruct (warnings_follow_tree_order
              (plan_of (sample_node "Nested Loop" 5 2000
                          [sample_node "Seq Scan" 50000 1 [];
                           sample_node "Index Scan" 1 2000 []]))
              _ eq_refl)
    as (a & Ha & Hw & _).
  exists a. split; [exact Ha|]. rewrite Hw. vm_compute. reflexivity.
Defined.

(** A rule that is decided node by node is decided on the tree. *)
Lemma tree_rule (P : Warning -> Prop) (rule : ExplainPlanNode -> bool) :
  (forall n, (exists w, In w (node_warnings n) /\ P w) <-> rule n = true) ->
  forall plan root,
    rootPlan plan = Some root ->
    exists a,
      analyzePlan plan = Some a
      /\ ((exists w, In w (warnings a) /\ P w)
          <-> exists n, In n (nodes root) /\ rule n = true).
Proof.
  intros Node plan root R. destruct (analysis_exists plan) as [a Ha].
  destruct (analysis_of_tree plan root a Ha R) as (Hw & _).
  exists a. split; [exact Ha|]. rewrite Hw. split.
  - intros (w & I & T). apply in_tree_warnings in I.
    destruct I as (n & In_ & Iw). exists n. split; [exact In_|].
    apply Node. eauto.
  - intros (n & In_ & L). apply Node in L.
    destruct L as (w & Iw & T). exists w. split; [|exact T].
    apply in_tree_warnings. eauto.
Qed.

(** X23: an analysis has a critical warning exactly when some node of the
    tree is a nested loop that ran more than 1000 times. *)
Theorem critical_warning_iff_heavy_loop :
  forall plan root,
    rootPlan plan = Some root ->
    exists a,
      analyzePlan plan = Some a
      /\ ((exists w, In w (warnings a) /\ type w = w_critical)
          <-> exists n, In n (nodes root) /\ loop_rule n = true).
Proof. exact (tree_rule _ _ node_critical). Qed.

Lemma critical_warning_iff_heavy_loop_witness :
  exists a w,
    analyzePlan
      (plan_of (sample_node "Hash Join" 5 1
                  [sample_node "Nested Loop" 7 1001 []]))
    = Some a
    /\ In w (warnings a) /\ type w = w_critical.
Proof.
  destruct (critical_warning_iff_heavy_loop
              (plan_of (sample_node "Hash Join" 5 1
                          [sample_node "Nested Loop" 7 1001 []]))
              _ eq_refl)
    as (a & Ha & Hc).
  destruct (proj2 Hc) as (w & I & T).
  - exists (sample_node "Nested Loop" 7 1001 []).
    split; [right; left; reflexivity|reflexivity].
  - exists a, w. auto.
Defined.

(** X24: an analysis has a sequential-scan warning exactly when some node of
    the tree is a sequential scan that returned more than 10000 rows. *)
Theorem seq_scan_warning_iff_large_scan :
  forall plan root,
    rootPlan plan = Some root ->
    exists a,
      analyzePlan plan = Some a
      /\ ((exists w, In w (warnings a) /\ title w = str "Sequential Scan")
          <-> exists n, In n (nodes root) /\ seq_scan_rule n = true).
Proof.
  exact (tree_rule (fun w => title w = str "Sequential Scan") _
           node_seq_scan).
Qed.

Lemma seq_scan_warning_iff_large_scan_witness :
  exists a,
    analyzePlan (plan_of (sample_node "Seq Scan" 10000 1 [])) = Some a
    /\ ~ (exists w, In w (warnings a) /\ title w = str "Sequential Scan").
Proof.
  destruct (seq_scan_warning_iff_large_scan
              (plan_of (sample_node "Seq Scan" 10000 1 [])) _ eq_refl)
    as (a & Ha & Hc).
  exists a. split; [exact Ha|]. intros H. apply Hc in H.
  destruct H as (n & [<-|[]] & S). vm_compute in S. discriminate S.
Defined.



(** X26: an analysis has an expensive-sort warning exactly when some node of
    the tree has a type that contains [Sort] and took more than 100
    milliseconds. *)
Theorem sort_warning_iff_slow_sort :
  forall plan root,
    rootPlan plan = Some root ->
    exists a,
      analyzePlan plan = Some a
      /\ ((exists w, In w (warnings a) /\ title w = str "Expensive Sort")
          <-> exists n, In n (nodes root) /\ sort_rule n = true).
Proof.
  exact (tree_rule (fun w => title w = str "Expensive Sort") _ node_sort).
Qed.

Lemma sort_warning_iff_slow_sort_witness :
  exists a w,
    analyzePlan (plan_of (timed_node "Incremental Sort" 10 10 101)) = Some a
    /\ In w (warnings a) /\ title w = str "Expensive Sort".
Proof.
  destruct (sort_warning_iff_slow_sort
              (plan_of (timed_node "Incremental Sort" 10 10 101)) _ eq_refl)
    as (a & Ha & Hc).
  destruct (proj2 Hc) as (w & I & T).
  - exists (timed_node "Incremental Sort" 10 10 101).
    split; [left; reflexivity|reflexivity].
  - exists a, w. auto.
Defined.

End PlanTraversalFacts.
